(** * Channel event router and adapter rendering pipeline

    A shallow embedding of the gateway, the cross-channel router, the
    webhook dispatch boundaries, the shared run handler and the Telegram
    adapter's queue and rendering context, of the start-up code and of
    parts of the heartbeat, email and web adapters, followed by the
    properties established about them. *)

From Stdlib Require Import ZArith Lia Ascii String.
From stdpp Require Import base decidable option list gmap strings pretty sorting.

Local Open Scope string_scope.
Local Open Scope Z_scope.
Local Open Scope list_scope.

(* ===================================================================== *)
(** * Part I: the embedding                                               *)
(* ===================================================================== *)

(** ** JavaScript values the embedding shares *)

Module Js.

(** How an awaited promise settles: with a value, or with a thrown error
    (already rendered as its message). *)
Inductive settled (A : Type) :=
| Fulfilled (value : A)
| Threw (err : string).
Global Arguments Fulfilled {A} value.
Global Arguments Threw {A} err.

(** [!s] on a [string | undefined] (or [string | null]). *)
Definition falsy (s : option string) : bool :=
  match s with
  | None => true
  | Some v => bool_decide (v = EmptyString)
  end.

(** The string behind a truthy [string | null]. *)
Definition truthy (s : option string) : option string :=
  match s with
  | Some v => if bool_decide (v = EmptyString) then None else Some v
  | None => None
  end.

(** [hay.includes(needle)] *)
Fixpoint includes (needle hay : string) : bool :=
  String.prefix needle hay ||
  match hay with
  | String _ rest => includes needle rest
  | EmptyString => false
  end.

Definition newline : string := String (ascii_of_nat 10) EmptyString.

End Js.

(** ** gateway.ts: one HTTP server, path-keyed routing *)

Module Gateway.
Section WithHandlers.

(** The handler closures stored in the route table are opaque to the
    gateway; it only stores them and calls them. *)
Context {RouteHandler : Type}.

(** [routes] is the Map<string, RouteHandler>, [readyRoutes] the Set<string>. *)
Record t := mk {
  routes : gmap string RouteHandler;
  readyRoutes : gset string
}.

Definition create : t := {| routes := ∅; readyRoutes := ∅ |}.

Definition register (path : string) (handler : RouteHandler) (g : t) : t :=
  {| routes := <[path := handler]> (routes g); readyRoutes := readyRoutes g |}.

Definition markReady (path : string) (g : t) : t :=
  {| routes := routes g; readyRoutes := {[path]} ∪ readyRoutes g |}.

(** The two fields of IncomingMessage the server callback reads.
    [url] may be undefined in Node's typing, hence the option. *)
Record request := mkRequest {
  method : string;
  url : option string
}.

(** What the server callback does with a request: either it writes a
    status and a body itself, or it hands the request to a handler. *)
Inductive outcome :=
| Reply (status : Z) (body : string)
| Invoke (handler : RouteHandler).

(** [req.url || ""]: undefined and the empty string both give "". *)
Definition url_or_empty (req : request) : string := default "" (url req).

(** The callback given to createServer in [start]. *)
Definition dispatch (g : t) (req : request) : outcome :=
  if bool_decide (method req = "GET") && bool_decide (url req = Some "/health")
  then Reply 200 "ok"
  else if negb (bool_decide (method req = "POST"))
  then Reply 405 "Method not allowed"
  else match routes g !! url_or_empty req with
       | None => Reply 404 "Not found"
       | Some handler =>
           if bool_decide (url_or_empty req ∈ readyRoutes g)
           then Invoke handler
           else Reply 503 "Adapter not ready"
       end.

End WithHandlers.
Global Arguments t : clear implicits.
Global Arguments outcome : clear implicits.
End Gateway.

(** ** tools/send-message.ts: the cross-channel router and its tool *)

Module SendMessage.

(** [\d] of a JavaScript regular expression: the ten ASCII digits. *)
Definition is_digit (c : ascii) : bool :=
  let n := Z.of_nat (nat_of_ascii c) in (48 <=? n) && (n <=? 57).

Fixpoint all_digits (s : string) : bool :=
  match s with
  | EmptyString => true
  | String c rest => is_digit c && all_digits rest
  end.

(** [\d+$]: one digit at least, and nothing but digits up to the end. *)
Definition digits_to_end (s : string) : bool :=
  match s with
  | EmptyString => false
  | String _ _ => all_digits s
  end.

(** [/^-?\d+$/.test(channel)] *)
Definition is_telegram_id (channel : string) : bool :=
  match channel with
  | String "-" rest => digits_to_end rest
  | _ => digits_to_end channel
  end.

(** [/^[CDG]/.test(channel)] *)
Definition is_slack_id (channel : string) : bool :=
  match channel with
  | String c _ => bool_decide (c = "C"%char) || bool_decide (c = "D"%char) || bool_decide (c = "G"%char)
  | EmptyString => false
  end.

(** [channel.startsWith("email-")] *)
Definition is_email_id (channel : string) : bool := String.prefix "email-" channel.

(** A thrown JavaScript value, already rendered by
    [err instanceof Error ? err.message : String(err)]. *)
Definition error := string.

(** The part of PlatformAdapter the tool touches.  [postMessage] resolves
    to a message handle or rejects; [logBotResponse] appends to a file
    and may throw ([Some] is the thrown error). *)
Record PlatformAdapter := {
  name : string;
  postMessage : string → string → option (list (string * string)) → string + error;
  logBotResponse : string → string → string → option error
}.

(** [adapters.find((a) => a.name === n)] *)
Definition find_by_name (n : string) (adapters : list PlatformAdapter) : option PlatformAdapter :=
  List.find (λ a, bool_decide (name a = n)) adapters.

Definition resolveAdapter (channel : string) (adapters : list PlatformAdapter) : option PlatformAdapter :=
  if is_telegram_id channel then find_by_name "telegram" adapters
  else if is_slack_id channel then find_by_name "slack" adapters
  else if is_email_id channel then find_by_name "email" adapters
  else None.

(** How a call of [execute] ends for the agent engine: the promise
    resolves to a text block, or it rejects. *)
Inductive tool_result :=
| Returned (text : string)
| Thrown (message : string).

Definition dq : string := String (ascii_of_nat 34) EmptyString.

Section Execute.

(** [basename] of node's path module. *)
Variable basename : string → string.

(** Decimal rendering of a length inside a template literal. *)
Definition show_nat (n : nat) : string := pretty (N.of_nat n).

Definition attInfo (attachmentObjects : option (list (string * string))) : string :=
  match attachmentObjects with
  | Some ((_ :: _) as l) => " with " +:+ show_nat (length l) +:+ " attachment(s)"
  | _ => EmptyString
  end.

(** The [execute] closure of the tool; [aborted] is [signal?.aborted]. *)
Definition execute (adapters : list PlatformAdapter) (aborted : bool)
    (channel text : string) (attachments : option (list string)) : tool_result :=
  if aborted then Thrown "Operation aborted"
  else match resolveAdapter channel adapters with
  | None =>
      Returned ("No adapter found for channel " +:+ dq +:+ channel +:+ dq +:+
                ". Available patterns: numeric (Telegram), C/D/G prefix (Slack), email-{address} (Email).")
  | Some adapter =>
      let attachmentObjects := fmap (M := option) (List.map (λ filePath, (filePath, basename filePath))) attachments in
      match postMessage adapter channel text attachmentObjects with
      | inr errMsg => Returned ("Failed to send: " +:+ errMsg)
      | inl ts =>
          match logBotResponse adapter channel text ts with
          | Some errMsg => Returned ("Failed to send: " +:+ errMsg)
          | None =>
              Returned ("Message sent to " +:+ name adapter +:+ " channel " +:+ channel +:+
                        attInfo attachmentObjects +:+ " (ts=" +:+ ts +:+ ")")
          end
      end
  end.

End Execute.
End SendMessage.

(** ** The webhook adapters' dispatch boundaries *)

(** What both webhook adapters read of an HTTP request once its body has
    been collected, and what they do in reply.  [Forward] is the one call
    through which a request can reach event handling: [dispatchEvent] in
    the Slack adapter, [bot.processUpdate] in the Telegram adapters. *)
Module Http.

Record request := mkRequest {
  method : string;
  url : string;
  headers : gmap string string;
  body : string
}.

Inductive effect {Payload : Type} :=
| WriteHead (status : Z)
| End_ (text : string)
| Forward (payload : Payload).
Global Arguments effect : clear implicits.

Definition forwards {Payload : Type} (e : effect Payload) : bool :=
  match e with Forward _ => true | _ => false end.

Definition statuses {Payload : Type} (es : list (effect Payload)) : list Z :=
  omap (λ e, match e with WriteHead st => Some st | _ => None end) es.

(** A request is turned away with [status]: the reply is the status line
    and a body, and nothing is forwarded. *)
Definition turned_away {Payload : Type} (status : Z) (es : list (effect Payload)) : Prop :=
  ∃ text, es = [WriteHead status; End_ text].

End Http.

(** *** adapters/slack-webhook.ts *)

Module SlackWebhook.
Section Dispatch.

Context {SlackEventPayload : Type}.

(** Library functions of the platform: [JSON.parse] ([None] when it
    throws), [parseInt(_, 10)] ([None] for NaN) and the hexadecimal
    HMAC-SHA256 digest of node's crypto module (key, then message). *)
Variable JSON_parse : string → option SlackEventPayload.
Variable parseInt : string → option Z.
Variable hmac_sha256_hex : string → string → string.

Variable signingSecret : string.

(** [timingSafeEqual] throws on buffers of different lengths, which the
    [catch] turns into [false]; on equal lengths it compares the bytes. *)
Definition verifySignature (timestamp body expectedSignature : string) : bool :=
  let sigBasestring := "v0:" +:+ timestamp +:+ ":" +:+ body in
  let computed := "v0=" +:+ hmac_sha256_hex signingSecret sigBasestring in
  bool_decide (computed = expectedSignature).

(** [Math.abs(now - parseInt(timestamp, 10)) > 300]; a comparison with
    NaN is false. *)
Definition too_old (now : Z) (timestamp : string) : bool :=
  match parseInt timestamp with
  | Some t => 300 <? Z.abs (now - t)
  | None => false
  end.

(** The body of the [end] listener of [dispatch]; [now] is
    [Math.floor(Date.now() / 1000)]. *)
Definition dispatch (now : Z) (req : Http.request) : list (Http.effect SlackEventPayload) :=
  let timestamp := Http.headers req !! "x-slack-request-timestamp" in
  let signature := Http.headers req !! "x-slack-signature" in
  if Js.falsy timestamp || Js.falsy signature
  then [Http.WriteHead 401; Http.End_ "Missing signature headers"]
  else
    let timestamp := default EmptyString timestamp in
    let signature := default EmptyString signature in
    if too_old now timestamp
    then [Http.WriteHead 401; Http.End_ "Request too old"]
    else if negb (verifySignature timestamp (Http.body req) signature)
    then [Http.WriteHead 401; Http.End_ "Invalid signature"]
    else match JSON_parse (Http.body req) with
         | None => [Http.WriteHead 400; Http.End_ "Invalid JSON"]
         | Some payload => [Http.Forward payload]
         end.

End Dispatch.
End SlackWebhook.

(** *** adapters/telegram-webhook.ts *)

Module TelegramWebhook.
Section Dispatch.

Context {Update : Type}.
Variable JSON_parse : string → option Update.
Variable webhookSecret : string.

(** The [end] listener shared by [handleRequest] (the adapter's own
    server) and [dispatch] (behind the gateway). *)
Definition dispatch (req : Http.request) : list (Http.effect Update) :=
  let secretToken := Http.headers req !! "x-telegram-bot-api-secret-token" in
  if Js.falsy secretToken || negb (bool_decide (secretToken = Some webhookSecret))
  then [Http.WriteHead 401; Http.End_ "Invalid secret token"]
  else match JSON_parse (Http.body req) with
       | None => [Http.WriteHead 400; Http.End_ "Invalid JSON"]
       | Some update => [Http.WriteHead 200; Http.End_ EmptyString; Http.Forward update]
       end.

Definition handleRequest (req : Http.request) : list (Http.effect Update) :=
  if negb (bool_decide (Http.method req = "POST")) || negb (bool_decide (Http.url req = "/telegram/webhook"))
  then [Http.WriteHead 404; Http.End_ "Not found"]
  else dispatch req.

End Dispatch.
End TelegramWebhook.

(** ** main.ts: per-channel state and the handler shared by all adapters *)

Module Main.

(** ChannelState without its two collaborators: the runner appears only
    through [runner.abort()] and [runner.run], the store is passed along
    untouched. *)
Record ChannelState := mkState {
  running : bool;
  stopRequested : bool;
  stopMessageTs : option string
}.

Definition set_running (b : bool) (st : ChannelState) : ChannelState :=
  {| running := b; stopRequested := stopRequested st; stopMessageTs := stopMessageTs st |}.
Definition set_stopRequested (b : bool) (st : ChannelState) : ChannelState :=
  {| running := running st; stopRequested := b; stopMessageTs := stopMessageTs st |}.
Definition set_stopMessageTs (ts : option string) (st : ChannelState) : ChannelState :=
  {| running := running st; stopRequested := stopRequested st; stopMessageTs := ts |}.

(** Calls the handler makes on its collaborators. *)
Inductive effect :=
| RunnerAbort (channel : string)
| PostMessage (channel text : string)
| UpdateMessage (channel ts text : string).

(** Where an invocation of [handleEvent] is suspended.  Between the start
    of the run and the test of [result.stopReason] the function awaits
    [ctx.setTyping], [ctx.setWorking(true)], [runner.run] and
    [ctx.setWorking(false)] and touches no channel state, so these four
    awaits are one suspension point, settled by the stop reason or by the
    first rejection. *)
Inductive pc :=
| AwaitAgent
| AwaitStoppedEdit
| AwaitStoppedPost.

(** The module-level [channelStates] map, the invocations of
    [handleEvent] in flight on each channel, the invocations of
    [handleStop] suspended at [postMessage(channelId, "_Stopping..._")],
    and the calls made so far.  A state object is created once by
    [getState] and never replaced, so the reference an invocation holds is
    the map's entry. *)
Record t := mk {
  channelStates : gmap string ChannelState;
  runs : gmap string (list pc);
  stops : gmap string nat;
  effects : list effect
}.

Definition init : t :=
  {| channelStates := ∅; runs := ∅; stops := ∅; effects := [] |}.

Definition fresh_state : ChannelState :=
  {| running := false; stopRequested := false; stopMessageTs := None |}.

Definition getState (channelId : string) (m : gmap string ChannelState) : gmap string ChannelState :=
  match m !! channelId with
  | Some _ => m
  | None => <[channelId := fresh_state]> m
  end.

(** [state?.running ?? false] *)
Definition isRunning (channelId : string) (s : t) : bool :=
  match channelStates s !! channelId with
  | Some st => running st
  | None => false
  end.

Definition runs_of (channelId : string) (s : t) : list pc :=
  default [] (runs s !! channelId).

Definition stops_of (channelId : string) (s : t) : nat :=
  default 0%nat (stops s !! channelId).

(** [handleEvent] up to its first await: the run starts. *)
Definition handleEvent (channel : string) (s : t) : t :=
  {| channelStates :=
       alter (λ st, set_stopRequested false (set_running true st)) channel
             (getState channel (channelStates s));
     runs := <[channel := runs_of channel s ++ [AwaitAgent]]> (runs s);
     stops := stops s;
     effects := effects s |}.

(** The [finally] block, which ends invocation [i] on [channel]. *)
Definition finally (channel : string) (i : nat) (s : t) : t :=
  {| channelStates := alter (set_running false) channel (channelStates s);
     runs := <[channel := delete i (runs_of channel s)]> (runs s);
     stops := stops s;
     effects := effects s |}.

Definition suspend (channel : string) (i : nat) (at_ : pc) (e : effect) (s : t) : t :=
  {| channelStates := channelStates s;
     runs := <[channel := <[i := at_]> (runs_of channel s)]> (runs s);
     stops := stops s;
     effects := effects s ++ [e] |}.

(** JavaScript truthiness of [state.stopMessageTs]. *)
Definition recorded_handle (st : ChannelState) : option string :=
  Js.truthy (stopMessageTs st).

(** Invocation [i] of [handleEvent] on [channel] resumes with [r]. *)
Definition resume_handleEvent (channel : string) (i : nat) (r : Js.settled string) (s : t) : option t :=
  match runs_of channel s !! i with
  | None => None
  | Some AwaitAgent =>
      match r with
      | Js.Threw _ => Some (finally channel i s)
      | Js.Fulfilled stopReason =>
          st ← channelStates s !! channel;
          if bool_decide (stopReason = "aborted") && stopRequested st
          then match recorded_handle st with
               | Some ts => Some (suspend channel i AwaitStoppedEdit
                                    (UpdateMessage channel ts "_Stopped_") s)
               | None => Some (suspend channel i AwaitStoppedPost
                                 (PostMessage channel "_Stopped_") s)
               end
          else Some (finally channel i s)
      end
  | Some AwaitStoppedEdit =>
      match r with
      | Js.Fulfilled _ =>
          Some (finally channel i
                  {| channelStates := alter (set_stopMessageTs None) channel (channelStates s);
                     runs := runs s; stops := stops s; effects := effects s |})
      | Js.Threw _ => Some (finally channel i s)
      end
  | Some AwaitStoppedPost => Some (finally channel i s)
  end.

(** [handleStop] up to its await. *)
Definition handleStop (channelId : string) (s : t) : t :=
  if isRunning channelId s
  then {| channelStates := alter (set_stopRequested true) channelId (channelStates s);
          runs := runs s;
          stops := <[channelId := S (stops_of channelId s)]> (stops s);
          effects := effects s ++ [RunnerAbort channelId; PostMessage channelId "_Stopping..._"] |}
  else {| channelStates := channelStates s;
          runs := runs s;
          stops := stops s;
          effects := effects s ++ [PostMessage channelId "_Nothing running_"] |}.

(** The "_Stopping..._" post of a suspended [handleStop] settles. *)
Definition resume_handleStop (channelId : string) (r : Js.settled string) (s : t) : option t :=
  match stops_of channelId s with
  | O => None
  | S n =>
      Some {| channelStates :=
                match r with
                | Js.Fulfilled ts => alter (set_stopMessageTs (Some ts)) channelId (channelStates s)
                | Js.Threw _ => channelStates s
                end;
              runs := runs s;
              stops := <[channelId := n]> (stops s);
              effects := effects s |}
  end.

(** What can happen to the handler, one step at a time. *)
Inductive action :=
| CallHandleEvent (channel : string)
| CallHandleStop (channel : string)
| ResumeHandleEvent (channel : string) (i : nat) (r : Js.settled string)
| ResumeHandleStop (channel : string) (r : Js.settled string).

Definition step (a : action) (s : t) : option t :=
  match a with
  | CallHandleEvent channel => Some (handleEvent channel s)
  | CallHandleStop channel => Some (handleStop channel s)
  | ResumeHandleEvent channel i r => resume_handleEvent channel i r s
  | ResumeHandleStop channel r => resume_handleStop channel r s
  end.

Fixpoint exec (acts : list action) (s : t) : option t :=
  match acts with
  | [] => Some s
  | a :: rest => s' ← step a s; exec rest s'
  end.

(** The discipline the handler's interface asks of its callers:
    [handleEvent] is called on a channel only while no run of that
    channel is in flight. *)
Fixpoint serialised (acts : list action) (s : t) : bool :=
  match acts with
  | [] => true
  | a :: rest =>
      match a with
      | CallHandleEvent channel => bool_decide (runs_of channel s = [])
      | _ => true
      end &&
      match step a s with
      | Some s' => serialised rest s'
      | None => true
      end
  end.

End Main.

(** ** adapters/telegram-base.ts: the per-channel work queue *)

Module TelegramQueue.

Record MomEvent := mkEvent {
  channel : string;
  ts : string;
  user : string;
  text : string
}.

(** A queued closure [() => this.handler.handleEvent(event, this, isEvent)],
    by what it captures. *)
Record QueuedWork := mkWork {
  event : MomEvent;
  isEvent : bool
}.

Global Instance MomEvent_eq_dec : EqDecision MomEvent.
Proof. solve_decision. Defined.

Global Instance QueuedWork_eq_dec : EqDecision QueuedWork.
Proof. solve_decision. Defined.

(** What the drain loop does that can be seen from outside: it calls a
    work item, the item's promise settles, a rejection is logged. *)
Inductive entry :=
| Started (channelId : string) (work : QueuedWork)
| Finished (channelId : string) (work : QueuedWork)
| QueueError (channelId : string) (work : QueuedWork) (err : string).

(** The [queues] and [processing] maps of the adapter, the work item the
    drain loop of each channel is suspended on at [await work()], and the
    loop's history.  An array stored in [queues] is never replaced, so the
    one [processQueue] holds is the map's entry. *)
Record t := mk {
  queues : gmap string (list QueuedWork);
  processing : gmap string bool;
  awaited : gmap string QueuedWork;
  history : list entry
}.

Definition create : t :=
  {| queues := ∅; processing := ∅; awaited := ∅; history := [] |}.

(** [this.queues.get(channelId) || []] *)
Definition pending (channelId : string) (q : t) : list QueuedWork :=
  default [] (queues q !! channelId).

(** The truth value of [this.processing.get(channelId)]. *)
Definition busy (channelId : string) (q : t) : bool :=
  default false (processing q !! channelId).

(** The [while] loop of [processQueue], from its test to the next
    [await] or to the loop's exit. *)
Definition drain (channelId : string) (q : t) : t :=
  match queues q !! channelId with
  | Some (work :: rest) =>
      {| queues := <[channelId := rest]> (queues q);
         processing := processing q;
         awaited := <[channelId := work]> (awaited q);
         history := history q ++ [Started channelId work] |}
  | _ =>
      {| queues := queues q;
         processing := <[channelId := false]> (processing q);
         awaited := delete channelId (awaited q);
         history := history q |}
  end.

Definition processQueue (channelId : string) (q : t) : t :=
  if busy channelId q then q
  else drain channelId
         {| queues := queues q;
            processing := <[channelId := true]> (processing q);
            awaited := awaited q;
            history := history q |}.

Definition enqueueWork (channelId : string) (work : QueuedWork) (q : t) : t :=
  processQueue channelId
    {| queues := <[channelId := pending channelId q ++ [work]]> (queues q);
       processing := processing q;
       awaited := awaited q;
       history := history q |}.

Definition enqueueEvent (ev : MomEvent) (q : t) : bool * t :=
  let queue := pending (channel ev) q in
  if (5 <=? length queue)%nat then (false, q)
  else (true, enqueueWork (channel ev) {| event := ev; isEvent := true |} q).

(** What the [try]/[catch] around [await work()] leaves in the history. *)
Definition outcome_entries (channelId : string) (work : QueuedWork) (r : Js.settled unit) : list entry :=
  match r with
  | Js.Fulfilled _ => [Finished channelId work]
  | Js.Threw err => [QueueError channelId work err; Finished channelId work]
  end.

Definition record (es : list entry) (q : t) : t :=
  {| queues := queues q; processing := processing q; awaited := awaited q;
     history := history q ++ es |}.

(** The awaited work item of [channelId] settles and the loop goes on:
    the [catch] logs a rejection, nothing more. *)
Definition settle (channelId : string) (r : Js.settled unit) (q : t) : option t :=
  work ← awaited q !! channelId;
  Some (drain channelId (record (outcome_entries channelId work r) q)).

(** Calls into the queue and settlements of awaited work, in the order
    in which the event loop runs them. *)
Inductive action :=
| EnqueueWork (channelId : string) (work : QueuedWork)
| EnqueueEvent (ev : MomEvent)
| Settle (channelId : string) (r : Js.settled unit).

Definition step (a : action) (q : t) : option t :=
  match a with
  | EnqueueWork channelId work => Some (enqueueWork channelId work q)
  | EnqueueEvent ev => Some (snd (enqueueEvent ev q))
  | Settle channelId r => settle channelId r q
  end.

Fixpoint exec (acts : list action) (q : t) : option t :=
  match acts with
  | [] => Some q
  | a :: rest => q' ← step a q; exec rest q'
  end.

(** Results of a run of [enqueueEvent] calls with no settlement between
    them. *)
Fixpoint enqueueEvents (evs : list MomEvent) (q : t) : list bool * t :=
  match evs with
  | [] => ([], q)
  | ev :: rest =>
      let '(ok, q1) := enqueueEvent ev q in
      let '(oks, q2) := enqueueEvents rest q1 in
      (ok :: oks, q2)
  end.

(** Projections of the history on one channel. *)
Definition started_on (channelId : string) (h : list entry) : list QueuedWork :=
  omap (λ e, match e with
             | Started c w => if bool_decide (c = channelId) then Some w else None
             | _ => None
             end) h.

Definition finished_on (channelId : string) (h : list entry) : list QueuedWork :=
  omap (λ e, match e with
             | Finished c w => if bool_decide (c = channelId) then Some w else None
             | _ => None
             end) h.

(** Replaying a history for one channel, from the item in flight (if
    any) to the item in flight after the entry; [None] when the entry
    starts an item while another is in flight, or ends one that is not
    the one in flight. *)
Definition replay_entry (channelId : string) (state : option (option QueuedWork)) (e : entry)
    : option (option QueuedWork) :=
  cur ← state;
  match e with
  | Started c w =>
      if bool_decide (c = channelId)
      then match cur with None => Some (Some w) | Some _ => None end
      else Some cur
  | Finished c w =>
      if bool_decide (c = channelId)
      then match cur with
           | Some w' => if bool_decide (w' = w) then Some None else None
           | None => None
           end
      else Some cur
  | QueueError c w _ =>
      if bool_decide (c = channelId)
      then match cur with
           | Some w' => if bool_decide (w' = w) then Some cur else None
           | None => None
           end
      else Some cur
  end.

Definition in_flight (channelId : string) (h : list entry) : option (option QueuedWork) :=
  fold_left (replay_entry channelId) h (Some None).

(** The work handed to the queue of one channel by a list of actions
    run from [q], in order: every [EnqueueWork], and each [EnqueueEvent]
    that was accepted. *)
Fixpoint submitted_on (channelId : string) (acts : list action) (q : t) : list QueuedWork :=
  match acts with
  | [] => []
  | a :: rest =>
      match a with
      | EnqueueWork c w => if bool_decide (c = channelId) then [w] else []
      | EnqueueEvent ev =>
          if bool_decide (channel ev = channelId) && fst (enqueueEvent ev q)
          then [{| event := ev; isEvent := true |}] else []
      | Settle _ _ => []
      end ++
      match step a q with
      | Some q' => submitted_on channelId rest q'
      | None => []
      end
  end.

(** What one channel sees of the adapter: the items started and
    finished so far agree with the item awaited, the history never has
    two items of the channel in flight, and the loop is marked busy
    exactly while it awaits an item; an idle loop has left nothing in
    the queue. *)
Definition sequential (c : string) (q : t) : Prop :=
  in_flight c (history q) = Some (awaited q !! c) ∧
  started_on c (history q) = finished_on c (history q) ++ option_list (awaited q !! c) ∧
  (busy c q = true ↔ is_Some (awaited q !! c)) ∧
  (awaited q !! c = None → pending c q = []).

End TelegramQueue.

(** ** The Telegram adapter driving the handler *)

(** [handleIncomingMessage] and [enqueueEvent] of the adapter together
    with the handler they call: a work item the drain loop starts is a
    call of [handler.handleEvent], and the loop goes on when that call
    has returned. *)
Module TelegramSystem.
Section System.

(** [text.toLowerCase().trim() === "stop"] *)
Variable is_stop : string → bool.

Record t := mk {
  adapter : TelegramQueue.t;
  handler : Main.t;
  replies : list (string * string)
}.

Definition init : t :=
  {| adapter := TelegramQueue.create; handler := Main.init; replies := [] |}.

(** The calls of [handleEvent] made by the work items in [es]. *)
Definition start_runs (es : list TelegramQueue.entry) (h : Main.t) : Main.t :=
  fold_left (λ h e, match e with
                    | TelegramQueue.Started _ w =>
                        Main.handleEvent (TelegramQueue.channel (TelegramQueue.event w)) h
                    | _ => h
                    end) es h.

(** The adapter has moved from [q] to [q']: the handler sees the work
    items started on the way. *)
Definition follow (q q' : TelegramQueue.t) (h : Main.t) : Main.t :=
  start_runs (drop (length (TelegramQueue.history q)) (TelegramQueue.history q')) h.

(** [handleIncomingMessage], from the stop check on. *)
Definition handleIncomingMessage (ev : TelegramQueue.MomEvent) (s : t) : t :=
  let chatId := TelegramQueue.channel ev in
  if is_stop (TelegramQueue.text ev)
  then if Main.isRunning chatId (handler s)
       then {| adapter := adapter s; handler := Main.handleStop chatId (handler s);
               replies := replies s |}
       else {| adapter := adapter s; handler := handler s;
               replies := replies s ++ [(chatId, "_Nothing running_")] |}
  else if Main.isRunning chatId (handler s)
       then {| adapter := adapter s; handler := handler s;
               replies := replies s ++ [(chatId, "_Already working. Say `stop` to cancel._")] |}
       else let q' := TelegramQueue.enqueueWork chatId
                        {| TelegramQueue.event := ev; TelegramQueue.isEvent := false |} (adapter s) in
            {| adapter := q'; handler := follow (adapter s) q' (handler s); replies := replies s |}.

Definition enqueueEvent (ev : TelegramQueue.MomEvent) (s : t) : t :=
  let q' := snd (TelegramQueue.enqueueEvent ev (adapter s)) in
  {| adapter := q'; handler := follow (adapter s) q' (handler s); replies := replies s |}.

(** The run in flight on [chatId] resumes; when it returns, so does the
    awaited work item, and the drain loop goes on. *)
Definition resume_run (chatId : string) (r : Js.settled string) (s : t) : option t :=
  h1 ← Main.resume_handleEvent chatId 0 r (handler s);
  match Main.runs_of chatId h1 with
  | [] =>
      q' ← TelegramQueue.settle chatId (Js.Fulfilled ()) (adapter s);
      Some {| adapter := q'; handler := follow (adapter s) q' h1; replies := replies s |}
  | _ => Some {| adapter := adapter s; handler := h1; replies := replies s |}
  end.

Definition resume_stop (chatId : string) (r : Js.settled string) (s : t) : option t :=
  h1 ← Main.resume_handleStop chatId r (handler s);
  Some {| adapter := adapter s; handler := h1; replies := replies s |}.

Inductive action :=
| Incoming (ev : TelegramQueue.MomEvent)
| Scheduled (ev : TelegramQueue.MomEvent)
| RunResumes (chatId : string) (r : Js.settled string)
| StopResumes (chatId : string) (r : Js.settled string).

Definition step (a : action) (s : t) : option t :=
  match a with
  | Incoming ev => Some (handleIncomingMessage ev s)
  | Scheduled ev => Some (enqueueEvent ev s)
  | RunResumes chatId r => resume_run chatId r s
  | StopResumes chatId r => resume_stop chatId r s
  end.

Fixpoint exec (acts : list action) (s : t) : option t :=
  match acts with
  | [] => Some s
  | a :: rest => s' ← step a s; exec rest s'
  end.

(** The adapter and the handler agree on one chat: either nothing is
    awaited and no run is in flight, or the awaited item is the one run
    in flight; and every item of the chat's queue is for that chat. *)
Definition in_step (c : string) (s : t) : Prop :=
  TelegramQueue.sequential c (adapter s) ∧
  Forall (λ w, TelegramQueue.channel (TelegramQueue.event w) = c)
         (TelegramQueue.pending c (adapter s)) ∧
  ((TelegramQueue.awaited (adapter s) !! c = None ∧
    Main.runs_of c (handler s) = [] ∧ Main.isRunning c (handler s) = false) ∨
   (∃ w p, TelegramQueue.awaited (adapter s) !! c = Some w ∧
           Main.runs_of c (handler s) = [p] ∧ Main.isRunning c (handler s) = true)).

End System.
End TelegramSystem.

(** ** adapters/telegram-base.ts: the rendering context of one run *)

(** JavaScript strings are embedded as their UTF-8 bytes; the tests and
    replacements below look for ASCII characters and for the prefix
    [_→], which occur in the bytes exactly where they occur in the text. *)
Module TelegramContext.

(** [s.replace(/c/g, by_)] for a single character [c]. *)
Fixpoint replace_all (c : ascii) (by_ : string) (s : string) : string :=
  match s with
  | EmptyString => EmptyString
  | String x rest =>
      if bool_decide (x = c) then by_ +:+ replace_all c by_ rest
      else String x (replace_all c by_ rest)
  end.

Definition escapeHtml (text : string) : string :=
  replace_all ">" "&gt;" (replace_all "<" "&lt;" (replace_all "&" "&amp;" text)).

(** [s.replace(/^_/, "")] *)
Definition strip_leading_underscore (s : string) : string :=
  match s with
  | String "_" rest => rest
  | _ => s
  end.

(** [s.replace(/_$/, "")] *)
Fixpoint strip_trailing_underscore (s : string) : string :=
  match s with
  | EmptyString => EmptyString
  | String c EmptyString => if bool_decide (c = "_"%char) then EmptyString else s
  | String c rest => String c (strip_trailing_underscore rest)
  end.

(** The bytes of [_→] (U+2192). *)
Definition tool_prefix : string :=
  String "_" (String (ascii_of_nat 226) (String (ascii_of_nat 134) (String (ascii_of_nat 146) EmptyString))).

Fixpoint take_until_colon (s : string) : string * string :=
  match s with
  | EmptyString => (EmptyString, EmptyString)
  | String c rest =>
      if bool_decide (c = ":"%char) then (EmptyString, s)
      else let '(name, tail) := take_until_colon rest in (String c name, tail)
  end.

(** [text.match(/^\[EVENT:([^:]+):/)?.[1]] *)
Definition match_event_filename (text : string) : option string :=
  if String.prefix "[EVENT:" text
  then let '(name, tail) := take_until_colon (String.substring 7 (String.length text - 7) text) in
       match name, tail with
       | String _ _, String _ _ => Some name
       | _, _ => None
       end
  else None.

(** The [eventFilename] of [createContext]:
    [isEvent ? event.text.match(/^\[EVENT:([^:]+):/)?.[1] : undefined],
    where a call without [isEvent] counts as false. *)
Definition eventFilename_of (isEvent : bool) (text : string) : option string :=
  if isEvent then match_event_filename text else None.

(** The closure variables of [createContext] that change during a run. *)
Record vars := mkVars {
  messageId : option string;
  finalText : string;
  isWorking : bool;
  recentTools : list string;
  completedToolCount : nat
}.

Definition initial : vars :=
  {| messageId := None; finalText := EmptyString; isWorking := true;
     recentTools := []; completedToolCount := 0 |}.

Definition join_lines (lines : list string) : string :=
  match lines with
  | [] => EmptyString
  | l :: rest => fold_left (λ acc x, acc +:+ Js.newline +:+ x) rest l
  end.

Definition buildStatusDisplay (eventFilename : option string) (v : vars) : string :=
  let lines :=
    (if (0 <? completedToolCount v)%nat
     then ["<i>" +:+ pretty (completedToolCount v) +:+ " tool call" +:+
           (if (1 <? completedToolCount v)%nat then "s" else EmptyString) +:+ " completed</i>"]
     else []) ++ recentTools v in
  match lines with
  | [] => match eventFilename with
          | Some f => if bool_decide (f = EmptyString) then "<i>Thinking</i>"
                      else "<i>Starting event: " +:+ escapeHtml f +:+ "</i>"
          | None => "<i>Thinking</i>"
          end
  | _ => join_lines lines
  end.

(** The entry pushed for a tool label: the label without its leading and
    trailing underscore, escaped, in italics. *)
Definition tool_entry (text : string) : string :=
  let label := strip_trailing_underscore (strip_leading_underscore text) in
  "<i>" +:+ escapeHtml label +:+ "</i>".

(** The tool-label branch of [respond], on the window and the counter. *)
Definition push_tool (text : string) (v : vars) : vars :=
  let shifted := (3 <=? length (recentTools v))%nat in
  {| messageId := messageId v; finalText := finalText v; isWorking := isWorking v;
     recentTools := (if shifted then tail (recentTools v) else recentTools v)
                    ++ [tool_entry text];
     completedToolCount := if shifted then S (completedToolCount v) else completedToolCount v |}.

(** The assignments of [setWorking]. *)
Definition set_working (working : bool) (v : vars) : vars :=
  {| messageId := messageId v; finalText := finalText v; isWorking := working;
     recentTools := if working then recentTools v else [];
     completedToolCount :=
       if working then completedToolCount v
       else (completedToolCount v + length (recentTools v))%nat |}.

Definition set_finalText (text : string) (v : vars) : vars :=
  {| messageId := messageId v; finalText := text; isWorking := isWorking v;
     recentTools := recentTools v; completedToolCount := completedToolCount v |}.

Definition set_messageId (id : option string) (v : vars) : vars :=
  {| messageId := id; finalText := finalText v; isWorking := isWorking v;
     recentTools := recentTools v; completedToolCount := completedToolCount v |}.

(** Calls on the bot and on the log file, as the platform sees them. *)
Inductive op :=
| SendChatAction (chat : string)
| SendMessage (chat text : string)
| EditMessageText (chat id text : string)
| DeleteMessage (chat id : string)
| SendDocument (chat path : string) (title : option string)
| LogBotResponse (chat text id : string).

(** The Telegram client and the adapter's files: each request answers
    from the state of the outside world, which it may change.  The chat of
    a request is written as the channel string; the adapter sends
    [Number(channel)], the same number in every request of one context.
    [readFileSync] is the read of [uploadFile], which throws when the
    file cannot be read; [logBotResponse] is the append to [log.jsonl]
    ([mkdirSync], [appendFileSync]), which can throw as well. *)
Class Bot (B : Type) := {
  sendMessage : string → string → B → Js.settled string * B;
  editMessageText : string → string → string → B → Js.settled unit * B;
  deleteMessage : string → string → B → Js.settled unit * B;
  sendChatAction : string → B → Js.settled unit * B;
  readFileSync : string → B → Js.settled unit;
  logBotResponse : string → string → string → B → Js.settled unit * B
}.

Section Context.

Context {B : Type} `{Bot B}.

(** The event the context was created for: its channel and its
    [eventFilename], which [createContext] computes once, as
    [eventFilename_of isEvent text]. *)
Variable channel : string.
Variable eventFilename : option string.

(** The variables, the client, and the operations performed so far, each
    with the number of the public call that produced it. *)
Record world := mkWorld {
  wvars : vars;
  bot : B;
  trace : list (nat * op)
}.

Definition emit (n : nat) (o : op) (w : world) (b : B) : world :=
  {| wvars := wvars w; bot := b; trace := trace w ++ [(n, o)] |}.

Definition with_vars (v : vars) (w : world) : world :=
  {| wvars := v; bot := bot w; trace := trace w |}.

(** [w'] is [w] after some operations, all produced by call [n]. *)
Definition extends (n : nat) (w w' : world) : Prop :=
  ∃ ops, trace w' = trace w ++ (pair n <$> ops).

(** The window and the counter of [w'] are those of [v]. *)
Definition window_is (v : vars) (w' : world) : Prop :=
  recentTools (wvars w') = recentTools v ∧
  completedToolCount (wvars w') = completedToolCount v.

(** [this.postMessage] *)
Definition postMessage (n : nat) (text : string) (w : world) : Js.settled string * world :=
  let '(r, b) := sendMessage channel text (bot w) in
  (r, emit n (SendMessage channel text) w b).

(** [this.updateMessage]: a rejection that says the message is not
    modified is swallowed. *)
Definition updateMessage (n : nat) (id text : string) (w : world) : Js.settled unit * world :=
  let '(r, b) := editMessageText channel id text (bot w) in
  (match r with
   | Js.Threw err => if Js.includes "message is not modified" err then Js.Fulfilled () else r
   | _ => r
   end, emit n (EditMessageText channel id text) w b).

Definition updateDisplay (n : nat) (w : world) : Js.settled unit * world :=
  let v := wvars w in
  let display :=
    if isWorking v then buildStatusDisplay eventFilename v +:+ " ..."
    else if bool_decide (finalText v = EmptyString) then buildStatusDisplay eventFilename v
    else finalText v in
  match Js.truthy (messageId v) with
  | Some id => updateMessage n id display w
  | None =>
      if bool_decide (display = EmptyString) then (Js.Fulfilled (), w)
      else match postMessage n display w with
           | (Js.Fulfilled id, w') => (Js.Fulfilled (), with_vars (set_messageId (Some id) (wvars w')) w')
           | (Js.Threw err, w') => (Js.Threw err, w')
           end
  end.

(** The callbacks the public calls chain onto [updatePromise]. *)
Inductive job :=
| RespondJob (text : string) (shouldLog : bool)
| ReplaceMessageJob (text : string)
| SetTypingJob
| SetWorkingJob (working : bool)
| DeleteMessageJob.

Definition run_job (n : nat) (j : job) (w : world) : Js.settled unit * world :=
  match j with
  | RespondJob text shouldLog =>
      if negb shouldLog && String.prefix tool_prefix text
      then updateDisplay n (with_vars (push_tool text (wvars w)) w)
      else if negb shouldLog
      then updateDisplay n w
      else
        let v := wvars w in
        let v' := set_finalText (if bool_decide (finalText v = EmptyString) then text
                                 else finalText v +:+ Js.newline +:+ text) v in
        match updateDisplay n (with_vars v' w) with
        | (Js.Fulfilled _, w') =>
            match Js.truthy (messageId (wvars w')) with
            | Some id =>
                let '(r, b) := logBotResponse channel text id (bot w') in
                (r, emit n (LogBotResponse channel text id) w' b)
            | None => (Js.Fulfilled (), w')
            end
        | failed => failed
        end
  | ReplaceMessageJob text =>
      updateDisplay n (with_vars (set_finalText text (wvars w)) w)
  | SetTypingJob =>
      match Js.truthy (messageId (wvars w)) with
      | Some _ => (Js.Fulfilled (), w)
      | None =>
          let '(_, b) := sendChatAction channel (bot w) in
          let w1 := emit n (SendChatAction channel) w b in
          match postMessage n (buildStatusDisplay eventFilename (wvars w1) +:+ " ...") w1 with
          | (Js.Fulfilled id, w2) => (Js.Fulfilled (), with_vars (set_messageId (Some id) (wvars w2)) w2)
          | (Js.Threw err, w2) => (Js.Threw err, w2)
          end
      end
  | SetWorkingJob working =>
      updateDisplay n (with_vars (set_working working (wvars w)) w)
  | DeleteMessageJob =>
      match Js.truthy (messageId (wvars w)) with
      | Some id =>
          let '(_, b) := deleteMessage channel id (bot w) in
          (Js.Fulfilled (),
           with_vars (set_messageId None (wvars w)) (emit n (DeleteMessage channel id) w b))
      | None => (Js.Fulfilled (), w)
      end
  end.

(** The public calls of the context. *)
Inductive call :=
| Respond (text : string) (shouldLog : bool)
| ReplaceMessage (text : string)
| RespondInThread (text : string)
| SetTyping (isTyping : bool)
| UploadFile (filePath : string) (title : option string)
| SetWorking (working : bool)
| DeleteMessageCall.

(** One context: its world, the callbacks chained onto [updatePromise]
    that have not run yet (oldest first, each with the number of the call
    that chained it), whether the chain carries a rejection, and the
    number of public calls made. *)
Record t := mk {
  now : world;
  chain : list (nat * job);
  rejected : bool;
  calls : nat
}.

Definition createContext (b : B) : t :=
  {| now := {| wvars := initial; bot := b; trace := [] |};
     chain := []; rejected := false; calls := 0 |}.

Definition then_ (j : job) (p : t) : t :=
  {| now := now p; chain := chain p ++ [(calls p, j)]; rejected := rejected p;
     calls := S (calls p) |}.

Definition skip (p : t) : t :=
  {| now := now p; chain := chain p; rejected := rejected p; calls := S (calls p) |}.

(** The synchronous part of a public call. *)
Definition invoke (c : call) (p : t) : t :=
  match c with
  | Respond text shouldLog => then_ (RespondJob text shouldLog) p
  | ReplaceMessage text => then_ (ReplaceMessageJob text) p
  | RespondInThread _ => skip p
  | SetTyping isTyping =>
      if isTyping && Js.falsy (messageId (wvars (now p)))
      then then_ SetTypingJob p else skip p
  | UploadFile filePath title =>
      {| now := match readFileSync filePath (bot (now p)) with
                | Js.Fulfilled _ =>
                    emit (calls p) (SendDocument channel filePath title) (now p) (bot (now p))
                | Js.Threw _ => now p
                end;
         chain := chain p; rejected := rejected p; calls := S (calls p) |}
  | SetWorking working => then_ (SetWorkingJob working) p
  | DeleteMessageCall => then_ DeleteMessageJob p
  end.

(** The oldest chained callback has its turn: it runs to its end, or is
    passed over when the promise it was chained onto is rejected. *)
Definition turn (p : t) : option t :=
  match chain p with
  | [] => None
  | (n, j) :: rest =>
      if rejected p
      then Some {| now := now p; chain := rest; rejected := true; calls := calls p |}
      else let '(r, w) := run_job n j (now p) in
           Some {| now := w; chain := rest;
                   rejected := match r with Js.Threw _ => true | _ => false end;
                   calls := calls p |}
  end.

Inductive action :=
| Call (c : call)
| Turn.

Definition step (a : action) (p : t) : option t :=
  match a with
  | Call c => Some (invoke c p)
  | Turn => turn p
  end.

Fixpoint exec (acts : list action) (p : t) : option t :=
  match acts with
  | [] => Some p
  | a :: rest => p' ← step a p; exec rest p'
  end.

(** The calls whose effect goes through [updatePromise]. *)
Definition chained (c : call) : bool :=
  match c with
  | UploadFile _ _ => false
  | _ => true
  end.

Definition chained_action (a : action) : bool :=
  match a with
  | Call c => chained c
  | Turn => true
  end.

End Context.
End TelegramContext.

(** ** gateway.ts as its callers use it *)

Module GatewayCalls.
Section WithHandlers.

Context {RouteHandler : Type}.

(** The two methods that change a gateway. *)
Inductive call :=
| Register (path : string) (handler : RouteHandler)
| MarkReady (path : string).

Definition apply (g : Gateway.t RouteHandler) (c : call) : Gateway.t RouteHandler :=
  match c with
  | Register path handler => Gateway.register path handler g
  | MarkReady path => Gateway.markReady path g
  end.

Definition run (cs : list call) : Gateway.t RouteHandler :=
  fold_left apply cs Gateway.create.

Definition registers (path : string) (c : call) : bool :=
  match c with
  | Register p _ => bool_decide (p = path)
  | MarkReady _ => false
  end.

Definition post (path : string) : Gateway.request :=
  {| Gateway.method := "POST"; Gateway.url := Some path |}.

End WithHandlers.
Global Arguments call : clear implicits.
End GatewayCalls.

(** ** main.ts: which adapters are created *)

Module Args.

(** The variables of [process.env] that [parseArgs] and [createAdapter]
    read. *)
Record env := mkEnv {
  MOM_SLACK_APP_TOKEN : option string;
  MOM_SLACK_BOT_TOKEN : option string;
  MOM_SLACK_SIGNING_SECRET : option string;
  MOM_TELEGRAM_BOT_TOKEN : option string;
  MOM_TELEGRAM_WEBHOOK_URL : option string;
  MOM_TELEGRAM_WEBHOOK_SECRET : option string;
  MOM_SKIP_WEBHOOK_REGISTRATION : option string
}.

(** JavaScript truthiness of an environment variable. *)
Definition set (v : option string) : bool := negb (Js.falsy v).

(** The [else] branch of [parseArgs]: no [--adapter] was given. *)
Definition detect_adapters (e : env) : list string :=
  let adapters := [] in
  let adapters :=
    if set (MOM_SLACK_APP_TOKEN e) && set (MOM_SLACK_BOT_TOKEN e)
    then adapters ++ ["slack"] else adapters in
  let adapters :=
    if set (MOM_SLACK_SIGNING_SECRET e) && set (MOM_SLACK_BOT_TOKEN e)
    then if bool_decide ("slack" ∈ adapters) then adapters else adapters ++ ["slack:webhook"]
    else adapters in
  let adapters :=
    if set (MOM_TELEGRAM_BOT_TOKEN e) then adapters ++ ["telegram"] else adapters in
  if bool_decide (length adapters = 0%nat) then adapters ++ ["slack"] else adapters.

(** How [createAdapter] ends: with an adapter of one of the four
    classes, or with [process.exit(1)] after an error message. *)
Inductive created :=
| SlackSocketAdapter
| SlackWebhookAdapter
| TelegramPollingAdapter
| TelegramWebhookAdapter
| Exit (message : string).

Definition createAdapter (e : env) (name : string) : created :=
  if bool_decide (name = "slack") || bool_decide (name = "slack:socket")
  then if Js.falsy (MOM_SLACK_APP_TOKEN e) || Js.falsy (MOM_SLACK_BOT_TOKEN e)
       then Exit "Missing env: MOM_SLACK_APP_TOKEN, MOM_SLACK_BOT_TOKEN"
       else SlackSocketAdapter
  else if bool_decide (name = "slack:webhook")
  then if Js.falsy (MOM_SLACK_BOT_TOKEN e) || Js.falsy (MOM_SLACK_SIGNING_SECRET e)
       then Exit "Missing env: MOM_SLACK_BOT_TOKEN, MOM_SLACK_SIGNING_SECRET"
       else SlackWebhookAdapter
  else if bool_decide (name = "telegram") || bool_decide (name = "telegram:polling")
  then if Js.falsy (MOM_TELEGRAM_BOT_TOKEN e)
       then Exit "Missing env: MOM_TELEGRAM_BOT_TOKEN"
       else TelegramPollingAdapter
  else if bool_decide (name = "telegram:webhook")
  then if Js.falsy (MOM_TELEGRAM_BOT_TOKEN e) || Js.falsy (MOM_TELEGRAM_WEBHOOK_SECRET e)
       then Exit "Missing env: MOM_TELEGRAM_BOT_TOKEN, MOM_TELEGRAM_WEBHOOK_SECRET"
       else if Js.falsy (MOM_SKIP_WEBHOOK_REGISTRATION e) && Js.falsy (MOM_TELEGRAM_WEBHOOK_URL e)
       then Exit "Missing env: MOM_TELEGRAM_WEBHOOK_URL (required unless MOM_SKIP_WEBHOOK_REGISTRATION=true)"
       else TelegramWebhookAdapter
  else Exit ("Unknown adapter: " +:+ name +:+
             ". Use 'slack', 'slack:socket', 'slack:webhook', 'telegram', 'telegram:polling', or 'telegram:webhook'.").

Definition exits (c : created) : bool :=
  match c with Exit _ => true | _ => false end.

Global Instance created_eq_dec : EqDecision created.
Proof. solve_decision. Defined.

End Args.

(** ** main.ts with the gateway: the start-up loop *)

(** The [main.ts] that starts a gateway registers the webhook adapters
    with it in a loop over the adapters created. *)
Module Startup.

(** The adapter names [createAdapter] accepts in that file; with any
    other name the process has ended before the loop. *)
Inductive adapter_name :=
| slack | slack_socket | slack_webhook
| telegram | telegram_polling | telegram_webhook
| email_webhook | web.

Global Instance adapter_name_eq_dec : EqDecision adapter_name.
Proof. solve_decision. Defined.

Definition DISPATCH_PATHS (n : adapter_name) : option string :=
  match n with
  | slack_webhook => Some "/slack/events"
  | telegram_webhook => Some "/telegram/webhook"
  | email_webhook => Some "/email/inbound"
  | web => Some "/web/chat"
  | _ => None
  end.

Section Loop.

Context {RouteHandler : Type}.

(** An adapter as the start-up loop sees it: the name it was created
    under, its [dispatch] method if it has one, and how [start()]
    settles. *)
Record adapter := mkAdapter {
  adapterName : adapter_name;
  dispatch : option RouteHandler;
  start : Js.settled unit
}.

(** One round of the loop. *)
Definition boot_one (g : Gateway.t RouteHandler) (a : adapter) : Gateway.t RouteHandler :=
  let path := DISPATCH_PATHS (adapterName a) in
  let g :=
    match path, dispatch a with
    | Some p, Some handler => Gateway.register p handler g
    | _, _ => g
    end in
  match start a with
  | Js.Fulfilled _ =>
      match path with
      | Some p => Gateway.markReady p g
      | None => g
      end
  | Js.Threw _ => g
  end.

Definition boot (adapters : list adapter) : Gateway.t RouteHandler :=
  fold_left boot_one adapters Gateway.create.

End Loop.
Global Arguments adapter : clear implicits.

End Startup.

(** ** adapters/heartbeat.ts *)

Module UserInfo.
Record t := mk { id : string; userName : string; displayName : string }.
End UserInfo.

Module ChannelInfo.
Record t := mk { id : string; name : string }.
End ChannelInfo.

Module Heartbeat.

Definition HEARTBEAT_CHANNEL : string := "_heartbeat".

(** The adapter type [getRecentActivitySummary] shows next to a
    channel. *)
Definition adapter_label (channelId : string) : string :=
  if SendMessage.is_telegram_id channelId then "telegram"
  else if SendMessage.is_slack_id channelId then "slack"
  else if String.prefix "email-" channelId then "email"
  else if String.prefix "web-" channelId then "web"
  else "unknown".

(** [enqueueEvent]: the call of [handleEvent] is made at once and is not
    awaited. *)
Definition enqueueEvent (ev : TelegramQueue.MomEvent) (h : Main.t) : bool * Main.t :=
  if bool_decide (TelegramQueue.channel ev = HEARTBEAT_CHANNEL)
  then (true, Main.handleEvent (TelegramQueue.channel ev) h)
  else (false, h).

Fixpoint enqueueEvents (evs : list TelegramQueue.MomEvent) (h : Main.t) : list bool * Main.t :=
  match evs with
  | [] => ([], h)
  | ev :: rest =>
      let '(ok, h1) := enqueueEvent ev h in
      let '(oks, h2) := enqueueEvents rest h1 in
      (ok :: oks, h2)
  end.

(** What the heartbeat adapter uses of another adapter's metadata. *)
Record metadata := mkMetadata {
  getUser : string → option UserInfo.t;
  getChannel : string → option ChannelInfo.t;
  getAllUsers : list UserInfo.t;
  getAllChannels : list ChannelInfo.t
}.

Section Aggregate.

Context {A : Type}.

(** The loop of [getUser] and [getChannel]: the first adapter that
    knows the key answers. *)
Fixpoint first_known (lookups : list (string → option A)) (key : string) : option A :=
  match lookups with
  | [] => None
  | lookup :: rest =>
      match lookup key with
      | Some x => Some x
      | None => first_known rest key
      end
  end.

Variable id : A → string.

(** The body of the inner loop of [getAllUsers] and [getAllChannels],
    on the [seen] set and the result array. *)
Definition visit (acc : gset string * list A) (x : A) : gset string * list A :=
  if bool_decide (id x ∈ acc.1) then acc else ({[id x]} ∪ acc.1, acc.2 ++ [x]).

Definition collect (listings : list (list A)) : list A :=
  (fold_left (λ acc listing, fold_left visit listing acc) listings (∅, [])).2.

(** What the two loops keep true of the [seen] set and the result
    array, with respect to the entries [read] so far: the set holds the
    ids of the result, no id is there twice, and looking an id up in the
    result gives what looking it up in the entries read gives. *)
Definition collected (read : list A) (seen : gset string) (out : list A) : Prop :=
  (∀ k, k ∈ seen ↔ k ∈ id <$> out) ∧
  NoDup (id <$> out) ∧
  (∀ k, List.find (λ x, bool_decide (id x = k)) out =
        List.find (λ x, bool_decide (id x = k)) read) ∧
  (∀ x, x ∈ out → x ∈ read).

End Aggregate.

Definition heartbeat_getUser (otherAdapters : list metadata) (userId : string) : option UserInfo.t :=
  first_known (getUser <$> otherAdapters) userId.

Definition heartbeat_getChannel (otherAdapters : list metadata) (channelId : string)
    : option ChannelInfo.t :=
  first_known (getChannel <$> otherAdapters) channelId.

Definition heartbeat_getAllUsers (otherAdapters : list metadata) : list UserInfo.t :=
  collect UserInfo.id (getAllUsers <$> otherAdapters).

Definition heartbeat_getAllChannels (otherAdapters : list metadata) : list ChannelInfo.t :=
  collect ChannelInfo.id (getAllChannels <$> otherAdapters).

(** The metadata of an adapter that keeps its users and channels in
    maps keyed by id, as [TelegramBase] does. *)
Definition keyed (users : list UserInfo.t) (channels : list ChannelInfo.t) : metadata :=
  {| getUser := λ userId, List.find (λ u, bool_decide (UserInfo.id u = userId)) users;
     getChannel := λ channelId, List.find (λ c, bool_decide (ChannelInfo.id c = channelId)) channels;
     getAllUsers := users;
     getAllChannels := channels |}.

End Heartbeat.

(** ** adapters/email-webhook.ts *)

Module EmailWebhook.

(** A JavaScript string as its UTF-16 code units: the replacement below
    works unit by unit. *)
Definition utf16 := list N.

(** The character [/[^a-z0-9]/g] leaves in place, or the underscore. *)
Definition sanitize_unit (u : N) : ascii :=
  if ((97 <=? u) && (u <=? 122) || (48 <=? u) && (u <=? 57))%N
  then ascii_of_N u else "_"%char.

(** [s.replace(/[^a-z0-9]/g, "_")] *)
Definition sanitize (s : utf16) : string :=
  string_of_list_ascii (sanitize_unit <$> s).

Section ChannelId.

(** [String.prototype.toLowerCase] *)
Variable toLowerCase : utf16 → utf16.

(** The channel id [processEmail] derives from the sender. *)
Definition channelId (from : utf16) : string :=
  "email-" +:+ sanitize (toLowerCase from).

End ChannelId.

(** [replySubject] of [sendEmailReply]. *)
Definition replySubject (subject : string) : string :=
  if String.prefix "Re:" subject then subject else "Re: " +:+ subject.

(** The threading headers [sendEmailReply] adds: [in_reply_to] and
    [references]. *)
Definition threading (messageId references : option string) : option (string * string) :=
  match Js.truthy messageId with
  | Some mid =>
      Some (mid, match Js.truthy references with
                 | Some refs => refs +:+ " " +:+ mid
                 | None => mid
                 end)
  | None => None
  end.

End EmailWebhook.

(** ** adapters/web.ts: the writer of server-sent events *)

Module SSEWriter.

(** The writer's [closed] flag and what has reached the response:
    the chunks written and whether [end()] was called. *)
Record t := mk {
  closed : bool;
  written : list string;
  ended : bool
}.

Definition create : t := {| closed := false; written := []; ended := false |}.

Definition DONE : string := "data: [DONE]" +:+ Js.newline +:+ Js.newline.

(** [send(event)]; [json] is [JSON.stringify(event)] and [ok] tells
    whether [res.write] returns rather than throws. *)
Definition send (json : string) (ok : bool) (w : t) : t :=
  if closed w then w
  else if ok
  then {| closed := false;
          written := written w ++ ["data: " +:+ json +:+ Js.newline +:+ Js.newline];
          ended := ended w |}
  else {| closed := true; written := written w; ended := ended w |}.

(** [done()]; [write_ok] and [end_ok] tell whether [res.write] of the
    end marker and [res.end()] return rather than throw ([end()] is not
    reached when the write throws). *)
Definition done (write_ok end_ok : bool) (w : t) : t :=
  if closed w then w
  else if write_ok
  then {| closed := true; written := written w ++ [DONE];
          ended := if end_ok then true else ended w |}
  else {| closed := true; written := written w; ended := ended w |}.

Inductive call :=
| Send (json : string) (ok : bool)
| Done (write_ok end_ok : bool).

Definition step (w : t) (c : call) : t :=
  match c with
  | Send json ok => send json ok w
  | Done write_ok end_ok => done write_ok end_ok w
  end.

Definition run (cs : list call) (w : t) : t := fold_left step cs w.

End SSEWriter.

(** ** Observations on the models above *)

(** What the properties of Part II read off a state or a trace. *)

Module Observe.

(** The channel an action of the handler is about, and the channel of a
    call the handler makes. *)
Definition handler_channel (a : Main.action) : string :=
  match a with
  | Main.CallHandleEvent c => c
  | Main.CallHandleStop c => c
  | Main.ResumeHandleEvent c _ _ => c
  | Main.ResumeHandleStop c _ => c
  end.

Definition effect_channel (e : Main.effect) : string :=
  match e with
  | Main.RunnerAbort c => c
  | Main.PostMessage c _ => c
  | Main.UpdateMessage c _ _ => c
  end.

Definition effects_on (c : string) (es : list Main.effect) : list Main.effect :=
  filter (λ e, effect_channel e = c) es.

(** The two calls by which [handleEvent] announces that a run was
    stopped. *)
Definition announces_stopped (c : string) (e : Main.effect) : bool :=
  match e with
  | Main.PostMessage c' text => bool_decide (c' = c) && bool_decide (text = "_Stopped_")
  | Main.UpdateMessage c' _ text => bool_decide (c' = c) && bool_decide (text = "_Stopped_")
  | Main.RunnerAbort _ => false
  end.

(** The channel an action of the work queue is about. *)
Definition queue_channel (a : TelegramQueue.action) : string :=
  match a with
  | TelegramQueue.EnqueueWork c _ => c
  | TelegramQueue.EnqueueEvent ev => TelegramQueue.channel ev
  | TelegramQueue.Settle c _ => c
  end.

(** Operations of the rendering context, by kind. *)
Definition is_send (o : TelegramContext.op) : bool :=
  match o with TelegramContext.SendMessage _ _ => true | _ => false end.

Definition is_delete (o : TelegramContext.op) : bool :=
  match o with TelegramContext.DeleteMessage _ _ => true | _ => false end.

Definition is_upload (o : TelegramContext.op) : bool :=
  match o with TelegramContext.SendDocument _ _ _ => true | _ => false end.

Definition count (f : TelegramContext.op → bool) (tr : list (nat * TelegramContext.op)) : nat :=
  length (filter (λ x, f (snd x) = true) tr).

(** The tool labels among the calls and among the chained callbacks:
    [respond(text, false)] with a text that starts with the label
    prefix. *)
Definition is_label_job (j : TelegramContext.job) : bool :=
  match j with
  | TelegramContext.RespondJob text shouldLog =>
      negb shouldLog && String.prefix TelegramContext.tool_prefix text
  | _ => false
  end.

Definition is_label_action (a : TelegramContext.action) : bool :=
  match a with
  | TelegramContext.Call (TelegramContext.Respond text shouldLog) =>
      negb shouldLog && String.prefix TelegramContext.tool_prefix text
  | _ => false
  end.

(** The tool calls the status display accounts for: those counted as
    completed and those still shown in the window. *)
Definition tally (v : TelegramContext.vars) : nat :=
  (TelegramContext.completedToolCount v + length (TelegramContext.recentTools v))%nat.

(** The characters of a string. *)
Definition chars (s : string) : list ascii := list_ascii_of_string s.

End Observe.

(** ** What one conversation sees of the handler and of the queue *)

Module Local.

(** Two states of the handler agree on conversation [c]: same channel
    state, same invocations in flight, same suspended stop requests, and
    the same calls made for [c]. *)
Definition same_handler (c : string) (s1 s2 : Main.t) : Prop :=
  Main.channelStates s1 !! c = Main.channelStates s2 !! c ∧
  Main.runs s1 !! c = Main.runs s2 !! c ∧
  Main.stops s1 !! c = Main.stops s2 !! c ∧
  Observe.effects_on c (Main.effects s1) = Observe.effects_on c (Main.effects s2).

(** The entries of a queue history that concern conversation [c]. *)
Definition entry_channel (e : TelegramQueue.entry) : string :=
  match e with
  | TelegramQueue.Started c _ => c
  | TelegramQueue.Finished c _ => c
  | TelegramQueue.QueueError c _ _ => c
  end.

Definition history_on (c : string) (h : list TelegramQueue.entry) : list TelegramQueue.entry :=
  filter (λ e, entry_channel e = c) h.

(** Two states of the Telegram adapter agree on conversation [c]. *)
Definition same_queue (c : string) (q1 q2 : TelegramQueue.t) : Prop :=
  TelegramQueue.queues q1 !! c = TelegramQueue.queues q2 !! c ∧
  TelegramQueue.processing q1 !! c = TelegramQueue.processing q2 !! c ∧
  TelegramQueue.awaited q1 !! c = TelegramQueue.awaited q2 !! c ∧
  history_on c (TelegramQueue.history q1) = history_on c (TelegramQueue.history q2).

End Local.

(** ** What the user sees of the Telegram context *)

Module Display.

(** Operation [o] puts [text] on display in [chat]: it posts a message
    with that text or writes it into an existing one. *)
Definition shows (chat text : string) (o : TelegramContext.op) : Prop :=
  o = TelegramContext.SendMessage chat text ∨
  ∃ id, o = TelegramContext.EditMessageText chat id text.

End Display.

(** ** Sample data *)

(** Three adapters; the Telegram one rejects every post. *)
Definition demo_adapters : list SendMessage.PlatformAdapter :=
  [ {| SendMessage.name := "slack";
       SendMessage.postMessage := λ _ _ _, inl "1700000000.000100";
       SendMessage.logBotResponse := λ _ _ _, None |};
    {| SendMessage.name := "telegram";
       SendMessage.postMessage := λ _ _ _, inr "ETELEGRAM: 403 Forbidden";
       SendMessage.logBotResponse := λ _ _ _, None |};
    {| SendMessage.name := "email";
       SendMessage.postMessage := λ _ _ _, inl "1700000000000";
       SendMessage.logBotResponse := λ _ _ _, None |} ].

(** A parser that takes a body for JSON when it opens a brace. *)
Definition demo_parse (body : string) : option string :=
  if String.prefix "{" body then Some body else None.

(** Scheduled events for Telegram chat 42. *)
Definition demo_event (n : string) : TelegramQueue.MomEvent :=
  TelegramQueue.mkEvent "42" n "EVENT" ("[EVENT:reminder.json:periodic:* * * * *] tick " +:+ n).

(** A Telegram client that numbers its messages from its state and
    refuses chat actions. *)
#[local] Instance demo_bot : TelegramContext.Bot nat := {|
  TelegramContext.sendMessage := λ _ _ n, (Js.Fulfilled (pretty n), S n);
  TelegramContext.editMessageText := λ _ _ _ n, (Js.Fulfilled (), n);
  TelegramContext.deleteMessage := λ _ _ n, (Js.Fulfilled (), n);
  TelegramContext.sendChatAction := λ _ n, (Js.Threw "ETELEGRAM: 429 Too Many Requests", n);
  TelegramContext.readFileSync := λ _ _, Js.Fulfilled ();
  TelegramContext.logBotResponse := λ _ _ _ n, (Js.Fulfilled (), n)
|}.

(** The calls [handleEvent] and the agent make during a short run, with
    the callbacks taking their turns late. *)
Definition demo_run : list TelegramContext.action :=
  [TelegramContext.Call (TelegramContext.SetTyping true);
   TelegramContext.Call (TelegramContext.SetWorking true);
   TelegramContext.Call (TelegramContext.Respond (TelegramContext.tool_prefix +:+ " Reading file_") false);
   TelegramContext.Turn;
   TelegramContext.Call (TelegramContext.Respond "Hello <you>" true);
   TelegramContext.Turn; TelegramContext.Turn; TelegramContext.Turn;
   TelegramContext.Call (TelegramContext.SetWorking false);
   TelegramContext.Turn].

(* ===================================================================== *)
(** * Part II: properties                                                 *)
(* ===================================================================== *)

(** ** The gateway *)

Section GatewayFacts.
Context {H : Type}.
Implicit Types (g : Gateway.t H) (req : Gateway.request) (h : H).

Lemma dispatch_health g req :
  Gateway.method req = "GET" → Gateway.url req = Some "/health" →
  Gateway.dispatch g req = Gateway.Reply 200 "ok".
Proof. intros Hm Hu. unfold Gateway.dispatch. by rewrite Hm, Hu. Qed.

Lemma dispatch_post g req :
  Gateway.method req = "POST" →
  Gateway.dispatch g req =
    match Gateway.routes g !! Gateway.url_or_empty req with
    | None => Gateway.Reply 404 "Not found"
    | Some h =>
        if bool_decide (Gateway.url_or_empty req ∈ Gateway.readyRoutes g)
        then Gateway.Invoke h else Gateway.Reply 503 "Adapter not ready"
    end.
Proof. intros Hm. unfold Gateway.dispatch. by rewrite Hm. Qed.

Lemma dispatch_other_method g req :
  Gateway.method req ≠ "POST" →
  ¬ (Gateway.method req = "GET" ∧ Gateway.url req = Some "/health") →
  Gateway.dispatch g req = Gateway.Reply 405 "Method not allowed".
Proof.
  intros Hpost Hhealth. unfold Gateway.dispatch.
  destruct (bool_decide (Gateway.method req = "GET")) eqn:Em;
    destruct (bool_decide (Gateway.url req = Some "/health")) eqn:Eu; simpl;
    try (apply bool_decide_eq_true in Em, Eu; tauto);
    by rewrite bool_decide_eq_false_2.
Qed.

Lemma dispatch_503_inv g req :
  Gateway.dispatch g req = Gateway.Reply 503 "Adapter not ready" →
  Gateway.method req = "POST" ∧
  is_Some (Gateway.routes g !! Gateway.url_or_empty req) ∧
  Gateway.url_or_empty req ∉ Gateway.readyRoutes g.
Proof.
  unfold Gateway.dispatch.
  destruct (bool_decide (Gateway.method req = "GET") && _); [discriminate|].
  destruct (bool_decide (Gateway.method req = "POST")) eqn:Ep; simpl; [|discriminate].
  apply bool_decide_eq_true in Ep.
  destruct (Gateway.routes g !! _) as [h|]; [|discriminate].
  destruct (bool_decide (_ ∈ _)) eqn:Er; [discriminate|].
  apply bool_decide_eq_false in Er. eauto.
Qed.

Lemma routes_register path h g :
  Gateway.routes (Gateway.register path h g) !! path = Some h.
Proof. apply lookup_insert_eq. Qed.

Lemma routes_markReady path g :
  Gateway.routes (Gateway.markReady path g) = Gateway.routes g.
Proof. reflexivity. Qed.

Lemma ready_markReady path g :
  path ∈ Gateway.readyRoutes (Gateway.markReady path g).
Proof. unfold Gateway.markReady; simpl. set_solver. Qed.

(** C4. Every request is dispatched by the same four tests: GET /health is
    answered 200 whatever the routes' readiness; any other request that is
    not a POST is answered 405; a POST to a path with no route is answered
    404; a POST to a route not marked ready is answered 503; and once
    [markReady] has been called for the path, a POST to it invokes the
    registered handler, in particular the very request that was answered
    503 before. *)
Theorem gateway_dispatch_contract g req :
  (Gateway.method req = "GET" → Gateway.url req = Some "/health" →
     Gateway.dispatch g req = Gateway.Reply 200 "ok") ∧
  (Gateway.method req ≠ "POST" →
     ¬ (Gateway.method req = "GET" ∧ Gateway.url req = Some "/health") →
     Gateway.dispatch g req = Gateway.Reply 405 "Method not allowed") ∧
  (Gateway.method req = "POST" →
     Gateway.routes g !! Gateway.url_or_empty req = None →
     Gateway.dispatch g req = Gateway.Reply 404 "Not found") ∧
  (∀ h, Gateway.method req = "POST" →
     Gateway.routes g !! Gateway.url_or_empty req = Some h →
     Gateway.url_or_empty req ∉ Gateway.readyRoutes g →
     Gateway.dispatch g req = Gateway.Reply 503 "Adapter not ready") ∧
  (∀ h, Gateway.method req = "POST" →
     Gateway.routes g !! Gateway.url_or_empty req = Some h →
     Gateway.dispatch (Gateway.markReady (Gateway.url_or_empty req) g) req = Gateway.Invoke h) ∧
  (Gateway.dispatch g req = Gateway.Reply 503 "Adapter not ready" →
     ∃ h, Gateway.routes g !! Gateway.url_or_empty req = Some h ∧
          Gateway.dispatch (Gateway.markReady (Gateway.url_or_empty req) g) req = Gateway.Invoke h).
Proof.
  assert (Hready : ∀ h, Gateway.method req = "POST" →
     Gateway.routes g !! Gateway.url_or_empty req = Some h →
     Gateway.dispatch (Gateway.markReady (Gateway.url_or_empty req) g) req = Gateway.Invoke h).
  { intros h Hm Hr. rewrite dispatch_post by done.
    rewrite routes_markReady, Hr.
    by rewrite bool_decide_eq_true_2 by apply ready_markReady. }
  split_and!.
  - apply dispatch_health.
  - apply dispatch_other_method.
  - intros Hm Hr. rewrite dispatch_post by done. by rewrite Hr.
  - intros h Hm Hr Hn. rewrite dispatch_post by done. rewrite Hr.
    by rewrite bool_decide_eq_false_2.
  - exact Hready.
  - intros (Hm & [h Hr] & _)%dispatch_503_inv. eauto.
Qed.

End GatewayFacts.

(** The contract at work on one route table: a Slack route registered but
    not ready, then marked ready. *)
Lemma gateway_dispatch_contract_witness :
  let g := Gateway.register "/slack/events" 7%nat Gateway.create in
  let post := Gateway.mkRequest "POST" (Some "/slack/events") in
  Gateway.dispatch g post = Gateway.Reply 503 "Adapter not ready" ∧
  Gateway.dispatch (Gateway.markReady "/slack/events" g) post = Gateway.Invoke 7%nat ∧
  Gateway.dispatch g (Gateway.mkRequest "GET" (Some "/health")) = Gateway.Reply 200 "ok" ∧
  Gateway.dispatch g (Gateway.mkRequest "PUT" (Some "/slack/events")) = Gateway.Reply 405 "Method not allowed" ∧
  Gateway.dispatch g (Gateway.mkRequest "POST" (Some "/nowhere")) = Gateway.Reply 404 "Not found".
Proof.
  intros g post.
  destruct (gateway_dispatch_contract g post) as (_ & _ & _ & H503 & Hok & _).
  destruct (gateway_dispatch_contract g (Gateway.mkRequest "GET" (Some "/health"))) as (Hh & _).
  destruct (gateway_dispatch_contract g (Gateway.mkRequest "PUT" (Some "/slack/events"))) as (_ & H405 & _).
  destruct (gateway_dispatch_contract g (Gateway.mkRequest "POST" (Some "/nowhere"))) as (_ & _ & H404 & _).
  split_and!.
  - apply (H503 7%nat); [reflexivity | reflexivity | apply not_elem_of_empty].
  - apply (Hok 7%nat); reflexivity.
  - apply Hh; reflexivity.
  - apply H405; [discriminate | intros [? _]; discriminate].
  - apply H404; reflexivity.
Defined.

(** ** Strings *)

Lemma prefix_spec (p s : string) :
  String.prefix p s = true ↔ ∃ rest, s = p +:+ rest.
Proof.
  revert s. induction p as [|a p IH]; intros s.
  - destruct s; simpl; (split; [intros _; eexists; reflexivity | done]).
  - destruct s as [|b s]; [split; [discriminate | intros [r Hr]; discriminate]|].
    change (String.prefix (String a p) (String b s)) with (if ascii_dec a b then String.prefix p s else false).
    destruct (ascii_dec a b) as [->|Hne].
    + rewrite IH. split; intros [r Hr]; exists r; [by rewrite Hr | by injection Hr].
    + split; [discriminate | intros [r [= ? ?]]; done].
Qed.

(** ** The cross-channel router *)

Section RouterFacts.
Import SendMessage.

(** The three tests, in words. *)
Lemma is_telegram_id_spec channel :
  is_telegram_id channel = true ↔
  ∃ digits, digits ≠ EmptyString ∧ all_digits digits = true ∧
            (channel = digits ∨ channel = String "-" digits).
Proof.
  assert (Hd : ∀ s, digits_to_end s = true ↔ s ≠ EmptyString ∧ all_digits s = true).
  { intros [|c s]; simpl; [split; [discriminate | intros [? _]; done]|].
    split; [intros ->; split; [discriminate | done] | by intros [_ ->]]. }
  split.
  - intros Ht. destruct channel as [|c rest]; [discriminate|].
    destruct (decide (c = "-"%char)) as [->|Hne].
    + exists rest. apply Hd in Ht as [? ?]. eauto.
    + exists (String c rest). split_and!; [discriminate | | by left].
      assert (is_telegram_id (String c rest) = digits_to_end (String c rest)) as Heq.
      { unfold is_telegram_id.
        destruct c as [[] [] [] [] [] [] [] []]; try reflexivity. done. }
      rewrite Heq in Ht. by apply Hd in Ht as [_ ?].
  - intros (digits & Hne & Hall & [-> | ->]).
    + destruct digits as [|c rest]; [done|].
      assert (c ≠ "-"%char) as Hc.
      { intros ->. simpl in Hall. discriminate. }
      assert (is_telegram_id (String c rest) = digits_to_end (String c rest)) as ->.
      { unfold is_telegram_id.
        destruct c as [[] [] [] [] [] [] [] []]; try reflexivity. done. }
      by apply Hd.
    + simpl. by apply Hd.
Qed.

Lemma is_slack_id_spec channel :
  is_slack_id channel = true ↔
  ∃ c rest, channel = String c rest ∧ (c = "C" ∨ c = "D" ∨ c = "G")%char.
Proof.
  destruct channel as [|c rest]; simpl.
  - split; [discriminate | by intros (? & ? & ? & _)].
  - rewrite !orb_true_iff, !bool_decide_eq_true. split.
    + intros Hc. exists c, rest. tauto.
    + intros (c' & rest' & [= -> ->] & Hc). tauto.
Qed.

Lemma is_email_id_spec channel :
  is_email_id channel = true ↔ ∃ rest, channel = "email-" +:+ rest.
Proof. apply prefix_spec. Qed.

(** The three patterns exclude one another, so the order of the rules
    never decides. *)
Lemma slack_id_not_telegram channel :
  is_slack_id channel = true → is_telegram_id channel = false.
Proof.
  intros (c & rest & -> & [-> | [-> | ->]])%is_slack_id_spec; reflexivity.
Qed.

Lemma email_id_not_other channel :
  is_email_id channel = true →
  is_telegram_id channel = false ∧ is_slack_id channel = false.
Proof. intros [rest ->]%is_email_id_spec. split; reflexivity. Qed.

Variable basename : string → string.
Implicit Types (adapters : list PlatformAdapter) (channel text : string).

Lemma execute_not_aborted adapters channel text attachments :
  ∃ reply, execute basename adapters false channel text attachments = Returned reply.
Proof.
  unfold execute.
  destruct (resolveAdapter channel adapters) as [a|]; [|eauto].
  destruct (postMessage a _ _ _) as [ts|err]; [|eauto].
  destruct (logBotResponse a _ _ _); eauto.
Qed.

(** C8, as the code has it.  The router applies its three rules in order
    (they are mutually exclusive): a numeric id, with or without a leading
    minus, goes to the adapter named telegram, an id starting with C, D or
    G to the one named slack, an id starting with email- to the one named
    email, anything else to none.  A call of the tool whose abort signal
    is not set never rejects: a failed resolution and a rejected
    [postMessage] both come back as a text result.  A call whose signal
    is already aborted rejects with "Operation aborted". *)
Theorem send_message_routes_and_reports adapters channel text attachments :
  (is_telegram_id channel = true →
     resolveAdapter channel adapters = find_by_name "telegram" adapters) ∧
  (is_slack_id channel = true →
     resolveAdapter channel adapters = find_by_name "slack" adapters) ∧
  (is_email_id channel = true →
     resolveAdapter channel adapters = find_by_name "email" adapters) ∧
  (is_telegram_id channel = false → is_slack_id channel = false →
     is_email_id channel = false → resolveAdapter channel adapters = None) ∧
  (∃ reply, execute basename adapters false channel text attachments = Returned reply) ∧
  (resolveAdapter channel adapters = None →
     execute basename adapters false channel text attachments =
       Returned ("No adapter found for channel " +:+ dq +:+ channel +:+ dq +:+
                 ". Available patterns: numeric (Telegram), C/D/G prefix (Slack), email-{address} (Email).")) ∧
  (∀ adapter err,
     resolveAdapter channel adapters = Some adapter →
     postMessage adapter channel text
       (fmap (M := option) (List.map (λ filePath, (filePath, basename filePath))) attachments) = inr err →
     execute basename adapters false channel text attachments =
       Returned ("Failed to send: " +:+ err)) ∧
  execute basename adapters true channel text attachments = Thrown "Operation aborted".
Proof.
  split_and!.
  - intros Ht. unfold resolveAdapter. by rewrite Ht.
  - intros Hs. unfold resolveAdapter. by rewrite (slack_id_not_telegram _ Hs), Hs.
  - intros He. unfold resolveAdapter.
    destruct (email_id_not_other _ He) as [-> ->]. by rewrite He.
  - intros Ht Hs He. unfold resolveAdapter. by rewrite Ht, Hs, He.
  - apply execute_not_aborted.
  - intros Hr. unfold execute. by rewrite Hr.
  - intros a err Hr Hp. unfold execute. by rewrite Hr, Hp.
  - reflexivity.
Qed.

End RouterFacts.


(** C8 as stated fails: with the abort signal set, a call for a channel
    no rule resolves is not answered with a text result, it rejects. *)
Lemma send_message_rejects_when_aborted :
  SendMessage.resolveAdapter "web-42" demo_adapters = None ∧
  SendMessage.execute (λ path, path) demo_adapters true "web-42" "hello" None =
    SendMessage.Thrown "Operation aborted".
Proof. split; reflexivity. Qed.

Lemma send_message_routes_and_reports_witness :
  SendMessage.name <$> SendMessage.resolveAdapter "-1001234" demo_adapters = Some "telegram" ∧
  SendMessage.name <$> SendMessage.resolveAdapter "C0123ABCD" demo_adapters = Some "slack" ∧
  SendMessage.name <$> SendMessage.resolveAdapter "email-ann@example.org" demo_adapters = Some "email" ∧
  SendMessage.resolveAdapter "web-42" demo_adapters = None ∧
  SendMessage.execute (λ path, path) demo_adapters false "-1001234" "hello" None =
    SendMessage.Returned "Failed to send: ETELEGRAM: 403 Forbidden" ∧
  (∃ reply, SendMessage.execute (λ path, path) demo_adapters false "web-42" "hello" None =
    SendMessage.Returned reply).
Proof.
  pose proof (send_message_routes_and_reports (λ path, path) demo_adapters "-1001234" "hello" None)
    as (Ht & _ & _ & _ & _ & _ & Hfail & _).
  pose proof (send_message_routes_and_reports (λ path, path) demo_adapters "C0123ABCD" "hello" None)
    as (_ & Hs & _).
  pose proof (send_message_routes_and_reports (λ path, path) demo_adapters "email-ann@example.org" "hello" None)
    as (_ & _ & He & _).
  pose proof (send_message_routes_and_reports (λ path, path) demo_adapters "web-42" "hello" None)
    as (_ & _ & _ & Hnone & _ & Hmsg & _).
  split_and!.
  - rewrite Ht; reflexivity.
  - rewrite Hs; reflexivity.
  - rewrite He; reflexivity.
  - apply Hnone; reflexivity.
  - eapply Hfail; reflexivity.
  - eexists. apply Hmsg. apply Hnone; reflexivity.
Defined.

(** ** The webhook boundaries *)


Lemma turned_away_forwards_nothing {Payload : Type} status (es : list (Http.effect Payload)) :
  Http.turned_away status es → existsb Http.forwards es = false ∧ Http.statuses es = [status].
Proof. intros [text ->]. split; reflexivity. Qed.

Section SlackWebhookFacts.
Context {Payload : Type}.
Variable JSON_parse : string → option Payload.
Variable parseInt : string → option Z.
Variable hmac_sha256_hex : string → string → string.
Variable signingSecret : string.

Local Abbreviation slack_dispatch := (SlackWebhook.dispatch JSON_parse parseInt hmac_sha256_hex signingSecret).
Local Abbreviation slack_verify := (SlackWebhook.verifySignature hmac_sha256_hex signingSecret).

(** Every way through [dispatch]. *)
Lemma slack_dispatch_cases now req :
  Http.turned_away 401 (slack_dispatch now req) ∨
  (Http.turned_away 400 (slack_dispatch now req) ∧ JSON_parse (Http.body req) = None) ∨
  (∃ timestamp signature payload,
     Http.headers req !! "x-slack-request-timestamp" = Some timestamp ∧
     Http.headers req !! "x-slack-signature" = Some signature ∧
     slack_verify timestamp (Http.body req) signature = true ∧
     JSON_parse (Http.body req) = Some payload ∧
     slack_dispatch now req = [Http.Forward payload]).
Proof.
  unfold SlackWebhook.dispatch.
  destruct (Http.headers req !! "x-slack-request-timestamp") as [timestamp|] eqn:Et;
    [|left; eexists; reflexivity].
  destruct (Http.headers req !! "x-slack-signature") as [signature|] eqn:Es;
    [|left; rewrite orb_true_r; eexists; reflexivity].
  destruct (Js.falsy (Some timestamp) || Js.falsy (Some signature));
    [left; eexists; reflexivity|].
  simpl.
  destruct (SlackWebhook.too_old parseInt now timestamp); [left; eexists; reflexivity|].
  destruct (slack_verify timestamp (Http.body req) signature) eqn:Ev; simpl;
    [|left; eexists; reflexivity].
  destruct (JSON_parse (Http.body req)) as [payload|] eqn:Ej.
  - right; right. by exists timestamp, signature, payload.
  - right; left. split; [eexists|]; reflexivity.
Qed.

Lemma slack_missing_signature now req :
  Http.headers req !! "x-slack-signature" = None →
  Http.turned_away 401 (slack_dispatch now req).
Proof.
  intros Hs. destruct (slack_dispatch_cases now req) as [?|[[_ ?]|(t & sg & p & _ & Hsg & _)]];
    [done| |congruence].
  unfold SlackWebhook.dispatch. rewrite Hs. simpl. rewrite orb_true_r. by eexists.
Qed.

Lemma slack_missing_timestamp now req :
  Http.headers req !! "x-slack-request-timestamp" = None →
  Http.turned_away 401 (slack_dispatch now req).
Proof. intros Ht. unfold SlackWebhook.dispatch. rewrite Ht. by eexists. Qed.

Lemma slack_invalid_signature now req timestamp signature :
  Http.headers req !! "x-slack-request-timestamp" = Some timestamp →
  Http.headers req !! "x-slack-signature" = Some signature →
  slack_verify timestamp (Http.body req) signature = false →
  Http.turned_away 401 (slack_dispatch now req).
Proof.
  intros Ht Hs Hv. unfold SlackWebhook.dispatch. rewrite Ht, Hs. simpl.
  destruct (_ || _); [by eexists|].
  destruct (SlackWebhook.too_old _ _ _); [by eexists|].
  rewrite Hv. by eexists.
Qed.

Lemma slack_invalid_json now req :
  JSON_parse (Http.body req) = None →
  Http.turned_away 401 (slack_dispatch now req) ∨ Http.turned_away 400 (slack_dispatch now req).
Proof.
  intros Hj. destruct (slack_dispatch_cases now req) as [?|[[? _]|(t & sg & p & _ & _ & _ & Hp & _)]];
    [by left | by right | congruence].
Qed.

Lemma slack_authentic_invalid_json now req timestamp signature :
  Http.headers req !! "x-slack-request-timestamp" = Some timestamp →
  Http.headers req !! "x-slack-signature" = Some signature →
  timestamp ≠ EmptyString → signature ≠ EmptyString →
  SlackWebhook.too_old parseInt now timestamp = false →
  slack_verify timestamp (Http.body req) signature = true →
  JSON_parse (Http.body req) = None →
  Http.turned_away 400 (slack_dispatch now req).
Proof.
  intros Ht Hs Hte Hse Hold Hv Hj. unfold SlackWebhook.dispatch. rewrite Ht, Hs. simpl.
  rewrite !bool_decide_eq_false_2 by done. simpl. rewrite Hold, Hv, Hj. by eexists.
Qed.

End SlackWebhookFacts.

Section TelegramWebhookFacts.
Context {Update : Type}.
Variable JSON_parse : string → option Update.
Variable webhookSecret : string.

Local Abbreviation telegram_dispatch := (TelegramWebhook.dispatch JSON_parse webhookSecret).
Local Abbreviation telegram_handleRequest := (TelegramWebhook.handleRequest JSON_parse webhookSecret).

Lemma telegram_dispatch_cases req :
  (Http.turned_away 401 (telegram_dispatch req) ∧
     Http.headers req !! "x-telegram-bot-api-secret-token" ≠ Some webhookSecret) ∨
  (Http.turned_away 401 (telegram_dispatch req) ∧ webhookSecret = EmptyString) ∨
  (Http.turned_away 400 (telegram_dispatch req) ∧
     Http.headers req !! "x-telegram-bot-api-secret-token" = Some webhookSecret ∧
     JSON_parse (Http.body req) = None) ∨
  (∃ update,
     Http.headers req !! "x-telegram-bot-api-secret-token" = Some webhookSecret ∧
     JSON_parse (Http.body req) = Some update ∧
     telegram_dispatch req = [Http.WriteHead 200; Http.End_ EmptyString; Http.Forward update]).
Proof.
  unfold TelegramWebhook.dispatch.
  destruct (decide (Http.headers req !! "x-telegram-bot-api-secret-token" = Some webhookSecret))
    as [Heq|Hne].
  - rewrite Heq. rewrite (bool_decide_eq_true_2 _ eq_refl). simpl.
    destruct (bool_decide (webhookSecret = EmptyString)) eqn:Ee; simpl.
    + apply bool_decide_eq_true in Ee. right; left. split; [by eexists | done].
    + destruct (JSON_parse (Http.body req)) as [update|] eqn:Ej.
      * right; right; right. by exists update.
      * right; right; left. split_and!; [by eexists | done..].
  - left. split; [|done]. rewrite (bool_decide_eq_false_2 _ Hne). simpl.
    rewrite orb_true_r. by eexists.
Qed.

Lemma telegram_bad_secret req :
  Http.headers req !! "x-telegram-bot-api-secret-token" ≠ Some webhookSecret →
  Http.turned_away 401 (telegram_dispatch req).
Proof.
  intros Hne. unfold TelegramWebhook.dispatch.
  rewrite (bool_decide_eq_false_2 _ Hne). simpl. rewrite orb_true_r. by eexists.
Qed.

Lemma telegram_invalid_json req :
  JSON_parse (Http.body req) = None →
  Http.turned_away 401 (telegram_dispatch req) ∨ Http.turned_away 400 (telegram_dispatch req).
Proof.
  intros Hj. destruct (telegram_dispatch_cases req) as [[? _]|[[? _]|[[? _]|(u & _ & Hu & _)]]];
    [by left | by left | by right | congruence].
Qed.

Lemma telegram_handleRequest_cases req :
  Http.turned_away 404 (telegram_handleRequest req) ∨
  telegram_handleRequest req = telegram_dispatch req.
Proof.
  unfold TelegramWebhook.handleRequest. destruct (_ || _); [left; by eexists | by right].
Qed.

End TelegramWebhookFacts.

(** C9. A Slack request with no signature header or with a signature that
    does not verify (whatever timestamp it carries, if any), and a
    Telegram request with no secret token or with another one, are
    answered 401; a body that is not JSON is answered
    400 once the request has passed authentication (401 before).  In each
    case the reply is all that happens: nothing is forwarded to event
    handling, so nothing reaches a queue or the handler. *)
Theorem webhook_protocol_errors_rejected
    {SlackPayload Update : Type}
    (slack_parse : string → option SlackPayload) (parseInt : string → option Z)
    (hmac_sha256_hex : string → string → string) (signingSecret : string)
    (telegram_parse : string → option Update) (webhookSecret : string)
    (now : Z) (req : Http.request) :
  let slack := SlackWebhook.dispatch slack_parse parseInt hmac_sha256_hex signingSecret now req in
  let telegram := TelegramWebhook.dispatch telegram_parse webhookSecret req in
  let telegram_own := TelegramWebhook.handleRequest telegram_parse webhookSecret req in
  (Http.headers req !! "x-slack-signature" = None → Http.turned_away 401 slack) ∧
  (∀ signature,
     Http.headers req !! "x-slack-signature" = Some signature →
     (∀ timestamp,
        Http.headers req !! "x-slack-request-timestamp" = Some timestamp →
        SlackWebhook.verifySignature hmac_sha256_hex signingSecret
          timestamp (Http.body req) signature = false) →
     Http.turned_away 401 slack) ∧
  (slack_parse (Http.body req) = None →
     (Http.turned_away 401 slack ∨ Http.turned_away 400 slack) ∧
     ∀ timestamp signature,
       Http.headers req !! "x-slack-request-timestamp" = Some timestamp →
       Http.headers req !! "x-slack-signature" = Some signature →
       timestamp ≠ EmptyString → signature ≠ EmptyString →
       SlackWebhook.too_old parseInt now timestamp = false →
       SlackWebhook.verifySignature hmac_sha256_hex signingSecret timestamp (Http.body req) signature = true →
       Http.turned_away 400 slack) ∧
  (Http.headers req !! "x-telegram-bot-api-secret-token" ≠ Some webhookSecret →
     Http.turned_away 401 telegram ∧ (Http.turned_away 401 telegram_own ∨ Http.turned_away 404 telegram_own)) ∧
  (telegram_parse (Http.body req) = None →
     (Http.turned_away 401 telegram ∨ Http.turned_away 400 telegram) ∧
     (Http.turned_away 401 telegram_own ∨ Http.turned_away 400 telegram_own ∨ Http.turned_away 404 telegram_own) ∧
     (Http.headers req !! "x-telegram-bot-api-secret-token" = Some webhookSecret →
      webhookSecret ≠ EmptyString → Http.turned_away 400 telegram)) ∧
  (∀ status, Http.turned_away status slack → existsb Http.forwards slack = false) ∧
  (∀ status, Http.turned_away status telegram → existsb Http.forwards telegram = false) ∧
  (∀ status, Http.turned_away status telegram_own → existsb Http.forwards telegram_own = false).
Proof.
  intros slack telegram telegram_own. subst slack telegram telegram_own.
  pose proof (telegram_handleRequest_cases telegram_parse webhookSecret req) as Hown.
  split_and!.
  - apply slack_missing_signature.
  - intros signature Hs Hv.
    destruct (Http.headers req !! "x-slack-request-timestamp") as [timestamp|] eqn:Et.
    + eapply slack_invalid_signature; [exact Et | exact Hs | by apply Hv].
    + by apply slack_missing_timestamp.
  - intros Hj. split; [by apply slack_invalid_json|].
    intros. by eapply slack_authentic_invalid_json.
  - intros Hne. split; [by apply telegram_bad_secret|].
    destruct Hown as [? | ->]; [by right | left; by apply telegram_bad_secret].
  - intros Hj. split_and!.
    + by apply telegram_invalid_json.
    + destruct Hown as [? | ->]; [tauto|].
      destruct (telegram_invalid_json telegram_parse webhookSecret req Hj); tauto.
    + intros Hs Hne.
      destruct (telegram_dispatch_cases telegram_parse webhookSecret req)
        as [[_ ?]|[[_ ?]|[[? _]|(u & _ & Hu & _)]]]; [done | done | done | congruence].
  - intros status Ht. by apply turned_away_forwards_nothing in Ht as [? _].
  - intros status Ht. by apply turned_away_forwards_nothing in Ht as [? _].
  - intros status Ht. by apply turned_away_forwards_nothing in Ht as [? _].
Qed.

(** Two requests that carry no valid credential, and one that carries
    the Telegram secret with a body that is not JSON. *)
Lemma webhook_protocol_errors_rejected_witness :
  let guess := Http.mkRequest "POST" "/telegram/webhook"
                 {[ "x-telegram-bot-api-secret-token" := "guess" ]} "{}" in
  let garbled := Http.mkRequest "POST" "/telegram/webhook"
                   {[ "x-telegram-bot-api-secret-token" := "s3cret" ]} "oops" in
  Http.turned_away 401 (SlackWebhook.dispatch demo_parse (λ _, Some 0) (λ _ _, "00") "key" 0 guess) ∧
  Http.turned_away 401 (TelegramWebhook.dispatch demo_parse "s3cret" guess) ∧
  Http.turned_away 400 (TelegramWebhook.dispatch demo_parse "s3cret" garbled) ∧
  existsb Http.forwards (TelegramWebhook.dispatch demo_parse "s3cret" garbled) = false.
Proof.
  intros guess garbled.
  pose proof (webhook_protocol_errors_rejected demo_parse (λ _, Some 0) (λ _ _, "00") "key"
                demo_parse "s3cret" 0 guess) as (Hslack & _ & _ & Hsecret & _).
  pose proof (webhook_protocol_errors_rejected demo_parse (λ _, Some 0) (λ _ _, "00") "key"
                demo_parse "s3cret" 0 garbled) as (_ & _ & _ & _ & Hjson & _ & Hnone & _).
  assert (Http.turned_away 400 (TelegramWebhook.dispatch demo_parse "s3cret" garbled)) as H400.
  { apply Hjson; [reflexivity | reflexivity | discriminate]. }
  split_and!.
  - apply Hslack. reflexivity.
  - apply Hsecret. vm_compute. discriminate.
  - exact H400.
  - exact (Hnone 400 H400).
Defined.

(** ** The run handler *)

Section HandlerFacts.
Import Main.
Implicit Types (s : Main.t) (m : gmap string ChannelState) (c channel : string).

Lemma getState_lookup_ne c c' m : c ≠ c' → getState c m !! c' = m !! c'.
Proof.
  intros Hne. unfold getState. destruct (m !! c); [done|]. by rewrite lookup_insert_ne.
Qed.

Lemma getState_lookup c m :
  getState c m !! c = Some (default fresh_state (m !! c)).
Proof.
  unfold getState. destruct (m !! c) eqn:E; simpl; [done|]. by rewrite lookup_insert_eq.
Qed.

(** *** What each function does to the flag and to the runs in flight *)

Lemma handleEvent_isRunning c s : isRunning c (handleEvent c s) = true.
Proof.
  unfold isRunning, handleEvent; simpl.
  by rewrite lookup_alter_eq, getState_lookup.
Qed.

Lemma handleEvent_runs c s : runs_of c (handleEvent c s) = runs_of c s ++ [AwaitAgent].
Proof. unfold runs_of at 1, handleEvent; simpl. by rewrite lookup_insert_eq. Qed.

Lemma handleEvent_frame c c' s :
  c ≠ c' →
  isRunning c' (handleEvent c s) = isRunning c' s ∧
  runs_of c' (handleEvent c s) = runs_of c' s.
Proof.
  intros Hne. unfold isRunning, runs_of, handleEvent; simpl.
  by rewrite lookup_alter_ne, getState_lookup_ne, lookup_insert_ne.
Qed.

Lemma finally_isRunning c i s : isRunning c (finally c i s) = false.
Proof.
  unfold isRunning, finally; simpl. rewrite lookup_alter_eq.
  by destruct (channelStates s !! c).
Qed.

Lemma finally_runs c i s : runs_of c (finally c i s) = delete i (runs_of c s).
Proof. unfold runs_of at 1, finally; simpl. by rewrite lookup_insert_eq. Qed.

Lemma finally_frame c c' i s :
  c ≠ c' →
  isRunning c' (finally c i s) = isRunning c' s ∧
  runs_of c' (finally c i s) = runs_of c' s.
Proof.
  intros Hne. unfold isRunning, runs_of, finally; simpl.
  by rewrite lookup_alter_ne, lookup_insert_ne.
Qed.

Lemma suspend_isRunning c c' i p e s : isRunning c' (suspend c i p e s) = isRunning c' s.
Proof. reflexivity. Qed.

Lemma suspend_runs c i p e s : runs_of c (suspend c i p e s) = <[i := p]> (runs_of c s).
Proof. unfold runs_of at 1, suspend; simpl. by rewrite lookup_insert_eq. Qed.

Lemma suspend_runs_ne c c' i p e s :
  c ≠ c' → runs_of c' (suspend c i p e s) = runs_of c' s.
Proof. intros Hne. unfold runs_of, suspend; simpl. by rewrite lookup_insert_ne. Qed.

Lemma handleStop_isRunning c c' s : isRunning c' (handleStop c s) = isRunning c' s.
Proof.
  unfold handleStop. destruct (isRunning c s) eqn:Er; [|done].
  unfold isRunning; simpl. destruct (decide (c = c')) as [<-|Hne].
  - rewrite lookup_alter_eq. by destruct (channelStates s !! c).
  - by rewrite lookup_alter_ne.
Qed.

Lemma handleStop_runs c c' s : runs_of c' (handleStop c s) = runs_of c' s.
Proof. unfold handleStop. by destruct (isRunning c s). Qed.

Lemma resume_handleStop_frame c c' r s s' :
  resume_handleStop c r s = Some s' →
  isRunning c' s' = isRunning c' s ∧ runs_of c' s' = runs_of c' s.
Proof.
  unfold resume_handleStop. destruct (stops_of c s); [done|]. intros [= <-].
  split; [|done]. unfold isRunning; simpl. destruct r as [ts|err]; [|done].
  destruct (decide (c = c')) as [<-|Hne].
  - rewrite lookup_alter_eq. by destruct (channelStates s !! c).
  - by rewrite lookup_alter_ne.
Qed.

(** A resumed invocation either ends (the flag is lowered, the
    invocation leaves the runs in flight) or is suspended again (the flag
    is untouched, the invocation stays where it was in the list). *)
Lemma resume_handleEvent_cases c i r s s' :
  resume_handleEvent c i r s = Some s' →
  is_Some (runs_of c s !! i) ∧
  ((isRunning c s' = false ∧ runs_of c s' = delete i (runs_of c s)) ∨
   (isRunning c s' = isRunning c s ∧ ∃ p, runs_of c s' = <[i := p]> (runs_of c s))).
Proof.
  unfold resume_handleEvent.
  destruct (runs_of c s !! i) as [p|] eqn:Ei; [|done].
  intros Hr. split; [by eexists|].
  assert (∀ s0, runs s0 = runs s →
            isRunning c (finally c i s0) = false ∧
            runs_of c (finally c i s0) = delete i (runs_of c s)) as Hfin.
  { intros s0 Hs0. split; [apply finally_isRunning|].
    rewrite finally_runs. unfold runs_of. by rewrite Hs0. }
  destruct p.
  - destruct r as [stopReason|err]; [|injection Hr as <-; left; by apply Hfin].
    destruct (channelStates s !! c) as [st|]; [|done]. simpl in Hr.
    destruct (bool_decide (stopReason = "aborted") && stopRequested st);
      [|injection Hr as <-; left; by apply Hfin].
    destruct (recorded_handle st); injection Hr as <-; right;
      (split; [apply suspend_isRunning | eexists; apply suspend_runs]).
  - destruct r; injection Hr as <-; left; by apply Hfin.
  - injection Hr as <-; left; by apply Hfin.
Qed.

Lemma resume_handleEvent_frame c c' i r s s' :
  c ≠ c' →
  resume_handleEvent c i r s = Some s' →
  isRunning c' s' = isRunning c' s ∧ runs_of c' s' = runs_of c' s.
Proof.
  intros Hne. unfold resume_handleEvent.
  destruct (runs_of c s !! i) as [p|]; [|done].
  assert (∀ s0, runs s0 = runs s →
            (∀ k, k ≠ c → channelStates s0 !! k = channelStates s !! k) →
            isRunning c' (finally c i s0) = isRunning c' s ∧
            runs_of c' (finally c i s0) = runs_of c' s) as Hfin.
  { intros s0 Hr Hc. destruct (finally_frame c c' i s0 Hne) as [-> ->].
    unfold isRunning, runs_of. by rewrite Hr, Hc. }
  destruct p.
  - destruct r as [stopReason|err]; [|intros [= <-]; by apply Hfin].
    destruct (channelStates s !! c) as [st|]; [|done]. simpl.
    destruct (bool_decide (stopReason = "aborted") && stopRequested st);
      [|intros [= <-]; by apply Hfin].
    destruct (recorded_handle st); intros [= <-];
      (split; [apply suspend_isRunning | by apply suspend_runs_ne]).
  - destruct r; intros [= <-]; apply Hfin; simpl; try done.
    intros k Hk. by rewrite lookup_alter_ne.
  - intros [= <-]; by apply Hfin.
Qed.

(** *** The invariant the callers' discipline buys *)

(** On every channel at most one run is in flight, and the flag is up
    exactly when one is. *)
Lemma coordinated_step a s s' :
  (∀ c, (length (runs_of c s) ≤ 1)%nat ∧ (isRunning c s = true ↔ runs_of c s ≠ [])) →
  serialised [a] s = true →
  step a s = Some s' →
  ∀ c, (length (runs_of c s') ≤ 1)%nat ∧ (isRunning c s' = true ↔ runs_of c s' ≠ []).
Proof.
  intros Hinv Hser Hstep c. destruct (Hinv c) as [Hlen Hiff].
  destruct a as [ch|ch|ch i r|ch r]; simpl in Hstep.
  - injection Hstep as <-. simpl in Hser. rewrite andb_true_iff in Hser.
    destruct Hser as [Hfree%bool_decide_eq_true _].
    destruct (decide (ch = c)) as [->|Hne].
    + rewrite handleEvent_isRunning, handleEvent_runs, Hfree. simpl.
      split; [lia | done].
    + by destruct (handleEvent_frame ch c s Hne) as [-> ->].
  - injection Hstep as <-. by rewrite handleStop_isRunning, handleStop_runs.
  - destruct (decide (ch = c)) as [->|Hne].
    + destruct (resume_handleEvent_cases _ _ _ _ _ Hstep) as [[p Hp] Hcases].
      destruct (runs_of c s) as [|p0 [|p1 l]] eqn:El; [done| |simpl in Hlen; lia].
      destruct i as [|i]; [|done].
      destruct Hcases as [[-> ->]|[-> [p' ->]]]; simpl.
      * split; [lia | done].
      * split; [lia|]. rewrite Hiff. done.
    + by destruct (resume_handleEvent_frame _ _ _ _ _ _ Hne Hstep) as [-> ->].
  - by destruct (resume_handleStop_frame _ c _ _ _ Hstep) as [-> ->].
Qed.

Lemma coordinated_exec acts s s' :
  (∀ c, (length (runs_of c s) ≤ 1)%nat ∧ (isRunning c s = true ↔ runs_of c s ≠ [])) →
  serialised acts s = true →
  exec acts s = Some s' →
  ∀ c, (length (runs_of c s') ≤ 1)%nat ∧ (isRunning c s' = true ↔ runs_of c s' ≠ []).
Proof.
  revert s. induction acts as [|a acts IH]; intros s Hinv Hser Hexec.
  - by injection Hexec as <-.
  - simpl in Hexec. destruct (step a s) as [s1|] eqn:Hstep; [|done]. simpl in Hexec.
    simpl in Hser. rewrite Hstep in Hser. apply andb_true_iff in Hser as [Hguard Hrest].
    apply (IH s1); [|done..].
    apply (coordinated_step a s); [done| |done].
    simpl. rewrite Hstep, Hguard. done.
Qed.

(** C1, as the code has it.  When the callers serialise their calls of
    [handleEvent] per channel, then after any sequence of calls and
    settlements, on every channel at most one run is in flight and
    [isRunning] is true exactly when one is: from the start of the run to
    its [finally], whether the run returned, threw or was aborted. *)
Theorem isRunning_iff_run_in_flight acts s :
  serialised acts init = true →
  exec acts init = Some s →
  ∀ channel,
    (length (runs_of channel s) ≤ 1)%nat ∧
    (isRunning channel s = true ↔ runs_of channel s ≠ []).
Proof.
  apply coordinated_exec. intros c.
  unfold isRunning, runs_of; simpl. rewrite !lookup_empty. simpl.
  split; [lia | split; done].
Qed.

End HandlerFacts.

(** C1 as stated fails: the handler itself does not keep two runs of one
    channel apart.  Two calls of [handleEvent] on the heartbeat channel
    with no settlement between them are both in flight; when the first
    ends, its [finally] lowers the flag although the second is still
    running. *)
Lemma overlapping_runs_lower_the_flag :
  ∃ s1 s2,
    Main.exec [Main.CallHandleEvent "_heartbeat"; Main.CallHandleEvent "_heartbeat"] Main.init = Some s1 ∧
    Main.runs_of "_heartbeat" s1 = [Main.AwaitAgent; Main.AwaitAgent] ∧
    Main.exec [Main.ResumeHandleEvent "_heartbeat" 0 (Js.Fulfilled "stop")] s1 = Some s2 ∧
    Main.runs_of "_heartbeat" s2 = [Main.AwaitAgent] ∧
    Main.isRunning "_heartbeat" s2 = false.
Proof.
  exists (Main.handleEvent "_heartbeat" (Main.handleEvent "_heartbeat" Main.init)).
  eexists. split_and!; [reflexivity | reflexivity | vm_compute; reflexivity | reflexivity | reflexivity].
Qed.

(** A run on a Telegram chat that is stopped by the user, seen while the
    "_Stopped_" edit is still awaited, and a later run on the same chat. *)
Lemma isRunning_iff_run_in_flight_witness :
  let acts := [Main.CallHandleEvent "42"; Main.CallHandleStop "42";
               Main.ResumeHandleStop "42" (Js.Fulfilled "7");
               Main.ResumeHandleEvent "42" 0 (Js.Fulfilled "aborted");
               Main.ResumeHandleEvent "42" 0 (Js.Fulfilled EmptyString);
               Main.CallHandleEvent "42"] in
  Main.serialised acts Main.init = true ∧
  ∃ s, Main.exec acts Main.init = Some s ∧
       ∀ channel, (length (Main.runs_of channel s) ≤ 1)%nat ∧
                  (Main.isRunning channel s = true ↔ Main.runs_of channel s ≠ []).
Proof.
  intros acts. split; [reflexivity|].
  destruct (Main.exec acts Main.init) as [s|] eqn:E; [|vm_compute in E; discriminate].
  exists s. split; [reflexivity|].
  apply (isRunning_iff_run_in_flight acts s); [reflexivity | exact E].
Defined.

Section StopFacts.
Import Main.
Implicit Types (s : Main.t) (c channel : string).

(** C7. [handleStop] on a channel that is not running posts
    "_Nothing running_" and does nothing else: the channel states, the
    runs in flight and the pending stops are what they were, and
    [isRunning] is still false. *)
Theorem handleStop_idle_only_reports channel s :
  isRunning channel s = false →
  channelStates (handleStop channel s) = channelStates s ∧
  runs (handleStop channel s) = runs s ∧
  stops (handleStop channel s) = stops s ∧
  effects (handleStop channel s) = effects s ++ [PostMessage channel "_Nothing running_"] ∧
  isRunning channel (handleStop channel s) = false.
Proof.
  intros Hidle. unfold handleStop. rewrite Hidle. by split_and!.
Qed.

(** C6, as the code has it.  [handleStop] on a running channel raises
    [stopRequested], aborts the runner and posts "_Stopping..._"; the
    handle of that post is recorded only when the post has settled
    successfully, and the abort is signalled before that.  When the run then ends with stop reason
    aborted and [stopRequested] set, the handler makes one call, chosen
    by the handle recorded at that moment: with a non-empty handle it is
    [updateMessage] on that handle with "_Stopped_", no message is
    posted, and the handle is cleared once the edit has succeeded (it is
    kept when the edit is rejected); with no handle recorded yet, or an
    empty one, it is a new post of "_Stopped_", and the handle is left as
    it was.  On every other outcome (another stop reason, no stop
    requested, a rejection) the handler calls nothing and only lowers
    [running]. *)
Theorem stop_indicator_finalized_in_place channel s :
  (isRunning channel s = true →
   ∃ st, channelStates s !! channel = Some st ∧
     channelStates (handleStop channel s) !! channel = Some (set_stopRequested true st) ∧
     effects (handleStop channel s) =
       effects s ++ [RunnerAbort channel; PostMessage channel "_Stopping..._"] ∧
     (∀ ts, ∃ s2,
       resume_handleStop channel (Js.Fulfilled ts) (handleStop channel s) = Some s2 ∧
       channelStates s2 !! channel =
         Some (set_stopMessageTs (Some ts) (set_stopRequested true st)) ∧
       effects s2 = effects (handleStop channel s)) ∧
     (∀ err, ∃ s2,
       resume_handleStop channel (Js.Threw err) (handleStop channel s) = Some s2 ∧
       channelStates s2 = channelStates (handleStop channel s) ∧
       effects s2 = effects (handleStop channel s))) ∧
  (∀ i st,
     runs_of channel s !! i = Some AwaitAgent →
     channelStates s !! channel = Some st →
     stopRequested st = true →
     (recorded_handle st = None ↔
      stopMessageTs st = None ∨ stopMessageTs st = Some EmptyString) ∧
     ∃ s1,
       resume_handleEvent channel i (Js.Fulfilled "aborted") s = Some s1 ∧
       channelStates s1 = channelStates s ∧
       match recorded_handle st with
       | Some ts =>
           stopMessageTs st = Some ts ∧
           effects s1 = effects s ++ [UpdateMessage channel ts "_Stopped_"] ∧
           (∀ v, ∃ s2,
              resume_handleEvent channel i (Js.Fulfilled v) s1 = Some s2 ∧
              effects s2 = effects s1 ∧
              channelStates s2 !! channel =
                Some {| running := false; stopRequested := true; stopMessageTs := None |}) ∧
           (∀ err, ∃ s2,
              resume_handleEvent channel i (Js.Threw err) s1 = Some s2 ∧
              effects s2 = effects s1 ∧
              channelStates s2 !! channel = Some (set_running false st))
       | None =>
           effects s1 = effects s ++ [PostMessage channel "_Stopped_"] ∧
           ∀ r, ∃ s2,
             resume_handleEvent channel i r s1 = Some s2 ∧
             effects s2 = effects s1 ∧
             channelStates s2 !! channel = Some (set_running false st)
       end) ∧
  (∀ i st r,
     runs_of channel s !! i = Some AwaitAgent →
     channelStates s !! channel = Some st →
     match r with
     | Js.Fulfilled stopReason => stopReason ≠ "aborted" ∨ stopRequested st = false
     | Js.Threw _ => True
     end →
     ∃ s1,
       resume_handleEvent channel i r s = Some s1 ∧
       effects s1 = effects s ∧
       channelStates s1 !! channel = Some (set_running false st)).
Proof.
  split_and!.
  - intros Hrun. unfold isRunning in Hrun.
    destruct (channelStates s !! channel) as [st|] eqn:Est; [|done].
    exists st. unfold handleStop, isRunning. rewrite Est, Hrun. simpl.
    split_and!; [done | by rewrite lookup_alter_eq, Est | done | |].
    + intros ts. unfold resume_handleStop, stops_of. simpl.
      rewrite lookup_insert_eq. simpl. eexists. split; [reflexivity|]. simpl.
      by rewrite !lookup_alter_eq, Est.
    + intros err. unfold resume_handleStop, stops_of. simpl.
      rewrite lookup_insert_eq. simpl. eexists. by split_and!.
  - intros i st Hi Hst Hreq. split.
    { unfold recorded_handle, Js.truthy.
      destruct (stopMessageTs st) as [ts|]; [|by split; [left|]].
      case_bool_decide as Hts; [subst ts; by split; [right|] |].
      split; [done | intros [?|?]; congruence]. }
    unfold resume_handleEvent. rewrite Hi, Hst. simpl.
    rewrite Hreq. simpl.
    destruct (recorded_handle st) as [ts|] eqn:Hrec.
    + assert (stopMessageTs st = Some ts) as Hts.
      { unfold recorded_handle, Js.truthy in Hrec.
        destruct (stopMessageTs st) as [ts'|]; [|done].
        by case_bool_decide; simplify_eq. }
      eexists. split_and!; [reflexivity | reflexivity | exact Hts | reflexivity | |].
      * intros v. rewrite suspend_runs.
        rewrite list_lookup_insert_eq by (by eapply lookup_lt_Some).
        eexists. split_and!; [reflexivity | reflexivity |]. simpl.
        rewrite !lookup_alter_eq, Hst. simpl.
        destruct st as [rn sr sm]; simpl in *. by subst.
      * intros err. rewrite suspend_runs.
        rewrite list_lookup_insert_eq by (by eapply lookup_lt_Some).
        eexists. split_and!; [reflexivity | reflexivity |]. simpl.
        by rewrite lookup_alter_eq, Hst.
    + eexists. split_and!; [reflexivity | reflexivity | reflexivity |].
      intros r. rewrite suspend_runs.
      rewrite list_lookup_insert_eq by (by eapply lookup_lt_Some).
      eexists. split_and!; [reflexivity | reflexivity |]. simpl.
      by rewrite lookup_alter_eq, Hst.
  - intros i st r Hi Hst Hr.
    unfold resume_handleEvent. rewrite Hi.
    destruct r as [stopReason|err].
    + rewrite Hst. simpl.
      assert (bool_decide (stopReason = "aborted") && stopRequested st = false) as ->.
      { destruct Hr as [Hne| ->]; [by rewrite bool_decide_eq_false_2 | apply andb_false_r]. }
      eexists. split_and!; [reflexivity..|]. simpl. by rewrite lookup_alter_eq, Hst.
    + eexists. split_and!; [reflexivity..|]. simpl. by rewrite lookup_alter_eq, Hst.
Qed.

End StopFacts.

Lemma handleStop_idle_only_reports_witness :
  Main.effects (Main.handleStop "42" Main.init) = [Main.PostMessage "42" "_Nothing running_"] ∧
  Main.channelStates (Main.handleStop "42" Main.init) = ∅ ∧
  Main.isRunning "42" (Main.handleStop "42" Main.init) = false.
Proof.
  destruct (handleStop_idle_only_reports "42" Main.init) as (Hc & _ & _ & He & Hr);
    [reflexivity|].
  split_and!; [exact He | exact Hc | exact Hr].
Defined.

(** A run on chat 42 is stopped; the "_Stopping..._" post comes back with
    handle 7 before the run ends. *)
Lemma stop_indicator_finalized_in_place_witness :
  let s := Main.handleEvent "42" Main.init in
  ∃ s1 s2 s3 s4,
    s1 = Main.handleStop "42" s ∧
    Main.resume_handleStop "42" (Js.Fulfilled "7") s1 = Some s2 ∧
    Main.resume_handleEvent "42" 0 (Js.Fulfilled "aborted") s2 = Some s3 ∧
    Main.resume_handleEvent "42" 0 (Js.Fulfilled EmptyString) s3 = Some s4 ∧
    Main.effects s4 = [Main.RunnerAbort "42"; Main.PostMessage "42" "_Stopping..._";
                       Main.UpdateMessage "42" "7" "_Stopped_"] ∧
    Main.channelStates s4 !! "42" =
      Some {| Main.running := false; Main.stopRequested := true; Main.stopMessageTs := None |}.
Proof.
  intros s.
  destruct (stop_indicator_finalized_in_place "42" s) as (Hstop & _).
  destruct Hstop as (st & Hst & Hst1 & He1 & Hts & _); [reflexivity|].
  destruct (Hts "7") as (s2 & Hs2 & Hst2 & He2).
  destruct (stop_indicator_finalized_in_place "42" s2) as (_ & Hfin & _).
  destruct (Hfin 0%nat _ ltac:(injection Hs2 as <-; reflexivity) Hst2 ltac:(reflexivity))
    as (_ & s3 & Hs3 & _ & Hedit).
  change (Main.recorded_handle _) with (Some "7") in Hedit.
  destruct Hedit as (_ & He3 & Hclear & _).
  destruct (Hclear EmptyString) as (s4 & Hs4 & He4 & Hst4).
  exists (Main.handleStop "42" s), s2, s3, s4.
  split_and!; [reflexivity | exact Hs2 | exact Hs3 | exact Hs4 | | exact Hst4].
  rewrite He4, He3, He2, He1. reflexivity.
Defined.

(** C6 as stated fails when the run ends first: [handleStop] signals the
    abort before it awaits the "_Stopping..._" post, so the aborted run
    can reach its test of [state.stopMessageTs] while no handle is
    recorded yet.  The handler then posts a new "_Stopped_" message and
    edits nothing. *)
Lemma stopped_is_posted_anew_when_the_run_ends_first :
  ∃ s,
    Main.exec [Main.CallHandleEvent "42"; Main.CallHandleStop "42";
               Main.ResumeHandleEvent "42" 0 (Js.Fulfilled "aborted")] Main.init = Some s ∧
    Main.effects s = [Main.RunnerAbort "42"; Main.PostMessage "42" "_Stopping..._";
                      Main.PostMessage "42" "_Stopped_"] ∧
    Main.runs_of "42" s = [Main.AwaitStoppedPost] ∧
    Main.stops_of "42" s = 1%nat ∧
    Main.channelStates s !! "42" =
      Some {| Main.running := true; Main.stopRequested := true; Main.stopMessageTs := None |}.
Proof.
  eexists. split; [vm_compute; reflexivity|].
  split_and!; vm_compute; reflexivity.
Qed.

(** ** The Telegram work queue *)

Section QueueFacts.
Import TelegramQueue.
Implicit Types (q : TelegramQueue.t) (c : string) (w : QueuedWork) (ev : MomEvent).

(** *** One step of the drain loop *)

Lemma drain_cons c q w rest :
  queues q !! c = Some (w :: rest) →
  pending c (drain c q) = rest ∧
  busy c (drain c q) = busy c q ∧
  awaited (drain c q) !! c = Some w ∧
  history (drain c q) = history q ++ [Started c w].
Proof.
  intros Hq. unfold drain, pending, busy. rewrite Hq. simpl.
  by rewrite !lookup_insert_eq.
Qed.

Lemma drain_nil c q :
  pending c q = [] →
  pending c (drain c q) = [] ∧
  busy c (drain c q) = false ∧
  awaited (drain c q) !! c = None ∧
  history (drain c q) = history q.
Proof.
  unfold drain, pending, busy. intros Hq.
  destruct (queues q !! c) as [[|w rest]|] eqn:E; simpl in *; try done;
    by rewrite E, lookup_insert_eq, lookup_delete_eq.
Qed.

Lemma drain_frame c c' q :
  c ≠ c' →
  pending c' (drain c q) = pending c' q ∧
  busy c' (drain c q) = busy c' q ∧
  awaited (drain c q) !! c' = awaited q !! c'.
Proof.
  intros Hne. unfold drain, pending, busy.
  destruct (queues q !! c) as [[|w rest]|]; simpl;
    by rewrite ?lookup_insert_ne, ?lookup_delete_ne.
Qed.

(** *** [enqueueEvent]: the capacity test *)

Lemma enqueueEvent_full ev q :
  (5 ≤ length (pending (channel ev) q))%nat → enqueueEvent ev q = (false, q).
Proof.
  intros Hlen. unfold enqueueEvent. by rewrite (proj2 (Nat.leb_le _ _) Hlen).
Qed.

Lemma enqueueEvent_accepts ev q :
  (length (pending (channel ev) q) < 5)%nat →
  enqueueEvent ev q = (true, enqueueWork (channel ev) {| event := ev; isEvent := true |} q).
Proof.
  intros Hlen. unfold enqueueEvent.
  by rewrite (proj2 (Nat.leb_gt _ _) Hlen).
Qed.

Lemma enqueueWork_busy c w q :
  busy c q = true →
  pending c (enqueueWork c w q) = pending c q ++ [w] ∧
  busy c (enqueueWork c w q) = true ∧
  awaited (enqueueWork c w q) = awaited q ∧
  history (enqueueWork c w q) = history q.
Proof.
  intros Hb. unfold enqueueWork, processQueue.
  change (busy c {| queues := _; processing := processing q; awaited := _; history := _ |})
    with (busy c q).
  rewrite Hb. unfold pending at 1. simpl. by rewrite lookup_insert_eq.
Qed.

Lemma enqueueWork_idle c w q :
  busy c q = false →
  pending c q = [] →
  pending c (enqueueWork c w q) = [] ∧
  busy c (enqueueWork c w q) = true ∧
  awaited (enqueueWork c w q) !! c = Some w ∧
  history (enqueueWork c w q) = history q ++ [Started c w].
Proof.
  intros Hb Hp. unfold enqueueWork, processQueue.
  change (busy c {| queues := _; processing := processing q; awaited := _; history := _ |})
    with (busy c q).
  rewrite Hb, Hp. unfold drain, pending, busy. simpl.
  rewrite lookup_insert_eq. simpl. by rewrite !lookup_insert_eq.
Qed.

(** Calls of [enqueueEvent] on a channel whose drain loop is suspended:
    all are accepted while they fit, and they queue up in order. *)
Lemma enqueueEvents_busy c evs q :
  Forall (λ ev, channel ev = c) evs →
  busy c q = true →
  (length (pending c q) + length evs ≤ 5)%nat →
  fst (enqueueEvents evs q) = replicate (length evs) true ∧
  pending c (snd (enqueueEvents evs q)) =
    pending c q ++ List.map (λ ev, {| event := ev; isEvent := true |}) evs ∧
  busy c (snd (enqueueEvents evs q)) = true ∧
  awaited (snd (enqueueEvents evs q)) = awaited q ∧
  history (snd (enqueueEvents evs q)) = history q.
Proof.
  revert q. induction evs as [|ev evs IH]; intros q Hc Hb Hlen; simpl.
  - by rewrite app_nil_r.
  - apply Forall_cons in Hc as [Hev Hc]. simpl in Hlen.
    rewrite enqueueEvent_accepts by (rewrite Hev; lia).
    rewrite Hev.
    destruct (enqueueWork_busy c {| event := ev; isEvent := true |} q Hb) as (Hp1 & Hb1 & Ha1 & Hh1).
    specialize (IH (enqueueWork c {| event := ev; isEvent := true |} q) Hc Hb1).
    destruct (enqueueEvents evs _) as [oks q2]. simpl in *.
    destruct IH as (-> & -> & -> & -> & ->); [rewrite Hp1, length_app; simpl; lia|].
    rewrite Hp1, <- app_assoc. by split_and!.
Qed.

Lemma enqueueEvents_app evs1 evs2 q :
  enqueueEvents (evs1 ++ evs2) q =
    (fst (enqueueEvents evs1 q) ++ fst (enqueueEvents evs2 (snd (enqueueEvents evs1 q))),
     snd (enqueueEvents evs2 (snd (enqueueEvents evs1 q)))).
Proof.
  revert q. induction evs1 as [|ev evs1 IH]; intros q; simpl.
  - by destruct (enqueueEvents evs2 q).
  - destruct (enqueueEvent ev q) as [ok q1]. rewrite IH.
    destruct (enqueueEvents evs1 q1) as [oks q2]. simpl.
    by destruct (enqueueEvents evs2 q2).
Qed.

(** C2, as the code has it.  [enqueueEvent] returns false exactly when
    five items already wait in the channel's queue, and then changes
    nothing; the item the drain loop has taken out and is awaiting does
    not count.  With the drain blocked this gives: on a channel whose
    loop is already suspended on an item, five calls are accepted and
    queue up in order and the sixth returns false; on an idle channel the
    first call's item is started at once, so six calls are accepted (one
    running, five waiting) and the seventh returns false. *)
Theorem bounded_queue_capacity c q evs extra :
  Forall (λ ev, channel ev = c) evs →
  channel extra = c →
  (fst (enqueueEvent extra q) = false ↔ (5 ≤ length (pending c q))%nat) ∧
  (fst (enqueueEvent extra q) = false → snd (enqueueEvent extra q) = q) ∧
  (busy c q = true → pending c q = [] → length evs = 5%nat →
     fst (enqueueEvents (evs ++ [extra]) q) = [true; true; true; true; true; false] ∧
     pending c (snd (enqueueEvents (evs ++ [extra]) q)) =
       List.map (λ ev, {| event := ev; isEvent := true |}) evs ∧
     awaited (snd (enqueueEvents (evs ++ [extra]) q)) = awaited q) ∧
  (busy c q = false → pending c q = [] → length evs = 5%nat →
     ∀ first, channel first = c →
     fst (enqueueEvents (first :: evs ++ [extra]) q) = [true; true; true; true; true; true; false] ∧
     awaited (snd (enqueueEvents (first :: evs ++ [extra]) q)) !! c =
       Some {| event := first; isEvent := true |} ∧
     pending c (snd (enqueueEvents (first :: evs ++ [extra]) q)) =
       List.map (λ ev, {| event := ev; isEvent := true |}) evs ∧
     history (snd (enqueueEvents (first :: evs ++ [extra]) q)) =
       history q ++ [Started c {| event := first; isEvent := true |}]).
Proof.
  intros Hevs Hextra.
  assert (Hblocked : ∀ q0, busy c q0 = true → pending c q0 = [] → length evs = 5%nat →
     fst (enqueueEvents (evs ++ [extra]) q0) = [true; true; true; true; true; false] ∧
     pending c (snd (enqueueEvents (evs ++ [extra]) q0)) =
       List.map (λ ev, {| event := ev; isEvent := true |}) evs ∧
     awaited (snd (enqueueEvents (evs ++ [extra]) q0)) = awaited q0 ∧
     history (snd (enqueueEvents (evs ++ [extra]) q0)) = history q0).
  { intros q0 Hb Hp Hlen. rewrite enqueueEvents_app. simpl.
    destruct (enqueueEvents_busy c evs q0 Hevs Hb) as (Hoks & Hpend & Hbusy & Haw & Hhist);
      [rewrite Hp; simpl; lia|].
    rewrite Hp in Hpend. simpl in Hpend.
    rewrite enqueueEvent_full
      by (rewrite Hextra, Hpend, length_map; lia).
    simpl. rewrite Hoks, Hlen. by split_and!. }
  split_and!.
  - unfold enqueueEvent. rewrite Hextra.
    destruct (5 <=? length (pending c q))%nat eqn:E; simpl.
    + apply Nat.leb_le in E. done.
    + apply Nat.leb_gt in E. split; [done | lia].
  - unfold enqueueEvent. by destruct (5 <=? _)%nat.
  - intros Hb Hempty Hlen. destruct (Hblocked q Hb Hempty Hlen) as (? & ? & ? & _). done.
  - intros Hb Hempty Hlen first Hfirst.
    change (first :: evs ++ [extra]) with ([first] ++ (evs ++ [extra])).
    rewrite enqueueEvents_app. simpl.
    rewrite enqueueEvent_accepts by (rewrite Hfirst, Hempty; simpl; lia).
    simpl. rewrite Hfirst.
    destruct (enqueueWork_idle c {| event := first; isEvent := true |} q Hb Hempty)
      as (Hp1 & Hb1 & Ha1 & Hh1).
    destruct (Hblocked _ Hb1 Hp1 Hlen) as (-> & -> & -> & ->).
    by split_and!.
Qed.

End QueueFacts.


(** C2 as stated fails: on an idle chat whose handler never finishes, the
    sixth of six calls of [enqueueEvent] is accepted, not rejected; the
    first item is running and five wait in the queue. *)
Lemma sixth_enqueueEvent_is_accepted :
  let evs := List.map demo_event ["1"; "2"; "3"; "4"; "5"; "6"] in
  fst (TelegramQueue.enqueueEvents evs TelegramQueue.create) =
    [true; true; true; true; true; true] ∧
  TelegramQueue.started_on "42" (TelegramQueue.history (snd (TelegramQueue.enqueueEvents evs TelegramQueue.create))) =
    [TelegramQueue.mkWork (demo_event "1") true] ∧
  length (TelegramQueue.pending "42" (snd (TelegramQueue.enqueueEvents evs TelegramQueue.create))) = 5%nat.
Proof. vm_compute. by split_and!. Qed.

Lemma bounded_queue_capacity_witness :
  let evs := List.map demo_event ["2"; "3"; "4"; "5"; "6"] in
  let all := demo_event "1" :: evs ++ [demo_event "7"] in
  fst (TelegramQueue.enqueueEvents all TelegramQueue.create) =
    [true; true; true; true; true; true; false] ∧
  TelegramQueue.pending "42" (snd (TelegramQueue.enqueueEvents all TelegramQueue.create)) =
    List.map (λ ev, TelegramQueue.mkWork ev true) evs.
Proof.
  intros evs all.
  destruct (bounded_queue_capacity "42" TelegramQueue.create evs (demo_event "7"))
    as (_ & _ & _ & Hidle).
  - subst evs. repeat constructor.
  - reflexivity.
  - destruct (Hidle eq_refl eq_refl eq_refl (demo_event "1") eq_refl) as (Hoks & _ & Hpend & _).
    split; [exact Hoks | exact Hpend].
Defined.

(** *** The drain loop: order and exclusion *)

Section QueueOrderFacts.
Import TelegramQueue.
Implicit Types (q : TelegramQueue.t) (c : string) (w : QueuedWork) (h : list entry).

Lemma pending_cons c q w rest :
  pending c q = w :: rest → queues q !! c = Some (w :: rest).
Proof. unfold pending. by destruct (queues q !! c) as [l|]; simpl; [intros ->|]. Qed.

Lemma started_on_app c h1 h2 : started_on c (h1 ++ h2) = started_on c h1 ++ started_on c h2.
Proof. apply omap_app. Qed.

Lemma finished_on_app c h1 h2 : finished_on c (h1 ++ h2) = finished_on c h1 ++ finished_on c h2.
Proof. apply omap_app. Qed.

Lemma in_flight_app c h1 h2 :
  in_flight c (h1 ++ h2) = fold_left (replay_entry c) h2 (in_flight c h1).
Proof. apply fold_left_app. Qed.

Lemma outcome_entries_started c c' w r : started_on c' (outcome_entries c w r) = [].
Proof. by destruct r. Qed.

Lemma outcome_entries_finished c w r : finished_on c (outcome_entries c w r) = [w].
Proof. destruct r; simpl; by rewrite bool_decide_eq_true_2. Qed.

Lemma outcome_entries_finished_ne c c' w r : c ≠ c' → finished_on c' (outcome_entries c w r) = [].
Proof. intros Hne. destruct r; simpl; by rewrite bool_decide_eq_false_2. Qed.

Lemma outcome_entries_replay c w r :
  fold_left (replay_entry c) (outcome_entries c w r) (Some (Some w)) = Some None.
Proof.
  destruct r; simpl; repeat (rewrite bool_decide_eq_true_2 by done; simpl); done.
Qed.

Lemma outcome_entries_replay_ne c c' w r st :
  c ≠ c' → fold_left (replay_entry c') (outcome_entries c w r) st = st.
Proof.
  intros Hne. destruct st as [cur|]; destruct r; simpl;
    repeat (rewrite bool_decide_eq_false_2 by done; simpl); done.
Qed.

(** The loop's test and the next item, by what waits in the queue. *)
Lemma drain_spec c q :
  match pending c q with
  | w :: rest =>
      pending c (drain c q) = rest ∧ busy c (drain c q) = busy c q ∧
      awaited (drain c q) !! c = Some w ∧ history (drain c q) = history q ++ [Started c w]
  | [] =>
      pending c (drain c q) = [] ∧ busy c (drain c q) = false ∧
      awaited (drain c q) !! c = None ∧ history (drain c q) = history q
  end.
Proof.
  destruct (pending c q) as [|w rest] eqn:E.
  - by apply drain_nil.
  - by apply drain_cons, pending_cons.
Qed.

Lemma drain_other c c' q :
  c ≠ c' →
  pending c' (drain c q) = pending c' q ∧
  busy c' (drain c q) = busy c' q ∧
  awaited (drain c q) !! c' = awaited q !! c' ∧
  started_on c' (history (drain c q)) = started_on c' (history q) ∧
  finished_on c' (history (drain c q)) = finished_on c' (history q) ∧
  in_flight c' (history (drain c q)) = in_flight c' (history q).
Proof.
  intros Hne. destruct (drain_frame c c' q Hne) as (-> & -> & ->).
  split_and!; try done; unfold drain;
    destruct (queues q !! c) as [[|w rest]|]; simpl; try done;
    rewrite ?started_on_app, ?finished_on_app, ?in_flight_app; simpl;
    rewrite ?bool_decide_eq_false_2 by done; rewrite ?app_nil_r; try done.
  destruct (in_flight c' (history q)); simpl; [|done].
  by rewrite bool_decide_eq_false_2.
Qed.


Lemma sequential_create c : sequential c create.
Proof.
  unfold sequential, in_flight, busy, pending; simpl. rewrite !lookup_empty. simpl.
  split_and!; done.
Qed.

Lemma sequential_enqueueWork c c' w q :
  sequential c q → sequential c (enqueueWork c' w q).
Proof.
  intros (Hfl & Hsf & Hbusy & Hidle).
  destruct (decide (c' = c)) as [->|Hne].
  - destruct (busy c q) eqn:Eb.
    + destruct (enqueueWork_busy c w q Eb) as (Hp & Hb & Ha & Hh).
      unfold sequential. rewrite Hp, Hb, Ha, Hh. split_and!; try done.
      intros Hnone. destruct Hbusy as [Hbusy _]. destruct (Hbusy eq_refl) as [? ?]. congruence.
    + assert (awaited q !! c = None) as Hnone.
      { destruct (awaited q !! c) eqn:E; [|done].
        destruct Hbusy as [_ Hbusy].
        assert (false = true) by (apply Hbusy; by eexists). done. }
      destruct (enqueueWork_idle c w q Eb (Hidle Hnone)) as (Hp & Hb & Ha & Hh).
      unfold sequential. rewrite Hp, Hb, Ha, Hh, started_on_app, in_flight_app, finished_on_app.
      rewrite Hfl, Hsf, Hnone. simpl. rewrite bool_decide_eq_true_2 by done.
      rewrite !app_nil_r. split_and!; try done; eauto.
  - unfold enqueueWork, processQueue.
    match goal with |- sequential c (if busy c' ?q0 then _ else _) =>
      assert (sequential c q0) as Hq0 by (unfold sequential, pending, busy in *; simpl;
        rewrite ?lookup_insert_ne by done; done)
    end.
    destruct (busy c' _); [done|].
    match goal with |- sequential c (drain c' ?q1) =>
      assert (sequential c q1) as Hq1 by (unfold sequential, pending, busy in *; simpl in *;
        rewrite ?lookup_insert_ne by done; done);
      destruct (drain_other c' c q1 Hne) as (Hp & Hb & Ha & Hs & Hf & Hi)
    end.
    unfold sequential. rewrite Hp, Hb, Ha, Hs, Hf, Hi. exact Hq1.
Qed.

Lemma sequential_settle c c' r q q' :
  sequential c q → settle c' r q = Some q' → sequential c q'.
Proof.
  intros (Hfl & Hsf & Hbusy & Hidle). unfold settle.
  destruct (awaited q !! c') as [w|] eqn:Ew; [|done]. simpl. intros [= <-].
  destruct (decide (c' = c)) as [->|Hne].
  - pose proof (drain_spec c (record (outcome_entries c w r) q)) as Hd.
    change (pending c (record _ q)) with (pending c q) in Hd.
    change (busy c (record _ q)) with (busy c q) in Hd.
    change (history (record ?es q)) with (history q ++ es) in Hd.
    rewrite Ew in Hfl, Hsf. simpl in Hsf.
    destruct (pending c q) as [|w' rest];
      destruct Hd as (Hp & Hb & Ha & Hh); unfold sequential;
      rewrite Hp, Hb, Ha, Hh, ?started_on_app, ?finished_on_app, ?in_flight_app;
      rewrite ?outcome_entries_started, ?outcome_entries_finished, Hfl, Hsf,
        ?outcome_entries_replay; simpl; rewrite ?bool_decide_eq_true_2 by done;
      rewrite ?app_nil_r.
    + split_and!; done.
    + split_and!; try done.
      split; [by eexists|]. intros _. apply Hbusy. rewrite Ew. by eexists.
  - destruct (drain_other c' c (record (outcome_entries c' w r) q) Hne)
      as (Hp & Hb & Ha & Hs & Hf & Hi).
    unfold sequential. rewrite Hp, Hb, Ha, Hs, Hf, Hi.
    change (history (record ?es q)) with (history q ++ es).
    rewrite started_on_app, finished_on_app, in_flight_app.
    rewrite outcome_entries_started, outcome_entries_finished_ne by done.
    rewrite outcome_entries_replay_ne by done. rewrite !app_nil_r.
    by split_and!.
Qed.

Lemma sequential_step c a q q' :
  sequential c q → step a q = Some q' → sequential c q'.
Proof.
  intros Hseq. destruct a as [c' w|ev|c' r]; simpl.
  - intros [= <-]. by apply sequential_enqueueWork.
  - intros [= <-]. unfold enqueueEvent. destruct (5 <=? _)%nat; simpl; [done|].
    by apply sequential_enqueueWork.
  - by apply sequential_settle.
Qed.

Lemma sequential_exec c acts q q' :
  sequential c q → exec acts q = Some q' → sequential c q'.
Proof.
  revert q. induction acts as [|a acts IH]; intros q Hseq; simpl.
  - by intros [= <-].
  - destruct (step a q) as [q1|] eqn:E; [|done]. simpl.
    apply IH. by eapply sequential_step.
Qed.

(** Nothing is lost and nothing overtakes: what has been started,
    followed by what still waits, is what was there before followed by
    what the action handed in. *)
Lemma drain_fifo c c' q :
  started_on c (history (drain c' q)) ++ pending c (drain c' q) =
  started_on c (history q) ++ pending c q.
Proof.
  destruct (decide (c' = c)) as [->|Hne].
  - pose proof (drain_spec c q) as Hd.
    destruct (pending c q) as [|w rest]; destruct Hd as (-> & _ & _ & ->); [done|].
    rewrite started_on_app. simpl. rewrite bool_decide_eq_true_2 by done.
    by rewrite <- app_assoc.
  - by destruct (drain_other c' c q Hne) as (-> & _ & _ & -> & _).
Qed.

Lemma enqueueWork_fifo c c' w q :
  started_on c (history (enqueueWork c' w q)) ++ pending c (enqueueWork c' w q) =
  started_on c (history q) ++ pending c q ++ (if bool_decide (c' = c) then [w] else []).
Proof.
  unfold enqueueWork, processQueue.
  match goal with |- context [if busy c' ?q0 then _ else _] =>
    assert (started_on c (history q0) ++ pending c q0 =
            started_on c (history q) ++ pending c q ++ (if bool_decide (c' = c) then [w] else []))
      as Hq0
  end.
  { simpl. f_equal. unfold pending at 1. simpl. case_bool_decide as Hc.
    - subst. by rewrite lookup_insert_eq.
    - rewrite lookup_insert_ne by done. by rewrite app_nil_r. }
  destruct (busy c' _); [done|].
  rewrite drain_fifo. exact Hq0.
Qed.

Lemma step_fifo c a q q' :
  step a q = Some q' →
  started_on c (history q') ++ pending c q' =
  started_on c (history q) ++ pending c q ++ submitted_on c [a] q.
Proof.
  destruct a as [c' w|ev|c' r]; simpl.
  - intros [= <-]. rewrite enqueueWork_fifo. by rewrite app_nil_r.
  - intros [= <-]. unfold enqueueEvent. destruct (5 <=? _)%nat; simpl.
    + by rewrite andb_false_r, !app_nil_r.
    + rewrite enqueueWork_fifo, andb_true_r. by rewrite app_nil_r.
  - unfold settle. destruct (awaited q !! c') as [w|]; [|done]. simpl. intros [= <-].
    rewrite drain_fifo.
    change (history (record ?es q)) with (history q ++ es).
    rewrite started_on_app, outcome_entries_started. by rewrite !app_nil_r.
Qed.

Lemma exec_fifo c acts q q' :
  exec acts q = Some q' →
  started_on c (history q') ++ pending c q' =
  started_on c (history q) ++ pending c q ++ submitted_on c acts q.
Proof.
  revert q. induction acts as [|a acts IH]; intros q; simpl.
  - intros [= <-]. by rewrite app_nil_r.
  - destruct (step a q) as [q1|] eqn:E; [|done]. simpl. intros Hexec.
    rewrite (IH q1 Hexec). pose proof (step_fifo c a q q1 E) as Hstep.
    simpl in Hstep. rewrite E in Hstep. rewrite app_nil_r in Hstep.
    rewrite app_assoc, Hstep. by rewrite <- !app_assoc.
Qed.

(** Whatever way the items settle, the loop works the queue off. *)
Lemma settle_all c rs q w :
  awaited q !! c = Some w →
  length rs = S (length (pending c q)) →
  ∃ q', exec (Settle c <$> rs) q = Some q' ∧
        pending c q' = [] ∧ awaited q' !! c = None ∧
        started_on c (history q') = started_on c (history q) ++ pending c q ∧
        finished_on c (history q') = finished_on c (history q) ++ w :: pending c q.
Proof.
  revert q w. induction rs as [|r rs IH]; intros q w Hw Hlen; [done|].
  simpl. unfold settle at 1. rewrite Hw. simpl.
  pose proof (drain_spec c (record (outcome_entries c w r) q)) as Hd.
  change (pending c (record _ q)) with (pending c q) in Hd.
  change (history (record ?es q)) with (history q ++ es) in Hd.
  set (q1 := drain c (record (outcome_entries c w r) q)) in *.
  destruct (pending c q) as [|w' rest] eqn:Ep; destruct Hd as (Hp & _ & Ha & Hh).
  - destruct rs; [|done]. exists q1. simpl.
    rewrite Hp, Ha, Hh, started_on_app, finished_on_app.
    rewrite outcome_entries_started, outcome_entries_finished. by rewrite !app_nil_r.
  - destruct (IH q1 w' Ha) as (q' & Hexec & Hp' & Ha' & Hs' & Hf').
    { rewrite Hp. simpl in Hlen. lia. }
    exists q'. split; [exact Hexec|]. rewrite Hp', Ha', Hs', Hf', Hp, Hh.
    rewrite !started_on_app, !finished_on_app.
    rewrite outcome_entries_started, outcome_entries_finished. simpl.
    rewrite bool_decide_eq_true_2 by done. rewrite !app_nil_r.
    by rewrite <- !app_assoc.
Qed.

(** A rejection is logged and changes nothing else. *)
Lemma settle_threw c w err q :
  awaited q !! c = Some w →
  ∃ q1 q2, settle c (Js.Threw err) q = Some q1 ∧
           settle c (Js.Fulfilled ()) q = Some q2 ∧
           queues q1 = queues q2 ∧ processing q1 = processing q2 ∧
           awaited q1 = awaited q2 ∧
           QueueError c w err ∈ history q1.
Proof.
  intros Hw. unfold settle. rewrite Hw. simpl. eexists _, _.
  split_and!; [reflexivity | reflexivity | | | |];
    unfold drain, record; simpl;
    destruct (queues q !! c) as [[|w' rest]|]; simpl; try done;
    rewrite ?elem_of_app, ?elem_of_cons; tauto.
Qed.

(** C5. For every sequence of enqueues and settlements: the items of a
    channel are started in the order in which they were handed in and
    none is skipped; the history never has two items of the channel in
    flight, each one being finished before the next is started; a
    rejected item is logged and the loop goes on exactly as after a
    fulfilled one; and whatever the outcomes of the items, rejections
    included, after as many settlements as items are outstanding every
    item handed in has run to its end, in order. *)
Theorem queue_runs_in_order_one_at_a_time acts q c :
  exec acts create = Some q →
  started_on c (history q) ++ pending c q = submitted_on c acts create ∧
  in_flight c (history q) = Some (awaited q !! c) ∧
  started_on c (history q) = finished_on c (history q) ++ option_list (awaited q !! c) ∧
  (∀ w err, awaited q !! c = Some w →
     ∃ q1 q2, settle c (Js.Threw err) q = Some q1 ∧
              settle c (Js.Fulfilled ()) q = Some q2 ∧
              queues q1 = queues q2 ∧ processing q1 = processing q2 ∧
              awaited q1 = awaited q2 ∧
              QueueError c w err ∈ history q1) ∧
  ∀ rs : list (Js.settled unit),
    length rs = (length (pending c q) + length (option_list (awaited q !! c)))%nat →
    ∃ q', exec (Settle c <$> rs) q = Some q' ∧
          pending c q' = [] ∧ awaited q' !! c = None ∧
          started_on c (history q') = submitted_on c acts create ∧
          finished_on c (history q') = submitted_on c acts create.
Proof.
  intros Hexec.
  assert (Hthrew := λ w err, settle_threw c w err q).
  pose proof (exec_fifo c acts create q Hexec) as Hfifo.
  change (started_on c (history create)) with (@nil QueuedWork) in Hfifo.
  assert (pending c create = []) as Hpc by (unfold pending; simpl; by rewrite lookup_empty).
  rewrite Hpc in Hfifo. simpl in Hfifo.
  destruct (sequential_exec c acts create q (sequential_create c) Hexec)
    as (Hfl & Hsf & Hbusy & Hidle).
  split_and!; try done.
  intros rs Hlen. destruct (awaited q !! c) as [w|] eqn:Ew; simpl in *.
  - destruct (settle_all c rs q w Ew) as (q' & He & Hp & Ha & Hs & Hf); [lia|].
    exists q'. split_and!; try done.
    + by rewrite Hs, Hfifo.
    + rewrite Hf, <- Hfifo, Hsf. by rewrite <- app_assoc.
  - rewrite (Hidle eq_refl) in *. destruct rs; [|simpl in Hlen; lia].
    exists q. simpl. rewrite Ew, (Hidle eq_refl).
    split_and!; try done.
    + by rewrite <- Hfifo, app_nil_r.
    + by rewrite <- Hfifo, Hsf, !app_nil_r.
Qed.

End QueueOrderFacts.

(** A user message and two scheduled events on chat 42, the first of
    which fails, and a message on another chat. *)
Lemma queue_runs_in_order_one_at_a_time_witness :
  let w1 := TelegramQueue.mkWork (demo_event "1") false in
  let w2 := TelegramQueue.mkWork (demo_event "2") true in
  let w3 := TelegramQueue.mkWork (demo_event "3") true in
  let acts := [TelegramQueue.EnqueueWork "42" w1;
               TelegramQueue.EnqueueEvent (demo_event "2");
               TelegramQueue.EnqueueEvent (demo_event "3");
               TelegramQueue.Settle "42" (Js.Threw "boom");
               TelegramQueue.EnqueueWork "7" w1] in
  ∃ q, TelegramQueue.exec acts TelegramQueue.create = Some q ∧
       TelegramQueue.in_flight "42" (TelegramQueue.history q) = Some (Some w2) ∧
       ∃ q', TelegramQueue.exec
               (TelegramQueue.Settle "42" <$> [Js.Threw "late"; Js.Fulfilled ()]) q = Some q' ∧
             TelegramQueue.finished_on "42" (TelegramQueue.history q') = [w1; w2; w3].
Proof.
  intros w1 w2 w3 acts.
  destruct (TelegramQueue.exec acts TelegramQueue.create) as [q|] eqn:E;
    [|vm_compute in E; discriminate].
  destruct (queue_runs_in_order_one_at_a_time acts q "42" E) as (_ & Hfl & _ & _ & Hall).
  assert (q = default TelegramQueue.create (TelegramQueue.exec acts TelegramQueue.create)) as Hq
    by (by rewrite E).
  exists q. split; [reflexivity|]. split.
  - rewrite Hfl. rewrite Hq. vm_compute. reflexivity.
  - destruct (Hall [Js.Threw "late"; Js.Fulfilled ()]) as (q' & Hexec & _ & _ & _ & Hfin).
    + rewrite Hq. vm_compute. reflexivity.
    + exists q'. split; [exact Hexec|]. rewrite Hfin. vm_compute. reflexivity.
Defined.

(** ** The Telegram rendering context *)


Section ContextFacts.
Import TelegramContext.
Context {B : Type} `{Bot B}.
Variable channel : string.
Variable eventFilename : option string.
Implicit Types (w : world (B := B)) (p : TelegramContext.t (B := B)) (v : vars) (n : nat).

Local Abbreviation updateDisplay := (TelegramContext.updateDisplay channel eventFilename).
Local Abbreviation run_job := (TelegramContext.run_job channel eventFilename).
Local Abbreviation invoke := (TelegramContext.invoke channel).
Local Abbreviation turn := (TelegramContext.turn channel eventFilename).
Local Abbreviation step := (TelegramContext.step channel eventFilename).
Local Abbreviation exec := (TelegramContext.exec channel eventFilename).

Lemma extends_refl n w : extends n w w.
Proof. exists []. by rewrite app_nil_r. Qed.

Lemma extends_trans n w1 w2 w3 : extends n w1 w2 → extends n w2 w3 → extends n w1 w3.
Proof.
  intros [ops1 H1] [ops2 H2]. exists (ops1 ++ ops2).
  by rewrite H2, H1, fmap_app, app_assoc.
Qed.

Lemma extends_emit n o w b : extends n w (emit n o w b).
Proof. by exists [o]. Qed.

Lemma extends_with_vars n v w w' : extends n w w' → extends n w (with_vars v w').
Proof. done. Qed.

Lemma extends_from_with_vars n v w w' : extends n (with_vars v w) w' → extends n w w'.
Proof. done. Qed.

Lemma postMessage_spec n text w :
  extends n w (snd (postMessage channel n text w)) ∧
  wvars (snd (postMessage channel n text w)) = wvars w.
Proof.
  unfold postMessage. destruct (sendMessage _ _ _) as [r b]. simpl.
  split; [apply extends_emit | done].
Qed.

Lemma updateMessage_spec n id text w :
  extends n w (snd (updateMessage channel n id text w)) ∧
  wvars (snd (updateMessage channel n id text w)) = wvars w.
Proof.
  unfold updateMessage. destruct (editMessageText _ _ _ _) as [r b]. simpl.
  split; [apply extends_emit | done].
Qed.

(** [updateDisplay] performs operations of the current call and assigns
    [messageId] at most. *)
Lemma updateDisplay_spec n w :
  extends n w (snd (updateDisplay n w)) ∧
  ∃ id, wvars (snd (updateDisplay n w)) = set_messageId id (wvars w).
Proof.
  unfold TelegramContext.updateDisplay.
  set (display := if isWorking (wvars w) then _ else _).
  assert (∃ id, wvars w = set_messageId id (wvars w)) as Hsame.
  { exists (messageId (wvars w)). by destruct (wvars w). }
  destruct (Js.truthy (messageId (wvars w))) as [id|].
  - destruct (updateMessage_spec n id display w) as [He ->]. done.
  - destruct (bool_decide (display = EmptyString)); [split; [apply extends_refl | done]|].
    destruct (postMessage_spec n display w) as [He Hv].
    destruct (postMessage channel n display w) as [[id|err] w']; simpl in *; [|by rewrite Hv].
    split; [done|]. exists (Some id). by rewrite Hv.
Qed.

Lemma updateDisplay_window n w : window_is (wvars w) (snd (updateDisplay n w)).
Proof. unfold window_is. destruct (updateDisplay_spec n w) as [_ [id ->]]. done. Qed.

(** A callback performs operations of its own call only. *)
Lemma run_job_extends n j w : extends n w (snd (run_job n j w)).
Proof.
  destruct j as [text shouldLog|text| |working|]; simpl.
  - destruct (negb shouldLog && String.prefix tool_prefix text).
    { eapply extends_from_with_vars, updateDisplay_spec. }
    destruct (negb shouldLog); [apply updateDisplay_spec|].
    match goal with |- context [updateDisplay n ?w0] =>
      destruct (updateDisplay_spec n w0) as [He _];
      destruct (updateDisplay n w0) as [[[]|err] w'] end; simpl in *; [|done].
    destruct (Js.truthy _); [|done].
    destruct (logBotResponse _ _ _ _) as [r b].
    eapply extends_trans; [exact He | apply extends_emit].
  - eapply extends_from_with_vars, updateDisplay_spec.
  - destruct (Js.truthy _); [apply extends_refl|].
    destruct (sendChatAction _ _) as [r b].
    match goal with |- context [postMessage channel n ?text ?w1] =>
      destruct (postMessage_spec n text w1) as [He _];
      destruct (postMessage channel n text w1) as [[id|err] w2] end; simpl in *;
      (eapply extends_trans; [apply extends_emit | exact He]).
  - eapply extends_from_with_vars, updateDisplay_spec.
  - destruct (Js.truthy _); [|apply extends_refl].
    destruct (deleteMessage _ _ _) as [r b]. simpl. apply extends_emit.
Qed.

(** *** The window of recent tool labels *)

Lemma window_is_eq v v' w :
  recentTools v = recentTools v' → completedToolCount v = completedToolCount v' →
  window_is v w → window_is v' w.
Proof. unfold window_is. by intros -> ->. Qed.

Lemma run_job_window n j w :
  window_is
    match j with
    | RespondJob text shouldLog =>
        if negb shouldLog && String.prefix tool_prefix text
        then push_tool text (wvars w) else wvars w
    | SetWorkingJob working => set_working working (wvars w)
    | _ => wvars w
    end
    (snd (run_job n j w)).
Proof.
  destruct j as [text shouldLog|text| |working|]; simpl.
  - destruct (negb shouldLog && String.prefix tool_prefix text).
    { apply (updateDisplay_window n (with_vars _ w)). }
    destruct (negb shouldLog); [apply updateDisplay_window|].
    match goal with |- context [updateDisplay n ?w0] =>
      pose proof (updateDisplay_window n w0) as Hw;
      destruct (updateDisplay n w0) as [[[]|err] w'] end; simpl in *; [|done].
    destruct (Js.truthy _); [|done]. by destruct (logBotResponse _ _ _ _).
  - eapply window_is_eq; [| |apply (updateDisplay_window n (with_vars _ w))]; done.
  - destruct (Js.truthy _); [done|].
    destruct (sendChatAction _ _) as [r b].
    match goal with |- context [postMessage channel n ?text ?w1] =>
      destruct (postMessage_spec n text w1) as [_ Hv];
      destruct (postMessage channel n text w1) as [[id|err] w2] end; simpl in *;
      unfold window_is; simpl; by rewrite Hv.
  - apply (updateDisplay_window n (with_vars _ w)).
  - destruct (Js.truthy _); [|done]. by destruct (deleteMessage _ _ _).
Qed.

Lemma push_tool_bounded text v :
  (length (recentTools v) ≤ 3)%nat → (length (recentTools (push_tool text v)) ≤ 3)%nat.
Proof.
  intros Hlen. unfold push_tool. cbn [recentTools]. rewrite length_app. cbn [length].
  destruct (3 <=? length (recentTools v))%nat eqn:E.
  - apply Nat.leb_le in E. destruct (recentTools v); simpl in *; lia.
  - apply Nat.leb_gt in E. lia.
Qed.

Lemma run_job_bounded n j w :
  (length (recentTools (wvars w)) ≤ 3)%nat →
  (length (recentTools (wvars (snd (run_job n j w)))) ≤ 3)%nat.
Proof.
  intros Hlen. destruct (run_job_window n j w) as [-> _].
  destruct j as [text shouldLog|text| |working|]; try done.
  - destruct (negb shouldLog && _); [by apply push_tool_bounded | done].
  - simpl. destruct working; [done | simpl; lia].
Qed.

Lemma step_bounded a p p' :
  (length (recentTools (wvars (now p))) ≤ 3)%nat →
  step a p = Some p' →
  (length (recentTools (wvars (now p'))) ≤ 3)%nat.
Proof.
  intros Hlen. destruct a as [c|]; simpl.
  - intros [= <-]. destruct c; simpl; try done.
    + by destruct (_ && _).
    + by destruct (readFileSync _ _).
  - unfold TelegramContext.turn. destruct (chain p) as [|[n j] rest]; [done|].
    destruct (rejected p); [by intros [= <-]|].
    pose proof (run_job_bounded n j (now p) Hlen) as Hb.
    destruct (run_job n j (now p)) as [r w]. by intros [= <-].
Qed.

Lemma exec_bounded acts p p' :
  (length (recentTools (wvars (now p))) ≤ 3)%nat →
  exec acts p = Some p' →
  (length (recentTools (wvars (now p'))) ≤ 3)%nat.
Proof.
  revert p. induction acts as [|a acts IH]; intros p Hlen; simpl.
  - by intros [= <-].
  - destruct (step a p) as [p1|] eqn:E; [|done]. simpl.
    apply IH. by eapply step_bounded.
Qed.

(** After any run of tool labels the window holds the last three
    entries pushed (all of them, if fewer), and the counter has grown by
    the number of entries pushed out. *)
Lemma push_tools_recent texts v :
  (length (recentTools v) ≤ 3)%nat →
  let v' := fold_left (λ v text, push_tool text v) texts v in
  let all := recentTools v ++ (tool_entry <$> texts) in
  recentTools v' = drop (length all - 3) all ∧
  completedToolCount v' = (completedToolCount v + (length all - 3))%nat.
Proof.
  revert v. induction texts as [|text texts IH]; intros v Hlen; simpl.
  - rewrite app_nil_r. replace (length (recentTools v) - 3)%nat with 0%nat by lia.
    split; [done | lia].
  - destruct (IH (push_tool text v) (push_tool_bounded text v Hlen)) as [-> ->].
    unfold push_tool. cbn [recentTools completedToolCount].
    destruct (3 <=? length (recentTools v))%nat eqn:E.
    + apply Nat.leb_le in E.
      destruct (recentTools v) as [|t1 [|t2 [|t3 [|t4 l]]]]; simpl in *; try lia.
      rewrite ?length_fmap, Nat.sub_0_r. split; [done | lia].
    + rewrite <- !app_assoc. split; reflexivity.
Qed.

Lemma push_tools_window_eq texts v1 v2 :
  recentTools v1 = recentTools v2 → completedToolCount v1 = completedToolCount v2 →
  recentTools (fold_left (λ v text, push_tool text v) texts v1) =
    recentTools (fold_left (λ v text, push_tool text v) texts v2) ∧
  completedToolCount (fold_left (λ v text, push_tool text v) texts v1) =
    completedToolCount (fold_left (λ v text, push_tool text v) texts v2).
Proof.
  revert v1 v2. induction texts as [|text texts IH]; intros v1 v2 Hr Hc; [done|].
  simpl. apply IH; unfold push_tool; simpl; by rewrite Hr, ?Hc.
Qed.

(** A run of tool labels through [respond] acts on the window as the
    pushes do. *)
Lemma respond_tools_window n texts w :
  Forall (λ text, String.prefix tool_prefix text = true) texts →
  window_is (fold_left (λ v text, push_tool text v) texts (wvars w))
            (fold_left (λ w text, snd (run_job n (RespondJob text false) w)) texts w).
Proof.
  revert w. induction texts as [|text texts IH]; intros w Hall; [done|].
  apply Forall_cons in Hall as [Hp Hall]. simpl.
  pose proof (run_job_window n (RespondJob text false) w) as [Hr Hc].
  cbn [negb andb] in Hr, Hc. rewrite Hp in Hr, Hc.
  destruct (push_tools_window_eq texts _ _ Hr Hc) as [Hr' Hc'].
  eapply window_is_eq; [exact Hr' | exact Hc' | by apply IH].
Qed.

(** C10. The window of recent tool labels never holds more than three
    entries, whatever calls are made and whenever their callbacks run.
    A tool label arriving on a full window removes the oldest entry,
    appends the new one and adds one to the count of completed tools; on
    a window that is not full it is appended and the count stays; so
    after a run of tool labels on an empty window the window holds the
    last three of them.
    [setWorking(false)] adds the number of entries still shown to the
    count and empties the window. *)
Theorem recent_tools_window (b : B) n w :
  (∀ acts p, exec acts (createContext b) = Some p →
     (length (recentTools (wvars (now p))) ≤ 3)%nat) ∧
  (∀ text t1 t2 t3,
     String.prefix tool_prefix text = true →
     recentTools (wvars w) = [t1; t2; t3] →
     recentTools (wvars (snd (run_job n (RespondJob text false) w))) =
       [t2; t3; tool_entry text] ∧
     completedToolCount (wvars (snd (run_job n (RespondJob text false) w))) =
       S (completedToolCount (wvars w))) ∧
  (∀ text,
     String.prefix tool_prefix text = true →
     (length (recentTools (wvars w)) < 3)%nat →
     recentTools (wvars (snd (run_job n (RespondJob text false) w))) =
       recentTools (wvars w) ++ [tool_entry text] ∧
     completedToolCount (wvars (snd (run_job n (RespondJob text false) w))) =
       completedToolCount (wvars w)) ∧
  (∀ texts,
     Forall (λ text, String.prefix tool_prefix text = true) texts →
     recentTools (wvars w) = [] →
     let w' := fold_left (λ w text, snd (run_job n (RespondJob text false) w)) texts w in
     recentTools (wvars w') = drop (length texts - 3) (tool_entry <$> texts) ∧
     completedToolCount (wvars w') = (completedToolCount (wvars w) + (length texts - 3))%nat) ∧
  recentTools (wvars (snd (run_job n (SetWorkingJob false) w))) = [] ∧
  completedToolCount (wvars (snd (run_job n (SetWorkingJob false) w))) =
    (completedToolCount (wvars w) + length (recentTools (wvars w)))%nat.
Proof.
  assert (Hrecent : ∀ texts,
     Forall (λ text, String.prefix tool_prefix text = true) texts →
     recentTools (wvars w) = [] →
     let w' := fold_left (λ w text, snd (run_job n (RespondJob text false) w)) texts w in
     recentTools (wvars w') = drop (length texts - 3) (tool_entry <$> texts) ∧
     completedToolCount (wvars w') = (completedToolCount (wvars w) + (length texts - 3))%nat).
  { intros texts Hall Hempty w'.
    destruct (respond_tools_window n texts w Hall) as [Hr Hc]. fold w' in Hr, Hc.
    destruct (push_tools_recent texts (wvars w)) as [Hr' Hc']; [rewrite Hempty; simpl; lia|].
    rewrite Hr, Hc, Hr', Hc', Hempty. simpl. by rewrite length_fmap. }
  split_and!; [| | |exact Hrecent| |].
  - intros acts p. apply exec_bounded. simpl. lia.
  - intros text t1 t2 t3 Hp Hw.
    destruct (run_job_window n (RespondJob text false) w) as [Hr Hc].
    cbn [negb andb] in Hr, Hc. rewrite Hp in Hr, Hc. rewrite Hr, Hc.
    unfold push_tool; simpl. by rewrite Hw.
  - intros text Hp Hlen. apply Nat.leb_gt in Hlen.
    destruct (run_job_window n (RespondJob text false) w) as [Hr Hc].
    cbn [negb andb] in Hr, Hc. rewrite Hp in Hr, Hc. rewrite Hr, Hc.
    unfold push_tool; cbn [recentTools completedToolCount]. by rewrite Hlen.
  - by destruct (run_job_window n (SetWorkingJob false) w) as [-> _].
  - by destruct (run_job_window n (SetWorkingJob false) w) as [_ ->].
Qed.

(** *** The order of the operations *)

Lemma sorted_drop_middle (l1 l2 : list nat) x :
  StronglySorted le (l1 ++ x :: l2) → StronglySorted le (l1 ++ l2).
Proof.
  rewrite !StronglySorted_app, StronglySorted_cons.
  intros (Hle & Hs1 & _ & Hs2). split_and!; [|done..].
  intros x1 x2 H1 H2. apply Hle; [done|]. apply elem_of_cons; by right.
Qed.

Lemma sorted_repeat_middle (l1 l2 : list nat) x k :
  StronglySorted le (l1 ++ x :: l2) → StronglySorted le ((l1 ++ replicate k x) ++ l2).
Proof.
  rewrite !StronglySorted_app, StronglySorted_cons.
  intros (Hle & Hs1 & Hx & Hs2). split_and!; [| |done| |done].
  - intros x1 x2 [H1|H1%elem_of_replicate]%elem_of_app H2.
    + apply Hle; [done|]. apply elem_of_cons; by right.
    + destruct H1 as [-> _]. rewrite Forall_forall in Hx. by apply Hx.
  - intros x1 x2 H1 [-> _]%elem_of_replicate. apply Hle; [done|]. apply elem_of_cons; by left.
  - clear. induction k as [|k IH]; simpl; constructor; [done|].
    apply Forall_forall. by intros y [-> _]%elem_of_replicate.
Qed.

(** The operations performed, followed by the callbacks still chained,
    are in the order of the calls that produced them, and come from
    calls already made. *)
Lemma step_ordered a p p' :
  chained_action a = true →
  StronglySorted le ((fst <$> trace (now p)) ++ (fst <$> chain p)) →
  Forall (λ m, m < calls p)%nat ((fst <$> trace (now p)) ++ (fst <$> chain p)) →
  step a p = Some p' →
  StronglySorted le ((fst <$> trace (now p')) ++ (fst <$> chain p')) ∧
  Forall (λ m, m < calls p')%nat ((fst <$> trace (now p')) ++ (fst <$> chain p')).
Proof.
  intros Hch Hsorted Hbound.
  assert (Hweak : Forall (λ m, m < S (calls p))%nat ((fst <$> trace (now p)) ++ (fst <$> chain p))).
  { eapply Forall_impl; [exact Hbound|]. simpl. lia. }
  assert (Hthen : ∀ j,
    StronglySorted le ((fst <$> trace (now (then_ j p))) ++ (fst <$> chain (then_ j p))) ∧
    Forall (λ m, m < calls (then_ j p))%nat
      ((fst <$> trace (now (then_ j p))) ++ (fst <$> chain (then_ j p)))).
  { intros j. unfold then_; simpl. rewrite fmap_app, app_assoc. simpl. split.
    - apply StronglySorted_app. split_and!; [|done|repeat constructor].
      intros x1 x2 H1 ->%list_elem_of_singleton.
      rewrite Forall_forall in Hbound. specialize (Hbound x1 H1). lia.
    - apply Forall_app. split; [done|]. repeat constructor. }
  destruct a as [c|]; simpl.
  - intros [= <-]. destruct c; simpl in *; try done; try apply Hthen.
    destruct (_ && _); [apply Hthen | done].
  - unfold TelegramContext.turn. destruct (chain p) as [|[m j] rest] eqn:Echain; [done|].
    simpl in Hsorted, Hbound.
    destruct (rejected p).
    + intros [= <-]. simpl. split.
      * by eapply sorted_drop_middle.
      * rewrite Forall_app in *. destruct Hbound as [? [_ ?]%Forall_cons]. done.
    + destruct (run_job_extends m j (now p)) as [ops Hops].
      destruct (run_job m j (now p)) as [r w]. simpl in Hops.
      intros [= <-]. simpl. rewrite Hops, fmap_app.
      assert (fst <$> (pair m <$> ops) = replicate (length ops) m) as ->.
      { clear. induction ops as [|o ops IH]; [done|]. rewrite !fmap_cons. simpl. by f_equal. }
      split.
      * by apply sorted_repeat_middle.
      * rewrite !Forall_app in *. destruct Hbound as [? [? ?]%Forall_cons].
        split_and!; [done| |done]. apply Forall_forall. by intros y [-> _]%elem_of_replicate.
Qed.

Lemma exec_ordered acts p p' :
  forallb chained_action acts = true →
  StronglySorted le ((fst <$> trace (now p)) ++ (fst <$> chain p)) →
  Forall (λ m, m < calls p)%nat ((fst <$> trace (now p)) ++ (fst <$> chain p)) →
  exec acts p = Some p' →
  StronglySorted le ((fst <$> trace (now p')) ++ (fst <$> chain p')).
Proof.
  revert p. induction acts as [|a acts IH]; intros p Hch Hs Hb; simpl.
  - by intros [= <-].
  - simpl in Hch. apply andb_true_iff in Hch as [Ha Hch].
    destruct (step a p) as [p1|] eqn:E; [|done]. simpl.
    destruct (step_ordered a p p1 Ha Hs Hb E). by apply IH.
Qed.

(** C3. For every sequence of [respond], [replaceMessage], [setTyping],
    [setWorking] and [deleteMessage] calls on one context, however the
    calls and the turns of their callbacks interleave and whatever the
    platform answers, the operations performed are in the order of the
    calls that produced them, and every callback still chained belongs
    to a call at least as late as each operation performed: no operation
    of a later call precedes one of an earlier call. *)
Theorem pipeline_ops_in_call_order (b : B) acts p :
  forallb chained_action acts = true →
  exec acts (createContext b) = Some p →
  StronglySorted le (fst <$> trace (now p)) ∧
  ∀ done_ waiting, done_ ∈ fst <$> trace (now p) → waiting ∈ fst <$> chain p →
                   (done_ ≤ waiting)%nat.
Proof.
  intros Hch Hexec.
  assert (StronglySorted le ((fst <$> trace (now p)) ++ (fst <$> chain p))) as Hs.
  { eapply exec_ordered; [exact Hch | | |exact Hexec]; simpl; constructor. }
  apply StronglySorted_app in Hs as (Hle & Hs & _). split; [done|].
  intros x y Hx Hy. by apply Hle.
Qed.

End ContextFacts.



Lemma pipeline_ops_in_call_order_witness :
  ∃ p, TelegramContext.exec "42" None demo_run (TelegramContext.createContext 100%nat) = Some p ∧
       fst <$> TelegramContext.trace (TelegramContext.now p) = [0; 0; 1; 2; 3; 3; 4]%nat ∧
       StronglySorted le (fst <$> TelegramContext.trace (TelegramContext.now p)).
Proof.
  destruct (TelegramContext.exec "42" None demo_run (TelegramContext.createContext 100%nat))
    as [p|] eqn:E; [|vm_compute in E; discriminate].
  exists p. split; [reflexivity|]. split.
  - assert (p = default (TelegramContext.createContext 100%nat)
                  (TelegramContext.exec "42" None demo_run (TelegramContext.createContext 100%nat)))
      as -> by (by rewrite E).
    vm_compute. reflexivity.
  - apply (pipeline_ops_in_call_order "42" None 100%nat demo_run p); [reflexivity | exact E].
Defined.

(** [uploadFile] does not go through [updatePromise]: its operation is
    performed at the call, before the operations of an earlier [respond]
    whose callback has not had its turn. *)
Example uploadFile_overtakes :
  (λ p, fst <$> TelegramContext.trace (TelegramContext.now p)) <$>
    TelegramContext.exec "42" None
      [TelegramContext.Call (TelegramContext.Respond "one" true);
       TelegramContext.Call (TelegramContext.UploadFile "/tmp/report.pdf" None);
       TelegramContext.Turn]
      (TelegramContext.createContext 100%nat)
  = Some [1; 0; 0]%nat.
Proof. vm_compute. reflexivity. Qed.

(** Once a callback has rejected, the callbacks chained after it are
    passed over: nothing more reaches the platform. *)
Example rejected_chain_stays_silent :
  let failing : TelegramContext.Bot nat := {|
    TelegramContext.sendMessage := λ _ _ n, (Js.Threw "ETELEGRAM: 400 Bad Request", n);
    TelegramContext.editMessageText := λ _ _ _ n, (Js.Fulfilled (), n);
    TelegramContext.deleteMessage := λ _ _ n, (Js.Fulfilled (), n);
    TelegramContext.sendChatAction := λ _ n, (Js.Fulfilled (), n);
    TelegramContext.readFileSync := λ _ _, Js.Fulfilled ();
    TelegramContext.logBotResponse := λ _ _ _ n, (Js.Fulfilled (), n) |} in
  (λ p, (fst <$> TelegramContext.trace (TelegramContext.now p), TelegramContext.rejected p)) <$>
    TelegramContext.exec (H := failing) "42" None
      [TelegramContext.Call (TelegramContext.SetWorking true);
       TelegramContext.Call (TelegramContext.Respond "one" true);
       TelegramContext.Turn; TelegramContext.Turn]
      (TelegramContext.createContext 100%nat)
  = Some ([0]%nat, true).
Proof. vm_compute. reflexivity. Qed.

(** A fourth tool label on a full window, then the end of the run. *)
Lemma recent_tools_window_witness :
  let w := {| TelegramContext.wvars :=
                {| TelegramContext.messageId := Some "100";
                   TelegramContext.finalText := EmptyString;
                   TelegramContext.isWorking := true;
                   TelegramContext.recentTools := ["<i>a</i>"; "<i>b</i>"; "<i>c</i>"];
                   TelegramContext.completedToolCount := 2 |};
              TelegramContext.bot := 101%nat;
              TelegramContext.trace := [] |} in
  let w' := snd (TelegramContext.run_job "42" None 7
                   (TelegramContext.RespondJob (TelegramContext.tool_prefix +:+ "d_") false) w) in
  let w'' := snd (TelegramContext.run_job "42" None 8 (TelegramContext.SetWorkingJob false) w') in
  TelegramContext.recentTools (TelegramContext.wvars w') =
    ["<i>b</i>"; "<i>c</i>";
     "<i>" +:+ String.substring 1 3 TelegramContext.tool_prefix +:+ "d</i>"] ∧
  TelegramContext.completedToolCount (TelegramContext.wvars w') = 3%nat ∧
  TelegramContext.recentTools (TelegramContext.wvars w'') = [] ∧
  TelegramContext.completedToolCount (TelegramContext.wvars w'') = 6%nat.
Proof.
  intros w w' w''.
  destruct (recent_tools_window "42" None 100%nat 7%nat w) as (_ & Hfull & _).
  destruct (Hfull (TelegramContext.tool_prefix +:+ "d_") "<i>a</i>" "<i>b</i>" "<i>c</i>"
              eq_refl eq_refl) as [Hr Hc].
  destruct (recent_tools_window "42" None 100%nat 8%nat w') as (_ & _ & _ & _ & Hr' & Hc').
  split_and!.
  - exact Hr.
  - exact Hc.
  - exact Hr'.
  - subst w''. rewrite Hc'. subst w'. rewrite Hc, Hr. reflexivity.
Defined.

(** ** The Telegram adapter and the handler together *)

Section SystemFacts.
Import TelegramQueue.
Variable is_stop : string → bool.
Implicit Types (s : TelegramSystem.t) (q : TelegramQueue.t) (h : Main.t) (c : string).

Local Abbreviation in_step := TelegramSystem.in_step.
Local Abbreviation follow := TelegramSystem.follow.

Lemma follow_app q q' es h :
  history q' = history q ++ es → follow q q' h = TelegramSystem.start_runs es h.
Proof. intros Hh. unfold TelegramSystem.follow. by rewrite Hh, drop_app_length. Qed.

Lemma follow_same q q' h : history q' = history q → follow q q' h = h.
Proof. intros Hh. rewrite (follow_app q q' [] h); [done | by rewrite app_nil_r]. Qed.

Lemma enqueueWork_other c0 c w q :
  c0 ≠ c →
  pending c (enqueueWork c0 w q) = pending c q ∧
  awaited (enqueueWork c0 w q) !! c = awaited q !! c.
Proof.
  intros Hne. unfold enqueueWork, processQueue.
  match goal with |- context [if busy c0 ?q0 then _ else _] =>
    assert (pending c q0 = pending c q) as Hp0
      by (unfold pending; simpl; by rewrite lookup_insert_ne)
  end.
  destruct (busy c0 _); [done|].
  match goal with |- context [drain c0 ?q1] =>
    destruct (drain_other c0 c q1 Hne) as (-> & _ & -> & _)
  end.
  split; [|done]. rewrite <- Hp0. unfold pending. simpl. done.
Qed.

(** A work item for chat [c0] is handed to the queue of [c0]. *)
Lemma in_step_enqueue c0 w s rs :
  channel (event w) = c0 →
  (∀ c, in_step c s) →
  ∀ c, in_step c
         {| TelegramSystem.adapter := enqueueWork c0 w (TelegramSystem.adapter s);
            TelegramSystem.handler :=
              follow (TelegramSystem.adapter s) (enqueueWork c0 w (TelegramSystem.adapter s))
                     (TelegramSystem.handler s);
            TelegramSystem.replies := rs |}.
Proof.
  intros Hw Hinv c. destruct s as [q h rs0].
  unfold TelegramSystem.in_step in *. simpl in *.
  destruct (Hinv c) as (Hseq & Hall & Hagree).
  destruct (Hinv c0) as ((_ & _ & Hbusy0 & Hidle0) & _ & Hagree0).
  split; [by apply sequential_enqueueWork|].
  destruct (busy c0 q) eqn:Eb.
  - destruct (enqueueWork_busy c0 w q Eb) as (Hp & _ & Ha & Hh).
    rewrite (follow_same _ _ _ Hh), Ha.
    split; [|done].
    destruct (decide (c0 = c)) as [<-|Hne].
    + rewrite Hp. apply Forall_app. split; [done | by repeat constructor].
    + by destruct (enqueueWork_other c0 c w q Hne) as [-> _].
  - assert (awaited q !! c0 = None) as Hnone.
    { destruct (awaited q !! c0) eqn:E; [|done].
      destruct Hbusy0 as [_ Hbusy0]. assert (false = true) by (apply Hbusy0; by eexists). done. }
    destruct (enqueueWork_idle c0 w q Eb (Hidle0 Hnone)) as (Hp & _ & Ha & Hh).
    rewrite (follow_app _ _ _ _ Hh). simpl. rewrite Hw.
    destruct Hagree0 as [(_ & Hruns0 & _)|(w0 & p0 & Hw0 & _)]; [|congruence].
    destruct (decide (c0 = c)) as [<-|Hne].
    + rewrite Hp, Ha. split; [done|]. right. exists w, Main.AwaitAgent.
      by rewrite handleEvent_isRunning, handleEvent_runs, Hruns0.
    + destruct (enqueueWork_other c0 c w q Hne) as [-> ->].
      by destruct (handleEvent_frame c0 c h Hne) as [-> ->].
Qed.

Lemma in_step_handleIncomingMessage ev s :
  (∀ c, in_step c s) →
  ∀ c, in_step c (TelegramSystem.handleIncomingMessage is_stop ev s).
Proof.
  intros Hinv c. unfold TelegramSystem.handleIncomingMessage.
  destruct (is_stop (text ev)); destruct (Main.isRunning (channel ev) (TelegramSystem.handler s)) eqn:Er;
    try apply Hinv.
  - destruct (Hinv c) as (Hseq & Hall & Hagree). unfold TelegramSystem.in_step. simpl.
    by rewrite handleStop_isRunning, handleStop_runs.
  - by apply in_step_enqueue.
Qed.

Lemma in_step_enqueueEvent ev s :
  (∀ c, in_step c s) → ∀ c, in_step c (TelegramSystem.enqueueEvent ev s).
Proof.
  intros Hinv c. unfold TelegramSystem.enqueueEvent, enqueueEvent.
  destruct (5 <=? _)%nat; simpl.
  - rewrite follow_same by done. destruct s. apply Hinv.
  - by apply in_step_enqueue.
Qed.

Lemma in_step_resume_run c0 r s s' :
  (∀ c, in_step c s) →
  TelegramSystem.resume_run c0 r s = Some s' →
  ∀ c, in_step c s'.
Proof.
  intros Hinv. unfold TelegramSystem.resume_run.
  destruct s as [q h rs]. simpl.
  destruct (Main.resume_handleEvent c0 0 r h) as [h1|] eqn:Eh; [|done]. simpl.
  destruct (resume_handleEvent_cases _ _ _ _ _ Eh) as [[p0 Hp0] Hcases].
  destruct (Hinv c0) as (Hseq0 & Hall0 & Hagree0). simpl in *.
  destruct Hagree0 as [(_ & Hruns0 & _)|(w0 & p & Hw0 & Hruns0 & Hrun0)];
    [by rewrite Hruns0 in Hp0|].
  rewrite Hruns0 in Hcases. simpl in Hcases.
  assert (Hother : ∀ c, c0 ≠ c →
            Main.isRunning c h1 = Main.isRunning c h ∧ Main.runs_of c h1 = Main.runs_of c h).
  { intros c Hne. by apply (resume_handleEvent_frame c0 c 0 r h h1). }
  destruct Hcases as [[Hr1 Hruns1]|[Hr1 [p' Hruns1]]]; rewrite Hruns1.
  - unfold settle. rewrite Hw0. simpl. intros [= <-] c.
    destruct (Hinv c) as (Hseq & Hall & Hagree). simpl in *.
    unfold TelegramSystem.in_step. simpl.
    split; [eapply (sequential_settle c c0 (Js.Fulfilled ()) q);
            [done | unfold settle; by rewrite Hw0]|].
    set (q0 := record [Finished c0 w0] q).
    pose proof (drain_spec c0 q0) as Hd.
    change (pending c0 q0) with (pending c0 q) in Hd.
    change (history q0) with (history q ++ [Finished c0 w0]) in Hd.
    destruct (pending c0 q) as [|w' rest] eqn:Ep; destruct Hd as (Hp & _ & Ha & Hh).
    + rewrite (follow_app q _ [Finished c0 w0] h1) by done. simpl.
      destruct (decide (c0 = c)) as [<-|Hne].
      * rewrite Hp, Ha. split; [done|]. left. by rewrite Hruns1, Hr1.
      * destruct (drain_other c0 c q0 Hne) as (-> & _ & -> & _).
        destruct (Hother c Hne) as [-> ->]. done.
    + rewrite (follow_app q _ [Finished c0 w0; Started c0 w'] h1)
        by (by rewrite Hh, <- app_assoc).
      simpl. apply Forall_cons in Hall0 as [Hw' Hrest]. rewrite Hw'.
      destruct (decide (c0 = c)) as [<-|Hne].
      * rewrite Hp, Ha. split; [done|]. right. exists w', Main.AwaitAgent.
        by rewrite handleEvent_isRunning, handleEvent_runs, Hruns1.
      * destruct (drain_other c0 c q0 Hne) as (-> & _ & -> & _).
        destruct (handleEvent_frame c0 c h1 Hne) as [-> ->].
        destruct (Hother c Hne) as [-> ->]. done.
  - simpl. intros [= <-] c.
    destruct (Hinv c) as (Hseq & Hall & Hagree). simpl in *.
    unfold TelegramSystem.in_step. simpl. split_and!; [done..|].
    destruct (decide (c0 = c)) as [<-|Hne].
    + right. exists w0, p'. by rewrite Hruns1, Hr1.
    + by destruct (Hother c Hne) as [-> ->].
Qed.

Lemma in_step_step a s s' :
  (∀ c, in_step c s) → TelegramSystem.step is_stop a s = Some s' → ∀ c, in_step c s'.
Proof.
  intros Hinv. destruct a as [ev|ev|c0 r|c0 r]; simpl.
  - intros [= <-]. by apply in_step_handleIncomingMessage.
  - intros [= <-]. by apply in_step_enqueueEvent.
  - by apply in_step_resume_run.
  - unfold TelegramSystem.resume_stop.
    destruct (Main.resume_handleStop c0 r (TelegramSystem.handler s)) as [h1|] eqn:Eh; [|done].
    simpl. intros [= <-] c. destruct (Hinv c) as (Hseq & Hall & Hagree).
    unfold TelegramSystem.in_step. simpl.
    by destruct (resume_handleStop_frame c0 c r _ _ Eh) as [-> ->].
Qed.

Lemma in_step_exec acts s s' :
  (∀ c, in_step c s) → TelegramSystem.exec is_stop acts s = Some s' → ∀ c, in_step c s'.
Proof.
  revert s. induction acts as [|a acts IH]; intros s Hinv; simpl.
  - by intros [= <-].
  - destruct (TelegramSystem.step is_stop a s) as [s1|] eqn:E; [|done]. simpl.
    apply IH. by eapply in_step_step.
Qed.

Lemma in_step_init c : in_step c TelegramSystem.init.
Proof.
  split; [apply sequential_create|]. split.
  - unfold pending; simpl. by rewrite lookup_empty.
  - left. unfold Main.runs_of, Main.isRunning; simpl. by rewrite !lookup_empty.
Qed.

(** X1. With the Telegram adapter as the caller, whatever messages,
    scheduled events and stop requests arrive and however the runs go: every chat
    has at most one run in flight, [isRunning] tells exactly whether it
    has one, and that run is the work item its drain loop awaits. *)
Theorem telegram_runs_never_overlap acts s :
  TelegramSystem.exec is_stop acts TelegramSystem.init = Some s →
  ∀ c, (length (Main.runs_of c (TelegramSystem.handler s)) ≤ 1)%nat ∧
       (Main.isRunning c (TelegramSystem.handler s) = true ↔
        Main.runs_of c (TelegramSystem.handler s) ≠ []) ∧
       (Main.runs_of c (TelegramSystem.handler s) ≠ [] ↔
        is_Some (awaited (TelegramSystem.adapter s) !! c)).
Proof.
  intros Hexec c.
  destruct (in_step_exec acts _ s in_step_init Hexec c) as (_ & _ & Hagree).
  destruct Hagree as [(Ha & Hr & Hf)|(w & p & Ha & Hr & Hf)]; rewrite Ha, Hr, Hf; simpl.
  - split_and!; [lia | split; done | split; [done | by intros [? ?]]].
  - split_and!; [lia | split; done | split; [by eexists | done]].
Qed.

End SystemFacts.

(** ** Further properties *)

(** *** The gateway under any order of registrations and readiness marks *)

Section GatewayCallsFacts.
Context {RouteHandler : Type}.
Implicit Types (g : Gateway.t RouteHandler) (cs : list (GatewayCalls.call RouteHandler)).
Implicit Types (p : string) (h : RouteHandler).

Local Abbreviation gapply := (GatewayCalls.apply (RouteHandler := RouteHandler)).

Lemma calls_routes_frame cs g p :
  Forall (λ c, GatewayCalls.registers p c = false) cs →
  Gateway.routes (fold_left gapply cs g) !! p = Gateway.routes g !! p.
Proof.
  revert g. induction cs as [|c cs IH]; intros g Hno; [done|].
  apply Forall_cons in Hno as [Hc Hcs]. simpl. rewrite IH by done.
  destruct c as [p' h'|p']; simpl in *; [|done].
  apply bool_decide_eq_false in Hc. by rewrite lookup_insert_ne.
Qed.

Lemma calls_ready cs g p :
  p ∈ Gateway.readyRoutes (fold_left gapply cs g) ↔
  p ∈ Gateway.readyRoutes g ∨ ∃ c, c ∈ cs ∧ c = GatewayCalls.MarkReady p.
Proof.
  revert g. induction cs as [|c cs IH]; intros g; simpl.
  - split; [by left|]. intros [?|(c & Hc & _)]; [done|]. by apply elem_of_nil in Hc.
  - rewrite IH. split.
    + intros [Hin|(c' & Hc' & ->)].
      * destruct c as [p' h'|p']; simpl in Hin; [by left|].
        apply elem_of_union in Hin as [Hin|Hin]; [|by left].
        apply elem_of_singleton in Hin as ->. right. eexists. split; [apply elem_of_cons; by left|done].
      * right. eexists. split; [apply elem_of_cons; by right|done].
    + intros [Hin|(c' & Hc' & ->)].
      * left. destruct c as [p' h'|p']; simpl; [done|]. apply elem_of_union. by right.
      * apply elem_of_cons in Hc' as [<-|Hc'].
        -- left. simpl. apply elem_of_union. left. by apply elem_of_singleton.
        -- right. by eexists.
Qed.

(** X2. Registration and readiness are independent and may come in any
    order.  After any sequence of [register] and [markReady] calls on a
    new gateway, a POST to a path that was never registered is answered
    404; a POST to a registered path reaches the handler registered last
    for it if the path was marked ready at any point of the sequence
    (before or after that registration), and is answered 503 otherwise. *)
Theorem gateway_last_registration_any_readiness cs p :
  (Forall (λ c, GatewayCalls.registers p c = false) cs →
   Gateway.dispatch (GatewayCalls.run cs) (GatewayCalls.post p) = Gateway.Reply 404 "Not found") ∧
  (∀ cs1 h cs2,
     cs = cs1 ++ GatewayCalls.Register p h :: cs2 →
     Forall (λ c, GatewayCalls.registers p c = false) cs2 →
     ((∃ c, c ∈ cs ∧ c = GatewayCalls.MarkReady p) →
      Gateway.dispatch (GatewayCalls.run cs) (GatewayCalls.post p) = Gateway.Invoke h) ∧
     ((∀ c, c ∈ cs → c ≠ GatewayCalls.MarkReady p) →
      Gateway.dispatch (GatewayCalls.run cs) (GatewayCalls.post p)
      = Gateway.Reply 503 "Adapter not ready")).
Proof.
  unfold GatewayCalls.run, Gateway.dispatch, GatewayCalls.post, Gateway.url_or_empty. simpl.
  split.
  - intros Hno. rewrite calls_routes_frame by done. simpl. by rewrite lookup_empty.
  - intros cs1 h cs2 -> Hno.
    assert (Gateway.routes (fold_left gapply (cs1 ++ GatewayCalls.Register p h :: cs2) Gateway.create)
              !! p = Some h) as ->.
    { rewrite fold_left_app. simpl. rewrite calls_routes_frame by done.
      simpl. by rewrite lookup_insert_eq. }
    split.
    + intros Hm. rewrite bool_decide_eq_true_2; [done|]. apply calls_ready. by right.
    + intros Hm. rewrite bool_decide_eq_false_2; [done|].
      intros Hin. apply calls_ready in Hin as [Hin|(c & Hc & ->)].
      * simpl in Hin. by apply elem_of_empty in Hin.
      * by apply (Hm _ Hc).
Qed.

End GatewayCallsFacts.

(** *** The start-up loop *)

Section StartupFacts.
Context {RouteHandler : Type}.
Implicit Types (g : Gateway.t RouteHandler) (a b : Startup.adapter RouteHandler).

Lemma DISPATCH_PATHS_inj n1 n2 p :
  Startup.DISPATCH_PATHS n1 = Some p → Startup.DISPATCH_PATHS n2 = Some p → n1 = n2.
Proof. destruct n1, n2; simpl; intros [= <-] [=]; done. Qed.

Lemma boot_one_frame g b p :
  Startup.DISPATCH_PATHS (Startup.adapterName b) ≠ Some p →
  Gateway.routes (Startup.boot_one g b) !! p = Gateway.routes g !! p ∧
  (p ∈ Gateway.readyRoutes (Startup.boot_one g b) ↔ p ∈ Gateway.readyRoutes g).
Proof.
  intros Hp. unfold Startup.boot_one.
  destruct (Startup.DISPATCH_PATHS (Startup.adapterName b)) as [p'|]; [|by destruct (Startup.start b)].
  assert (p' ≠ p) by congruence.
  destruct (Startup.dispatch b) as [h|], (Startup.start b) as [[]|err]; simpl;
    rewrite ?lookup_insert_ne by done; (split; [done|]); try done;
    rewrite elem_of_union, elem_of_singleton;
    (split; [intros [?|?]; [congruence|done] | by right]).
Qed.

Lemma boot_frame bs g p :
  Forall (λ b, Startup.DISPATCH_PATHS (Startup.adapterName b) ≠ Some p) bs →
  Gateway.routes (fold_left Startup.boot_one bs g) !! p = Gateway.routes g !! p ∧
  (p ∈ Gateway.readyRoutes (fold_left Startup.boot_one bs g) ↔ p ∈ Gateway.readyRoutes g).
Proof.
  revert g. induction bs as [|b bs IH]; intros g Hall; [done|].
  apply Forall_cons in Hall as [Hb Hbs]. simpl.
  destruct (IH (Startup.boot_one g b) Hbs) as [-> ->]. by apply boot_one_frame.
Qed.

(** X3. A webhook adapter whose [start()] fails does not take the others
    down and is never served: after the start-up loop over adapters
    created under distinct names, a POST to an adapter's dispatch path
    reaches that adapter's [dispatch] when its [start()] succeeded and is
    answered 503 when it threw, whatever happened to the other adapters;
    a POST to a dispatch path none of the adapters has is answered 404. *)
Theorem startup_serves_exactly_the_started adapters p :
  NoDup (Startup.adapterName <$> adapters) →
  (∀ a h, a ∈ adapters →
     Startup.DISPATCH_PATHS (Startup.adapterName a) = Some p →
     Startup.dispatch a = Some h →
     Gateway.dispatch (Startup.boot adapters) (GatewayCalls.post p) =
       match Startup.start a with
       | Js.Fulfilled _ => Gateway.Invoke h
       | Js.Threw _ => Gateway.Reply 503 "Adapter not ready"
       end) ∧
  (Forall (λ b, Startup.DISPATCH_PATHS (Startup.adapterName b) ≠ Some p) adapters →
   Gateway.dispatch (Startup.boot adapters) (GatewayCalls.post p) = Gateway.Reply 404 "Not found").
Proof.
  intros Hnd.
  unfold Startup.boot, Gateway.dispatch, GatewayCalls.post, Gateway.url_or_empty. simpl.
  split.
  - intros a h Hin Hp Hd.
    apply list_elem_of_split in Hin as (l1 & l2 & ->).
    rewrite fmap_app, fmap_cons in Hnd.
    apply NoDup_app in Hnd as (_ & Hl1 & Hnd). apply NoDup_cons in Hnd as [Hl2 _].
    assert (∀ l, Startup.adapterName a ∉ Startup.adapterName <$> l →
                 Forall (λ b, Startup.DISPATCH_PATHS (Startup.adapterName b) ≠ Some p) l) as Hothers.
    { intros l Hl. apply Forall_forall. intros b Hb Hpb. apply Hl.
      rewrite (DISPATCH_PATHS_inj _ _ _ Hp Hpb). by apply list_elem_of_fmap_2. }
    rewrite fold_left_app. simpl.
    destruct (boot_frame l1 Gateway.create p) as [Hr1 Hy1].
    { apply Hothers. intros Hin. by apply (Hl1 _ Hin), elem_of_cons; left. }
    set (g1 := fold_left Startup.boot_one l1 Gateway.create) in *.
    destruct (boot_frame l2 (Startup.boot_one g1 a) p (Hothers _ Hl2)) as [-> Hy2].
    assert (p ∉ Gateway.readyRoutes g1) as Hnot.
    { intros Hin. apply Hy1 in Hin. simpl in Hin. by apply elem_of_empty in Hin. }
    unfold Startup.boot_one in *. rewrite Hp, Hd in *.
    destruct (Startup.start a) as [[]|err]; simpl in *; rewrite lookup_insert_eq.
    + rewrite bool_decide_eq_true_2; [done|]. apply Hy2, elem_of_union. left. by apply elem_of_singleton.
    + rewrite bool_decide_eq_false_2; [done|]. intros Hin. by apply Hy2 in Hin.
  - intros Hall. destruct (boot_frame adapters Gateway.create p Hall) as [-> _].
    simpl. by rewrite lookup_empty.
Qed.

End StartupFacts.

(** A Telegram webhook adapter whose [start()] throws, a web adapter
    that starts, and a Slack socket adapter, which has no route. *)
Lemma startup_serves_exactly_the_started_witness :
  let adapters :=
    [ Startup.mkAdapter Startup.telegram_webhook (Some "telegram.dispatch")
        (Js.Threw "ETELEGRAM: 401 Unauthorized");
      Startup.mkAdapter Startup.web (Some "web.dispatch") (Js.Fulfilled ());
      Startup.mkAdapter Startup.slack None (Js.Fulfilled ()) ] in
  Gateway.dispatch (Startup.boot adapters) (GatewayCalls.post "/telegram/webhook")
    = Gateway.Reply 503 "Adapter not ready" ∧
  Gateway.dispatch (Startup.boot adapters) (GatewayCalls.post "/web/chat")
    = Gateway.Invoke "web.dispatch" ∧
  Gateway.dispatch (Startup.boot adapters) (GatewayCalls.post "/slack/events")
    = Gateway.Reply 404 "Not found".
Proof.
  intros adapters.
  assert (NoDup (Startup.adapterName <$> adapters)) as Hnd
    by (apply (bool_decide_unpack _); vm_compute; exact I).
  split_and!.
  - apply (proj1 (startup_serves_exactly_the_started adapters "/telegram/webhook" Hnd)
             (Startup.mkAdapter Startup.telegram_webhook (Some "telegram.dispatch")
                (Js.Threw "ETELEGRAM: 401 Unauthorized")) "telegram.dispatch");
      [apply elem_of_cons; by left | reflexivity | reflexivity].
  - apply (proj1 (startup_serves_exactly_the_started adapters "/web/chat" Hnd)
             (Startup.mkAdapter Startup.web (Some "web.dispatch") (Js.Fulfilled ())) "web.dispatch");
      [apply elem_of_cons; right; apply elem_of_cons; by left | reflexivity | reflexivity].
  - apply (proj2 (startup_serves_exactly_the_started adapters "/slack/events" Hnd)).
    by repeat constructor.
Defined.

(** *** Adapter selection *)

(** X4. Adapter selection without [--adapter]: the list is never empty,
    names no adapter twice and never holds both Slack adapters.  When the
    environment has the variables of at least one adapter, the list holds
    "slack" exactly when the app token and the bot token are set,
    "slack:webhook" exactly when the signing secret and the bot token are
    set and the app token is not, "telegram" exactly when the Telegram
    token is set, and [createAdapter] builds for each selected name the
    adapter of its class.  With the variables of none, the selection is
    "slack" alone and [createAdapter] ends the process with the
    missing-variables message of the Slack socket adapter. *)
Theorem detected_adapters_are_creatable e :
  let names := Args.detect_adapters e in
  let socket := Args.set (Args.MOM_SLACK_APP_TOKEN e) && Args.set (Args.MOM_SLACK_BOT_TOKEN e) in
  let webhook := Args.set (Args.MOM_SLACK_SIGNING_SECRET e) && Args.set (Args.MOM_SLACK_BOT_TOKEN e) in
  let telegram := Args.set (Args.MOM_TELEGRAM_BOT_TOKEN e) in
  names ≠ [] ∧ NoDup names ∧
  ("slack" ∈ names → "slack:webhook" ∈ names → False) ∧
  (socket || webhook || telegram = true →
   ("slack" ∈ names ↔ socket = true) ∧
   ("slack:webhook" ∈ names ↔ webhook = true ∧ socket = false) ∧
   ("telegram" ∈ names ↔ telegram = true) ∧
   Forall (λ n, n = "slack" ∧ Args.createAdapter e n = Args.SlackSocketAdapter ∨
                n = "slack:webhook" ∧ Args.createAdapter e n = Args.SlackWebhookAdapter ∨
                n = "telegram" ∧ Args.createAdapter e n = Args.TelegramPollingAdapter) names) ∧
  (socket || webhook || telegram = false →
   names = ["slack"] ∧
   Args.createAdapter e "slack" =
     Args.Exit "Missing env: MOM_SLACK_APP_TOKEN, MOM_SLACK_BOT_TOKEN").
Proof.
  destruct e as [app bot sign tg url secret skip].
  unfold Args.detect_adapters, Args.createAdapter, Args.set. simpl.
  destruct (Js.falsy app), (Js.falsy bot), (Js.falsy sign), (Js.falsy tg); simpl;
    apply (bool_decide_unpack _); vm_compute; exact I.
Qed.


(** *** Conversations do not interfere in the handler *)

Section HandlerLocalFacts.
Import Main.
Implicit Types (s : Main.t) (c : string).

Lemma getState_lookup_self c (m : gmap string ChannelState) :
  getState c m !! c = Some (default fresh_state (m !! c)).
Proof.
  unfold getState. destruct (m !! c) as [st|] eqn:E; simpl; [done|].
  by rewrite lookup_insert_eq.
Qed.

Lemma effects_on_app c es1 es2 :
  Observe.effects_on c (es1 ++ es2) = Observe.effects_on c es1 ++ Observe.effects_on c es2.
Proof. apply filter_app. Qed.

(** A step on another conversation leaves [c] as it is. *)
Lemma step_elsewhere a s s' c :
  Observe.handler_channel a ≠ c → step a s = Some s' → Local.same_handler c s' s.
Proof.
  intros Hne. unfold Local.same_handler.
  destruct a as [c0|c0|c0 i r|c0 r]; simpl in Hne; simpl.
  - intros [= <-]. simpl.
    by rewrite lookup_alter_ne, getState_lookup_ne, lookup_insert_ne.
  - intros [= <-]. unfold handleStop. destruct (isRunning c0 s); simpl.
    + rewrite lookup_alter_ne, lookup_insert_ne, effects_on_app by done.
      unfold Observe.effects_on at 2. rewrite !filter_cons_False, filter_nil by done.
      by rewrite app_nil_r.
    + rewrite effects_on_app. unfold Observe.effects_on at 2.
      rewrite !filter_cons_False, filter_nil by done. by rewrite app_nil_r.
  - unfold resume_handleEvent.
    assert (∀ s0, Local.same_handler c s0 s → Local.same_handler c (finally c0 i s0) s) as Hfin.
    { intros s0 (H1 & H2 & H3 & H4). unfold Local.same_handler. simpl.
      by rewrite lookup_alter_ne, lookup_insert_ne. }
    assert (∀ p e, Observe.effect_channel e = c0 →
                   Local.same_handler c (suspend c0 i p e s) s) as Hsus.
    { intros p e He. unfold Local.same_handler. simpl.
      rewrite lookup_insert_ne, effects_on_app by done.
      unfold Observe.effects_on at 2. rewrite filter_cons_False, filter_nil by congruence.
      by rewrite app_nil_r. }
    assert (Local.same_handler c s s) as Hrefl by done.
    destruct (runs_of c0 s !! i) as [[| |]|]; [| | |done].
    + destruct r as [stopReason|err]; [|intros [= <-]; by apply Hfin].
      destruct (channelStates s !! c0) as [st|]; [|done]. simpl.
      destruct (bool_decide (stopReason = "aborted") && stopRequested st);
        [|intros [= <-]; by apply Hfin].
      destruct (recorded_handle st); intros [= <-]; by apply Hsus.
    + destruct r as [v|err]; intros [= <-]; apply Hfin; [|done].
      unfold Local.same_handler. simpl. by rewrite lookup_alter_ne.
    + intros [= <-]. by apply Hfin.
  - unfold resume_handleStop. destruct (stops_of c0 s); [done|]. intros [= <-]. simpl.
    rewrite lookup_insert_ne by done. destruct r; [by rewrite lookup_alter_ne|done].
Qed.

Lemma same_handler_trans c s1 s2 s3 :
  Local.same_handler c s1 s2 → Local.same_handler c s2 s3 → Local.same_handler c s1 s3.
Proof. intros (?&?&?&?) (?&?&?&?). unfold Local.same_handler. split_and!; congruence. Qed.

(** A step on [c] reads and writes the part of the state that belongs
    to [c], and nothing else. *)
Lemma step_here a s1 s2 s1' c :
  Observe.handler_channel a = c → Local.same_handler c s1 s2 →
  step a s1 = Some s1' →
  ∃ s2', step a s2 = Some s2' ∧ Local.same_handler c s1' s2'.
Proof.
  intros Hc Hsame. pose proof Hsame as (Hst & Hru & Hsp & Hef).
  assert (isRunning c s1 = isRunning c s2) as Hir by (unfold isRunning; by rewrite Hst).
  assert (runs_of c s1 = runs_of c s2) as Hro by (unfold runs_of; by rewrite Hru).
  assert (stops_of c s1 = stops_of c s2) as Hso by (unfold stops_of; by rewrite Hsp).
  assert (∀ i s1 s2, Local.same_handler c s1 s2 →
            Local.same_handler c (finally c i s1) (finally c i s2)) as Hfin.
  { intros i t1 t2 (H1 & H2 & H3 & H4). unfold Local.same_handler, finally, runs_of. simpl.
    by rewrite !lookup_alter_eq, !lookup_insert_eq, H1, H2. }
  assert (∀ i p e, Local.same_handler c (suspend c i p e s1) (suspend c i p e s2)) as Hsus.
  { intros i p e. unfold Local.same_handler, suspend. simpl.
    by rewrite !lookup_insert_eq, !effects_on_app, Hro, Hef. }
  destruct a as [c0|c0|c0 i r|c0 r]; simpl in Hc; subst c0; simpl.
  - intros [= <-]. eexists. split; [done|].
    unfold Local.same_handler, handleEvent. simpl.
    by rewrite !lookup_alter_eq, !getState_lookup_self, !lookup_insert_eq, Hst, Hro.
  - intros [= <-]. eexists. split; [done|].
    unfold Local.same_handler, handleStop. rewrite Hir.
    destruct (isRunning c s2); simpl.
    + by rewrite !lookup_alter_eq, !lookup_insert_eq, !effects_on_app, Hst, Hso, Hef.
    + by rewrite !effects_on_app, Hef.
  - unfold resume_handleEvent. rewrite Hro, Hst.
    destruct (runs_of c s2 !! i) as [[| |]|]; [| | |done].
    + destruct r as [stopReason|err]; [|intros [= <-]; eexists; split; [done|by apply Hfin]].
      destruct (channelStates s2 !! c) as [st|]; [|done]. simpl.
      destruct (bool_decide (stopReason = "aborted") && stopRequested st);
        [|intros [= <-]; eexists; split; [done|by apply Hfin]].
      destruct (recorded_handle st); intros [= <-]; eexists; (split; [done|]); apply Hsus.
    + destruct r as [v|err]; intros [= <-]; eexists; (split; [done|]); apply Hfin; [|done].
      unfold Local.same_handler. simpl. by rewrite !lookup_alter_eq, Hst.
    + intros [= <-]. eexists. split; [done|]. by apply Hfin.
  - unfold resume_handleStop. rewrite Hso. destruct (stops_of c s2); [done|].
    intros [= <-]. eexists. split; [done|]. unfold Local.same_handler. simpl.
    rewrite !lookup_insert_eq. destruct r; [by rewrite !lookup_alter_eq, Hst|done].
Qed.

(** X5. Conversations proceed independently in the handler.  Whatever
    calls and resumptions happen on other conversations and however they
    are interleaved, conversation [c] ends up as if only its own actions
    had happened: running the actions of [c] alone from the same state
    succeeds and gives the same channel state, the same invocations in
    flight, the same suspended stop requests and the same calls made for
    [c]. *)
Theorem handler_conversations_independent acts s s' c :
  exec acts s = Some s' →
  ∃ s'', exec (filter (λ a, Observe.handler_channel a = c) acts) s = Some s'' ∧
         Local.same_handler c s' s''.
Proof.
  assert (∀ acts s1 s2 s1', Local.same_handler c s1 s2 → exec acts s1 = Some s1' →
            ∃ s2', exec (filter (λ a, Observe.handler_channel a = c) acts) s2 = Some s2' ∧
                   Local.same_handler c s1' s2') as Hgen.
  { clear. induction acts as [|a acts IH]; intros s1 s2 s1' Hsame; simpl.
    - intros [= <-]. by exists s2.
    - destruct (step a s1) as [t1|] eqn:E; [|done]. simpl. intros Hexec.
      destruct (decide (Observe.handler_channel a = c)) as [Hc|Hc].
      + rewrite filter_cons_True by done. simpl.
        destruct (step_here a s1 s2 t1 c Hc Hsame E) as (t2 & -> & Hsame'). simpl.
        by apply (IH t1 t2).
      + rewrite filter_cons_False by done.
        apply (IH t1 s2); [|done].
        eapply same_handler_trans; [by eapply step_elsewhere|done]. }
  intros Hexec. by apply (Hgen acts s s).
Qed.

End HandlerLocalFacts.

(** Chat 42 is stopped while chat 7 starts and ends a run in between. *)
Lemma handler_conversations_independent_witness :
  let acts := [Main.CallHandleEvent "42"; Main.CallHandleEvent "7"; Main.CallHandleStop "42";
               Main.ResumeHandleEvent "7" 0 (Js.Fulfilled "stop");
               Main.ResumeHandleStop "42" (Js.Fulfilled "901")] in
  ∃ s' s'', Main.exec acts Main.init = Some s' ∧
            Main.exec [Main.CallHandleEvent "42"; Main.CallHandleStop "42";
                       Main.ResumeHandleStop "42" (Js.Fulfilled "901")] Main.init = Some s'' ∧
            Local.same_handler "42" s' s''.
Proof.
  intros acts.
  destruct (Main.exec acts Main.init) as [s'|] eqn:E; [|vm_compute in E; discriminate].
  destruct (handler_conversations_independent acts Main.init s' "42" E) as (s'' & Hexec & Hsame).
  exists s', s''. split; [reflexivity|]. split; [exact Hexec | exact Hsame].
Defined.


(** *** A stop is announced only after it was asked for *)

Section StopAnnouncementFacts.
Import Main.
Implicit Types (s : Main.t) (c : string).

(** The calls made so far are well ordered: each announcement of a stop
    on a conversation comes after a [runner.abort()] of that
    conversation. *)
Local Abbreviation announced_after_abort es :=
  (∀ i e c, es !! i = Some e → Observe.announces_stopped c e = true →
            ∃ j, (j < i)%nat ∧ es !! j = Some (RunnerAbort c)).

Lemma announced_after_abort_app (es new : list effect) :
  announced_after_abort es →
  (∀ e c, e ∈ new → Observe.announces_stopped c e = true → RunnerAbort c ∈ es) →
  announced_after_abort (es ++ new).
Proof.
  intros Hold Hnew i e c Hi He.
  apply lookup_app_Some in Hi as [Hi|[Hlen Hi]].
  - destruct (Hold i e c Hi He) as (j & Hj & Hlook).
    exists j. split; [done|]. by apply lookup_app_l_Some.
  - apply list_elem_of_lookup_2 in Hi.
    pose proof (Hnew e c Hi He) as Hin. apply list_elem_of_lookup_1 in Hin as [j Hj].
    exists j.
    split; [apply lookup_lt_Some in Hj; lia | by apply lookup_app_l_Some].
Qed.

(** What a step appends to the calls made, and where a raised
    [stopRequested] flag comes from. *)
Lemma step_stop_flag a s s' :
  step a s = Some s' →
  (∃ new, effects s' = effects s ++ new ∧
          ∀ e c, e ∈ new → Observe.announces_stopped c e = true →
                 ∃ st, channelStates s !! c = Some st ∧ stopRequested st = true) ∧
  (∀ c st', channelStates s' !! c = Some st' → stopRequested st' = true →
            (∃ st, channelStates s !! c = Some st ∧ stopRequested st = true) ∨
            RunnerAbort c ∈ effects s').
Proof.
  assert (∀ (f : ChannelState → ChannelState) c0 (m : gmap string ChannelState) c st',
            (∀ st, stopRequested (f st) = stopRequested st) →
            alter f c0 m !! c = Some st' → stopRequested st' = true →
            ∃ st, m !! c = Some st ∧ stopRequested st = true) as Halter.
  { intros f c0 m c st' Hf. destruct (decide (c0 = c)) as [->|Hne].
    - rewrite lookup_alter_eq. destruct (m !! c) as [st|]; [|done]. simpl.
      intros [= <-] Hs. exists st. by rewrite <- Hf.
    - rewrite lookup_alter_ne by done. intros ? ?. by eexists. }
  assert (∀ c0 i s0, effects s0 = effects s → channelStates s0 = channelStates s ∨
              channelStates s0 = alter (set_stopMessageTs None) c0 (channelStates s) →
            (∃ new, effects (finally c0 i s0) = effects s ++ new ∧
               ∀ e c, e ∈ new → Observe.announces_stopped c e = true →
                      ∃ st, channelStates s !! c = Some st ∧ stopRequested st = true) ∧
            (∀ c st', channelStates (finally c0 i s0) !! c = Some st' → stopRequested st' = true →
               (∃ st, channelStates s !! c = Some st ∧ stopRequested st = true) ∨
               RunnerAbort c ∈ effects (finally c0 i s0))) as Hfin.
  { intros c0 i s0 He Hm. split.
    - exists []. simpl. rewrite He, app_nil_r. split; [done|].
      intros e c Hin. by apply elem_of_nil in Hin.
    - intros c st' Hl Hs. left. simpl in Hl.
      apply Halter in Hl as (st & Hl & Hst); [|done..].
      destruct Hm as [Hm|Hm]; rewrite Hm in Hl; [by eexists|].
      by apply Halter in Hl. }
  destruct a as [c0|c0|c0 i r|c0 r]; simpl.
  - intros [= <-]. split.
    + exists []. simpl. rewrite app_nil_r. split; [done|].
      intros e c Hin. by apply elem_of_nil in Hin.
    + intros c st'. simpl. destruct (decide (c0 = c)) as [->|Hne].
      * rewrite lookup_alter_eq, getState_lookup_self. simpl. by intros [= <-].
      * rewrite lookup_alter_ne, getState_lookup_ne by done. intros ? ?. left. by eexists.
  - intros [= <-]. unfold handleStop. destruct (isRunning c0 s); simpl; split.
    + eexists. split; [done|]. intros e c Hin.
      apply elem_of_cons in Hin as [->|Hin]; [done|].
      apply list_elem_of_singleton in Hin as ->. simpl.
      by rewrite andb_false_r.
    + intros c st' Hl Hs. destruct (decide (c0 = c)) as [->|Hne].
      * right. apply elem_of_app. right. apply elem_of_cons. by left.
      * rewrite lookup_alter_ne in Hl by done. left. by eexists.
    + eexists. split; [done|]. intros e c Hin.
      apply list_elem_of_singleton in Hin as ->. simpl. by rewrite andb_false_r.
    + intros c st' Hl Hs. left. by eexists.
  - unfold resume_handleEvent. destruct (runs_of c0 s !! i) as [[| |]|]; [| | |done].
    + destruct r as [stopReason|err]; [|intros [= <-]; by apply Hfin; [|left]].
      destruct (channelStates s !! c0) as [st|] eqn:Est; [|done]. simpl.
      destruct (bool_decide (stopReason = "aborted") && stopRequested st) eqn:Eab;
        [|intros [= <-]; by apply Hfin; [|left]].
      apply andb_true_iff in Eab as [_ Hreq].
      assert (∀ p e, Observe.effect_channel e = c0 →
                (∃ new, effects (suspend c0 i p e s) = effects s ++ new ∧
                   ∀ e' c, e' ∈ new → Observe.announces_stopped c e' = true →
                           ∃ st, channelStates s !! c = Some st ∧ stopRequested st = true) ∧
                (∀ c st', channelStates (suspend c0 i p e s) !! c = Some st' →
                   stopRequested st' = true →
                   (∃ st, channelStates s !! c = Some st ∧ stopRequested st = true) ∨
                   RunnerAbort c ∈ effects (suspend c0 i p e s))) as Hsus.
      { intros p e Hce. split.
        - eexists. split; [done|]. intros e' c Hin Hann.
          apply list_elem_of_singleton in Hin as ->.
          assert (c = c0) as ->.
          { destruct e as [?|c1 t|c1 t1 t2]; simpl in *; [done|..];
              apply andb_true_iff in Hann as [Hc1 _]; apply bool_decide_eq_true in Hc1;
              congruence. }
          by eexists.
        - intros c st' Hl Hs. left. by eexists. }
      destruct (recorded_handle st); intros [= <-]; by apply Hsus.
    + destruct r as [v|err]; intros [= <-]; apply Hfin; try done; [by right|by left].
    + intros [= <-]. by apply Hfin; [|left].
  - unfold resume_handleStop. destruct (stops_of c0 s); [done|]. intros [= <-]. simpl. split.
    + exists []. rewrite app_nil_r. split; [done|]. intros e c Hin. by apply elem_of_nil in Hin.
    + intros c st' Hl Hs. left. destruct r as [ts|err]; [|by eexists].
      by apply Halter in Hl.
Qed.

Lemma stop_order_exec acts s s' :
  (∀ c st, channelStates s !! c = Some st → stopRequested st = true →
           RunnerAbort c ∈ effects s) →
  announced_after_abort (effects s) →
  exec acts s = Some s' →
  announced_after_abort (effects s').
Proof.
  revert s. induction acts as [|a acts IH]; intros s Hflag Hord; simpl.
  - by intros [= <-].
  - destruct (step a s) as [s1|] eqn:E; [|done]. simpl.
    destruct (step_stop_flag a s s1 E) as ((new & Hnew & Hann) & Horigin).
    apply IH.
    + intros c st' Hl Hs. destruct (Horigin c st' Hl Hs) as [(st & Hst & Hreq)|Hin]; [|done].
      rewrite Hnew. apply elem_of_app. left. by apply (Hflag c st).
    + rewrite Hnew. apply announced_after_abort_app; [done|].
      intros e c Hin He. destruct (Hann e c Hin He) as (st & Hst & Hreq). by apply (Hflag c st).
Qed.


End StopAnnouncementFacts.


(** *** A handle left over from an earlier stop *)

Section LeftoverHandleFacts.
Import Main.
Implicit Types (s : Main.t) (c : string).

(** X7. The handle of a "_Stopping..._" message outlives the run it was
    posted for.  [handleEvent] resets [stopRequested] when a run starts
    but leaves [stopMessageTs] alone, so with a handle left over on an
    idle conversation (its run ended before the post settled, or was not
    reported as aborted), the next run that is stopped and ends before its
    own "_Stopping..._" post has settled writes "_Stopped_" into the
    leftover message, not into its own. *)
Theorem leftover_stop_handle_is_edited_by_next_run s c st ts :
  channelStates s !! c = Some st →
  recorded_handle st = Some ts →
  runs_of c s = [] →
  ∃ s', exec [CallHandleEvent c; CallHandleStop c;
              ResumeHandleEvent c 0 (Js.Fulfilled "aborted")] s = Some s' ∧
        effects s' = effects s ++ [RunnerAbort c; PostMessage c "_Stopping..._";
                                   UpdateMessage c ts "_Stopped_"] ∧
        runs_of c s' = [AwaitStoppedEdit].
Proof.
  intros Hst Hts Hruns.
  set (s1 := handleEvent c s).
  assert (channelStates s1 !! c = Some (set_stopRequested false (set_running true st))) as Hst1.
  { subst s1. cbn [handleEvent channelStates].
    by rewrite lookup_alter_eq, getState_lookup_self, Hst. }
  assert (isRunning c s1 = true) as Hrun1 by apply handleEvent_isRunning.
  set (s2 := handleStop c s1).
  assert (runs_of c s2 = [AwaitAgent]) as Hr2.
  { subst s2 s1. by rewrite handleStop_runs, handleEvent_runs, Hruns. }
  assert (channelStates s2 !! c =
            Some (set_stopRequested true (set_stopRequested false (set_running true st)))) as Hst2.
  { subst s2. unfold handleStop. rewrite Hrun1. cbn [channelStates].
    by rewrite lookup_alter_eq, Hst1. }
  assert (effects s2 = effects s ++ [RunnerAbort c; PostMessage c "_Stopping..._"]) as He2.
  { subst s2. unfold handleStop. by rewrite Hrun1. }
  change (exec [CallHandleEvent c; CallHandleStop c;
                ResumeHandleEvent c 0 (Js.Fulfilled "aborted")] s)
    with (resume_handleEvent c 0 (Js.Fulfilled "aborted") s2 ≫= Some).
  unfold resume_handleEvent. rewrite Hr2. cbn [lookup list_lookup]. rewrite Hst2.
  cbn [mbind option_bind stopRequested set_stopRequested].
  rewrite bool_decide_eq_true_2 by done. cbn [andb].
  assert (recorded_handle (set_stopRequested true (set_stopRequested false (set_running true st)))
          = Some ts) as -> by exact Hts.
  eexists. split; [done|]. cbn [effects suspend]. split; [by rewrite He2, <- app_assoc|].
  unfold runs_of at 1. cbn [runs suspend]. rewrite lookup_insert_eq. cbn [default].
  by rewrite Hr2.
Qed.

End LeftoverHandleFacts.

(** Chat 42: the first run ends before its "_Stopping..._" post settles
    with handle 901; the second run is stopped in turn. *)
Lemma leftover_stop_handle_is_edited_by_next_run_witness :
  let before := [Main.CallHandleEvent "42"; Main.CallHandleStop "42";
                 Main.ResumeHandleEvent "42" 0 (Js.Fulfilled "aborted");
                 Main.ResumeHandleStop "42" (Js.Fulfilled "901");
                 Main.ResumeHandleEvent "42" 0 (Js.Fulfilled "901")] in
  ∃ s s', Main.exec before Main.init = Some s ∧
          Main.exec [Main.CallHandleEvent "42"; Main.CallHandleStop "42";
                     Main.ResumeHandleEvent "42" 0 (Js.Fulfilled "aborted")] s = Some s' ∧
          Main.effects s' =
            [Main.RunnerAbort "42"; Main.PostMessage "42" "_Stopping..._";
             Main.PostMessage "42" "_Stopped_";
             Main.RunnerAbort "42"; Main.PostMessage "42" "_Stopping..._";
             Main.UpdateMessage "42" "901" "_Stopped_"].
Proof.
  intros before.
  destruct (Main.exec before Main.init) as [s|] eqn:E; [|vm_compute in E; discriminate].
  assert (s = default Main.init (Main.exec before Main.init)) as Hs by (by rewrite E).
  destruct (leftover_stop_handle_is_edited_by_next_run s "42"
              (Main.mkState false true (Some "901")) "901") as (s' & Hexec & Heff & _).
  - rewrite Hs. vm_compute. reflexivity.
  - reflexivity.
  - rewrite Hs. vm_compute. reflexivity.
  - exists s, s'. split; [reflexivity|]. split; [exact Hexec|].
    rewrite Heff, Hs. vm_compute. reflexivity.
Defined.


(** *** Conversations do not interfere in the Telegram queue *)

Section QueueLocalFacts.
Import TelegramQueue.
Implicit Types (q : TelegramQueue.t) (c : string).

Lemma history_on_app c h1 h2 :
  Local.history_on c (h1 ++ h2) = Local.history_on c h1 ++ Local.history_on c h2.
Proof. apply filter_app. Qed.

Lemma same_queue_trans c q1 q2 q3 :
  Local.same_queue c q1 q2 → Local.same_queue c q2 q3 → Local.same_queue c q1 q3.
Proof. intros (?&?&?&?) (?&?&?&?). unfold Local.same_queue. split_and!; congruence. Qed.

Lemma drain_elsewhere c0 c q : c0 ≠ c → Local.same_queue c (drain c0 q) q.
Proof.
  intros Hne. unfold Local.same_queue, drain.
  destruct (queues q !! c0) as [[|w rest]|]; simpl;
    rewrite ?lookup_insert_ne, ?lookup_delete_ne, ?history_on_app by done; try done.
  unfold Local.history_on at 2. rewrite filter_cons_False, filter_nil by done.
  by rewrite app_nil_r.
Qed.

Lemma drain_here c q1 q2 :
  Local.same_queue c q1 q2 → Local.same_queue c (drain c q1) (drain c q2).
Proof.
  intros (Hq & Hp & Ha & Hh). unfold Local.same_queue, drain. rewrite Hq.
  destruct (queues q2 !! c) as [[|w rest]|] eqn:E; simpl;
    by rewrite ?lookup_insert_eq, ?lookup_delete_eq, ?history_on_app, ?Hh, ?Hq, ?E.
Qed.

Lemma enqueueWork_elsewhere c0 c w q : c0 ≠ c → Local.same_queue c (enqueueWork c0 w q) q.
Proof.
  intros Hne. unfold enqueueWork, processQueue.
  match goal with |- context [if busy c0 ?q0 then _ else _] =>
    assert (Local.same_queue c q0 q) as H0
      by (unfold Local.same_queue; simpl; by rewrite lookup_insert_ne)
  end.
  destruct (busy c0 _); [done|].
  eapply same_queue_trans; [by apply drain_elsewhere|].
  unfold Local.same_queue. simpl. by rewrite !lookup_insert_ne.
Qed.

Lemma enqueueWork_here c w q1 q2 :
  Local.same_queue c q1 q2 → Local.same_queue c (enqueueWork c w q1) (enqueueWork c w q2).
Proof.
  intros (Hq & Hp & Ha & Hh). unfold enqueueWork, processQueue, busy, pending. simpl.
  rewrite Hp, Hq. destruct (default false (processing q2 !! c)).
  - unfold Local.same_queue. simpl. by rewrite !lookup_insert_eq.
  - apply drain_here. unfold Local.same_queue. simpl. by rewrite !lookup_insert_eq.
Qed.

Lemma queue_step_elsewhere a q q' c :
  Observe.queue_channel a ≠ c → step a q = Some q' → Local.same_queue c q' q.
Proof.
  intros Hne. destruct a as [c0 w|ev|c0 r]; simpl in Hne; simpl.
  - intros [= <-]. by apply enqueueWork_elsewhere.
  - intros [= <-]. unfold enqueueEvent. destruct (5 <=? _)%nat; simpl; [done|].
    by apply enqueueWork_elsewhere.
  - unfold settle. destruct (awaited q !! c0) as [w|]; [|done]. simpl. intros [= <-].
    eapply same_queue_trans; [by apply drain_elsewhere|].
    unfold Local.same_queue. simpl. rewrite history_on_app.
    assert (Local.history_on c (outcome_entries c0 w r) = []) as ->.
    { destruct r; unfold Local.history_on; simpl; by rewrite !filter_cons_False, filter_nil. }
    by rewrite app_nil_r.
Qed.

Lemma queue_step_here a q1 q2 q1' c :
  Observe.queue_channel a = c → Local.same_queue c q1 q2 →
  step a q1 = Some q1' →
  ∃ q2', step a q2 = Some q2' ∧ Local.same_queue c q1' q2'.
Proof.
  intros Hc Hsame. pose proof Hsame as (Hq & Hp & Ha & Hh).
  destruct a as [c0 w|ev|c0 r]; simpl in Hc; simpl.
  - subst c0. intros [= <-]. eexists. split; [done|]. by apply enqueueWork_here.
  - intros [= <-]. eexists. split; [done|]. unfold enqueueEvent, pending.
    rewrite Hc, Hq. destruct (5 <=? _)%nat; simpl; [done|].
    rewrite <- Hc at 1 2. rewrite Hc. by apply enqueueWork_here.
  - subst c0. unfold settle. rewrite Ha. destruct (awaited q2 !! c) as [w|] eqn:E2; [|done]. simpl.
    intros [= <-]. eexists. split; [done|]. apply drain_here.
    unfold Local.same_queue. simpl.
    split_and!; [done | done | congruence | by rewrite !history_on_app, Hh].
Qed.

(** X8. Distinct chats drain independently.  Whatever is enqueued and
    settled on other chats and however it is interleaved, chat [c] ends
    up as if only its own actions had happened: running the actions of
    [c] alone from the same state succeeds and gives the same queue, the
    same busy flag, the same awaited item and the same history for
    [c]. *)
Theorem queue_conversations_independent acts q q' c :
  exec acts q = Some q' →
  ∃ q'', exec (filter (λ a, Observe.queue_channel a = c) acts) q = Some q'' ∧
         Local.same_queue c q' q''.
Proof.
  assert (∀ acts q1 q2 q1', Local.same_queue c q1 q2 → exec acts q1 = Some q1' →
            ∃ q2', exec (filter (λ a, Observe.queue_channel a = c) acts) q2 = Some q2' ∧
                   Local.same_queue c q1' q2') as Hgen.
  { clear. induction acts as [|a acts IH]; intros q1 q2 q1' Hsame; simpl.
    - intros [= <-]. by exists q2.
    - destruct (step a q1) as [t1|] eqn:E; [|done]. simpl. intros Hexec.
      destruct (decide (Observe.queue_channel a = c)) as [Hc|Hc].
      + rewrite filter_cons_True by done. simpl.
        destruct (queue_step_here a q1 q2 t1 c Hc Hsame E) as (t2 & -> & Hsame'). simpl.
        by apply (IH t1 t2).
      + rewrite filter_cons_False by done.
        apply (IH t1 q2); [|done].
        eapply same_queue_trans; [by eapply queue_step_elsewhere|done]. }
  intros Hexec. by apply (Hgen acts q q).
Qed.

End QueueLocalFacts.

(** Chat 7 fills its queue and fails an item while chat 42 runs one
    message and one scheduled event. *)
Lemma queue_conversations_independent_witness :
  let w := TelegramQueue.mkWork (demo_event "1") false in
  let other := TelegramQueue.mkWork (TelegramQueue.mkEvent "7" "1" "U1" "hello") false in
  let acts := [TelegramQueue.EnqueueWork "7" other; TelegramQueue.EnqueueWork "42" w;
               TelegramQueue.EnqueueWork "7" other; TelegramQueue.EnqueueEvent (demo_event "2");
               TelegramQueue.Settle "7" (Js.Threw "boom"); TelegramQueue.Settle "42" (Js.Fulfilled ())] in
  ∃ q' q'', TelegramQueue.exec acts TelegramQueue.create = Some q' ∧
            TelegramQueue.exec [TelegramQueue.EnqueueWork "42" w;
                                TelegramQueue.EnqueueEvent (demo_event "2");
                                TelegramQueue.Settle "42" (Js.Fulfilled ())]
              TelegramQueue.create = Some q'' ∧
            Local.same_queue "42" q' q''.
Proof.
  intros w other acts.
  destruct (TelegramQueue.exec acts TelegramQueue.create) as [q'|] eqn:E;
    [|vm_compute in E; discriminate].
  destruct (queue_conversations_independent acts TelegramQueue.create q' "42" E)
    as (q'' & Hexec & Hsame).
  exists q', q''. split; [reflexivity|]. split; [exact Hexec | exact Hsame].
Defined.


(** *** What waits in a Telegram chat's queue *)

Section SystemQueueFacts.
Import TelegramQueue.
Variable is_stop : string → bool.
Implicit Types (s : TelegramSystem.t) (q : TelegramQueue.t) (c : string).

(** Only scheduled events wait, and at most five of them. *)
Local Abbreviation waiting_ok q :=
  (∀ c, le (length (pending c q)) 5 ∧ Forall (λ w, isEvent w = true) (pending c q)).

Lemma idle_chat_has_empty_queue c s :
  TelegramSystem.in_step c s →
  Main.isRunning c (TelegramSystem.handler s) = false →
  busy c (TelegramSystem.adapter s) = false ∧ pending c (TelegramSystem.adapter s) = [].
Proof.
  intros ((_ & _ & Hbusy & Hidle) & _ & Hagree) Hrun.
  destruct Hagree as [(Ha & _ & _)|(w & p & _ & _ & Hr)]; [|congruence].
  split; [|by apply Hidle].
  apply not_true_is_false. intros Eb. apply Hbusy in Eb. rewrite Ha in Eb. by destruct Eb.
Qed.

Lemma waiting_ok_enqueueWork c0 w q :
  waiting_ok q →
  (busy c0 q = false ∧ pending c0 q = [] ∨
   busy c0 q = true ∧ isEvent w = true ∧ (length (pending c0 q) < 5)%nat) →
  waiting_ok (enqueueWork c0 w q).
Proof.
  intros Hok Hcase c. destruct (decide (c0 = c)) as [<-|Hne].
  - destruct Hcase as [[Hb Hp]|(Hb & Hw & Hlen)].
    + destruct (enqueueWork_idle c0 w q Hb Hp) as (-> & _). simpl. split; [lia|done].
    + destruct (enqueueWork_busy c0 w q Hb) as (-> & _).
      destruct (Hok c0) as [_ Hall]. rewrite length_app. simpl. split; [lia|].
      apply Forall_app. split; [done | by repeat constructor].
  - destruct (enqueueWork_other c0 c w q Hne) as [-> _]. apply Hok.
Qed.

Lemma waiting_ok_step a s s' :
  (∀ c, TelegramSystem.in_step c s) →
  waiting_ok (TelegramSystem.adapter s) →
  TelegramSystem.step is_stop a s = Some s' →
  waiting_ok (TelegramSystem.adapter s').
Proof.
  intros Hinv Hok. destruct a as [ev|ev|c0 r|c0 r]; simpl.
  - intros [= <-]. unfold TelegramSystem.handleIncomingMessage.
    destruct (is_stop (text ev));
      destruct (Main.isRunning (channel ev) (TelegramSystem.handler s)) eqn:Er; simpl; try done.
    apply waiting_ok_enqueueWork; [done|]. left.
    by apply idle_chat_has_empty_queue.
  - intros [= <-]. unfold TelegramSystem.enqueueEvent, enqueueEvent.
    destruct (5 <=? length (pending (channel ev) (TelegramSystem.adapter s)))%nat eqn:E5;
      simpl; [done|].
    apply Nat.leb_gt in E5. apply waiting_ok_enqueueWork; [done|].
    destruct (busy (channel ev) (TelegramSystem.adapter s)) eqn:Eb; [by right|]. left.
    split; [done|].
    destruct (Hinv (channel ev)) as ((_ & _ & Hbusy & Hidle) & _). apply Hidle.
    destruct (awaited (TelegramSystem.adapter s) !! channel ev) eqn:Ea; [|done].
    assert (false = true) by (rewrite <- Eb; apply Hbusy; by eexists). done.
  - unfold TelegramSystem.resume_run.
    destruct (Main.resume_handleEvent c0 0 r (TelegramSystem.handler s)) as [h1|]; [|done]. simpl.
    destruct (Main.runs_of c0 h1); [|by intros [= <-]].
    unfold settle. destruct (awaited (TelegramSystem.adapter s) !! c0) as [w0|]; [|done]. simpl.
    intros [= <-] c. simpl.
    match goal with |- context [drain c0 ?q1] => set (q0 := q1) end.
    destruct (Hok c) as [Hlen Hall].
    destruct (decide (c0 = c)) as [<-|Hne].
    + pose proof (drain_spec c0 q0) as Hd.
      change (pending c0 q0) with (pending c0 (TelegramSystem.adapter s)) in Hd.
      destruct (pending c0 (TelegramSystem.adapter s)) as [|w' rest];
        destruct Hd as (-> & _); [split; [simpl; lia|done]|].
      simpl in Hlen. apply Forall_cons in Hall as [_ Hall]. split; [lia|done].
    + destruct (drain_other c0 c q0 Hne) as (-> & _). done.
  - unfold TelegramSystem.resume_stop.
    destruct (Main.resume_handleStop c0 r (TelegramSystem.handler s)); [|done].
    by intros [= <-].
Qed.

(** X9. With the Telegram adapter as the caller, a user message never
    waits: whatever messages, scheduled events and stop requests arrive
    and however the runs go, the queue of every chat holds scheduled
    events only, and never more than five of them.  (A user message is
    handed to the queue only while the chat is idle, where it is started
    at once; otherwise it is answered "Already working".) *)
Theorem telegram_queue_holds_at_most_five_events acts s c :
  TelegramSystem.exec is_stop acts TelegramSystem.init = Some s →
  (length (pending c (TelegramSystem.adapter s)) ≤ 5)%nat ∧
  Forall (λ w, isEvent w = true) (pending c (TelegramSystem.adapter s)).
Proof.
  assert (∀ acts s0 s, (∀ c, TelegramSystem.in_step c s0) →
            waiting_ok (TelegramSystem.adapter s0) →
            TelegramSystem.exec is_stop acts s0 = Some s →
            waiting_ok (TelegramSystem.adapter s)) as Hgen.
  { clear. induction acts as [|a acts IH]; intros s0 s Hinv Hok; simpl.
    - by intros [= <-].
    - destruct (TelegramSystem.step is_stop a s0) as [s1|] eqn:E; [|done]. simpl.
      apply IH; [by eapply in_step_step | by eapply waiting_ok_step]. }
  intros Hexec. apply (Hgen acts TelegramSystem.init s); [apply in_step_init | | done].
  intros c'. unfold pending. simpl. rewrite lookup_empty. simpl. split; [lia|done].
Qed.

End SystemQueueFacts.

(** On chat 42: a message starts a run, a second message and seven
    scheduled events arrive during it, then the run ends. *)
Lemma telegram_queue_holds_at_most_five_events_witness :
  let is_stop := λ t, bool_decide (t = "stop") in
  let acts := TelegramSystem.Incoming (TelegramQueue.mkEvent "42" "1" "U1" "hello") ::
              TelegramSystem.Incoming (TelegramQueue.mkEvent "42" "2" "U1" "are you there?") ::
              (TelegramSystem.Scheduled ∘ demo_event <$> ["1"; "2"; "3"; "4"; "5"; "6"; "7"]) ++
              [TelegramSystem.RunResumes "42" (Js.Fulfilled "stop")] in
  ∃ s, TelegramSystem.exec is_stop acts TelegramSystem.init = Some s ∧
       TelegramQueue.pending "42" (TelegramSystem.adapter s) =
         (λ n, TelegramQueue.mkWork (demo_event n) true) <$> ["2"; "3"; "4"; "5"] ∧
       TelegramSystem.replies s = [("42", "_Already working. Say `stop` to cancel._")] ∧
       (length (TelegramQueue.pending "42" (TelegramSystem.adapter s)) ≤ 5)%nat ∧
       Forall (λ w, TelegramQueue.isEvent w = true)
              (TelegramQueue.pending "42" (TelegramSystem.adapter s)).
Proof.
  intros is_stop acts.
  destruct (TelegramSystem.exec is_stop acts TelegramSystem.init) as [s|] eqn:E;
    [|vm_compute in E; discriminate].
  assert (s = default TelegramSystem.init (TelegramSystem.exec is_stop acts TelegramSystem.init))
    as Hs by (by rewrite E).
  exists s. split; [reflexivity|]. split; [rewrite Hs; vm_compute; reflexivity|].
  split; [rewrite Hs; vm_compute; reflexivity|].
  exact (telegram_queue_holds_at_most_five_events is_stop acts s "42" E).
Defined.

(** Two chats: a stop request reaches a running chat while another chat
    starts its own run. *)
Lemma telegram_runs_never_overlap_witness :
  let is_stop := λ t, bool_decide (t = "stop") in
  let acts := [TelegramSystem.Incoming (TelegramQueue.mkEvent "42" "1" "U1" "hello");
               TelegramSystem.Scheduled (demo_event "1");
               TelegramSystem.Incoming (TelegramQueue.mkEvent "7" "2" "U2" "hi");
               TelegramSystem.Incoming (TelegramQueue.mkEvent "42" "3" "U1" "stop");
               TelegramSystem.RunResumes "42" (Js.Fulfilled "aborted")] in
  ∃ s, TelegramSystem.exec is_stop acts TelegramSystem.init = Some s ∧
       Main.runs_of "42" (TelegramSystem.handler s) = [Main.AwaitStoppedPost] ∧
       (length (Main.runs_of "42" (TelegramSystem.handler s)) ≤ 1)%nat ∧
       (Main.isRunning "42" (TelegramSystem.handler s) = true ↔
        Main.runs_of "42" (TelegramSystem.handler s) ≠ []) ∧
       (Main.runs_of "42" (TelegramSystem.handler s) ≠ [] ↔
        is_Some (TelegramQueue.awaited (TelegramSystem.adapter s) !! "42")).
Proof.
  intros is_stop acts.
  destruct (TelegramSystem.exec is_stop acts TelegramSystem.init) as [s|] eqn:E;
    [|vm_compute in E; discriminate].
  assert (s = default TelegramSystem.init (TelegramSystem.exec is_stop acts TelegramSystem.init))
    as Hs by (by rewrite E).
  exists s. split; [reflexivity|]. split; [rewrite Hs; vm_compute; reflexivity|].
  exact (telegram_runs_never_overlap is_stop acts s E "42").
Defined.


(** *** The rendering context: its one message and its chain *)

Section ContextChainFacts.
Import TelegramContext.
Context {B : Type} `{Bot B}.
Variable channel : string.
Variable eventFilename : option string.
Implicit Types (w : world (B := B)) (p : TelegramContext.t (B := B)) (v : vars) (n : nat).

Local Abbreviation updateDisplay := (TelegramContext.updateDisplay channel eventFilename).
Local Abbreviation run_job := (TelegramContext.run_job channel eventFilename).
Local Abbreviation invoke := (TelegramContext.invoke channel).
Local Abbreviation turn := (TelegramContext.turn channel eventFilename).
Local Abbreviation step := (TelegramContext.step channel eventFilename).
Local Abbreviation exec := (TelegramContext.exec channel eventFilename).

Local Abbreviation sends w := (Observe.count Observe.is_send (trace w)).
Local Abbreviation deletes w := (Observe.count Observe.is_delete (trace w)).

Lemma count_snoc f tr n o :
  Observe.count f (tr ++ [(n, o)]) = (Observe.count f tr + (if f o then 1 else 0))%nat.
Proof.
  unfold Observe.count. rewrite filter_app, length_app. f_equal.
  destruct (f o) eqn:E.
  - by rewrite filter_cons_True.
  - rewrite filter_cons_False; [done|]. simpl. by rewrite E.
Qed.

(** The context has a message exactly when it has posted one more than
    it has deleted. *)
Local Abbreviation balanced w :=
  (match Js.truthy (messageId (wvars w)) with
   | Some _ => sends w = S (deletes w)
   | None => sends w = deletes w
   end).

Local Abbreviation settled_well r w :=
  (match r with
   | Js.Fulfilled _ => balanced w
   | Js.Threw _ => le (sends w) (S (deletes w))
   end).

Lemma balanced_bounded w : balanced w → le (sends w) (S (deletes w)).
Proof. destruct (Js.truthy _); lia. Qed.

Section NonEmptyIds.

(** [postMessage] renders the numeric [message_id] with [String], which
    never gives the empty string. *)
Hypothesis ids_non_empty :
  ∀ chat text b id b', sendMessage chat text b = (Js.Fulfilled id, b') → id ≠ EmptyString.

Lemma truthy_id chat text b id b' :
  sendMessage chat text b = (Js.Fulfilled id, b') → bool_decide (id = EmptyString) = false.
Proof. intros Hs. apply ids_non_empty in Hs. by apply bool_decide_eq_false_2. Qed.

Lemma updateDisplay_balance n w r w' :
  balanced w → updateDisplay n w = (r, w') → settled_well r w'.
Proof.
  unfold TelegramContext.updateDisplay.
  set (display := if isWorking (wvars w) then _ else _). clearbody display.
  destruct (Js.truthy (messageId (wvars w))) as [id|] eqn:Eid.
  - unfold updateMessage. destruct (editMessageText _ _ _ _) as [r0 b]. intros Hb [= <- <-].
    assert (balanced (emit n (EditMessageText channel id display) w b)) as Hb'.
    { simpl. rewrite Eid, !count_snoc. simpl. lia. }
    destruct r0 as [[]|err]; [done|]. destruct (Js.includes _ _); [done|].
    by apply balanced_bounded.
  - destruct (bool_decide (display = EmptyString)).
    { intros Hb [= <- <-]. by rewrite Eid. }
    unfold postMessage. destruct (sendMessage _ _ _) as [[id|err] b] eqn:Es; intros Hb [= <- <-].
    + simpl. rewrite (truthy_id _ _ _ _ _ Es), !count_snoc. simpl. lia.
    + simpl. rewrite !count_snoc. simpl. lia.
Qed.

Lemma run_job_balance n j w r w' :
  balanced w → run_job n j w = (r, w') → settled_well r w'.
Proof.
  intros Hb. destruct j as [text shouldLog|text| |working|]; simpl.
  - destruct (negb shouldLog && String.prefix tool_prefix text).
    { by apply updateDisplay_balance. }
    destruct (negb shouldLog); [by apply updateDisplay_balance|].
    match goal with |- context [updateDisplay n ?w0] =>
      pose proof (updateDisplay_balance n w0) as Hu;
      destruct (updateDisplay n w0) as [[[]|err] w1] end.
    + specialize (Hu _ _ Hb eq_refl). simpl in Hu.
      destruct (Js.truthy (messageId (wvars w1))) as [id|] eqn:Eid.
      * destruct (logBotResponse _ _ _ _) as [r0 b0]. intros [= <- <-].
        destruct r0; simpl; rewrite ?Eid, !count_snoc; simpl; lia.
      * intros [= <- <-]. simpl. by rewrite Eid.
    + intros [= <- <-]. by apply (Hu (Js.Threw err)).
  - by apply updateDisplay_balance.
  - destruct (Js.truthy (messageId (wvars w))) as [id|] eqn:Eid.
    { intros [= <- <-]. by rewrite Eid. }
    destruct (sendChatAction _ _) as [r0 b0]. unfold postMessage. simpl.
    destruct (sendMessage _ _ _) as [[id|err] b] eqn:Es; intros [= <- <-]; simpl.
    + rewrite (truthy_id _ _ _ _ _ Es), !count_snoc. simpl. lia.
    + rewrite !count_snoc. simpl. lia.
  - by apply updateDisplay_balance.
  - destruct (Js.truthy (messageId (wvars w))) as [id|] eqn:Eid.
    + destruct (deleteMessage _ _ _) as [r0 b]. intros [= <- <-]. simpl.
      rewrite !count_snoc. simpl. lia.
    + intros [= <- <-]. by rewrite Eid.
Qed.

Lemma invoke_balance c p :
  balanced (now (invoke c p)) = balanced (now p) ∧
  sends (now (invoke c p)) = sends (now p) ∧ deletes (now (invoke c p)) = deletes (now p).
Proof.
  destruct c as [text shouldLog|text|text|isTyping|filePath title|working|]; simpl; try done.
  - by destruct (isTyping && _).
  - destruct (readFileSync _ _); [|done]. simpl. by rewrite !count_snoc, !Nat.add_0_r.
Qed.

(** X10. The context asks for a new message only when it holds none.
    Whatever calls the agent makes, however late their callbacks run and
    whatever the platform answers (the id of a post apart, which is never
    the empty string), the context has posted at most one
    message more than it has asked to delete; and as long as its chain is
    not rejected, it holds a message id exactly when it has posted one
    more than it has asked to delete.  The count is of delete requests,
    not of deletions: [deleteMessage] swallows a refusal and the callback
    forgets the id all the same, so nothing is said here of a message
    that the platform refused to delete. *)
Theorem context_posts_only_without_message b acts p :
  exec acts (createContext b) = Some p →
  (sends (now p) ≤ S (deletes (now p)))%nat ∧
  (rejected p = false →
   match Js.truthy (messageId (wvars (now p))) with
   | Some _ => sends (now p) = S (deletes (now p))
   | None => sends (now p) = deletes (now p)
   end).
Proof.
  assert (∀ acts p0 p, (if rejected p0 then le (sends (now p0)) (S (deletes (now p0)))
                        else balanced (now p0)) →
            exec acts p0 = Some p →
            if rejected p then le (sends (now p)) (S (deletes (now p)))
            else balanced (now p)) as Hgen.
  { clear b acts p. induction acts as [|a acts IH]; intros p0 p Hinv; simpl.
    - by intros [= <-].
    - destruct (step a p0) as [p1|] eqn:E; [|done]. simpl. apply IH.
      destruct a as [c|]; simpl in E.
      + injection E as <-. destruct (invoke_balance c p0) as (Hb & Hs & Hd).
        assert (rejected (invoke c p0) = rejected p0) as ->.
        { destruct c; simpl; try done. by destruct (_ && _). }
        destruct (rejected p0); [by rewrite Hs, Hd | by rewrite Hb].
      + unfold TelegramContext.turn in E. destruct (chain p0) as [|[n j] rest]; [done|].
        destruct (rejected p0); [by injection E as <-|].
        destruct (run_job n j (now p0)) as [r w] eqn:Er. injection E as <-. simpl.
        pose proof (run_job_balance n j (now p0) r w Hinv Er) as Hw. by destruct r. }
  intros Hexec. specialize (Hgen acts (createContext b) p eq_refl Hexec).
  destruct (rejected p); [by split | split; [by apply balanced_bounded | done]].
Qed.

End NonEmptyIds.

(** X11. Once a callback has rejected, the context stays silent.  From a
    state whose chain carries a rejection, whatever calls follow and
    whenever their callbacks have their turn, the chain stays rejected,
    the variables of the context keep their values, and the only
    operations performed are the uploads of [uploadFile], which does not
    go through the chain. *)
Theorem rejected_chain_only_uploads acts p p' :
  rejected p = true →
  exec acts p = Some p' →
  rejected p' = true ∧ wvars (now p') = wvars (now p) ∧
  ∃ ups, trace (now p') = trace (now p) ++ ups ∧
         Forall (λ x, Observe.is_upload x.2 = true) ups.
Proof.
  revert p. induction acts as [|a acts IH]; intros p Hrej; simpl.
  - intros [= <-]. split_and!; [done..|]. exists []. by rewrite app_nil_r.
  - destruct (step a p) as [p1|] eqn:E; [|done]. simpl. intros Hexec.
    assert (rejected p1 = true ∧ wvars (now p1) = wvars (now p) ∧
            ∃ ups, trace (now p1) = trace (now p) ++ ups ∧
                   Forall (λ x, Observe.is_upload x.2 = true) ups) as (Hrej1 & Hv1 & ups1 & Ht1 & Hu1).
    { destruct a as [c|]; simpl in E.
      - injection E as <-.
        destruct c as [text shouldLog|text|text|isTyping|filePath title|working|]; simpl;
          try (split_and!; [done..|]; exists []; by rewrite app_nil_r).
        + destruct (isTyping && _); simpl; (split_and!; [done..|]); exists []; by rewrite app_nil_r.
        + split_and!; [done| |].
          { by destruct (readFileSync _ _). }
          destruct (readFileSync _ _); simpl.
          * eexists. split; [done|]. by repeat constructor.
          * exists []. by rewrite app_nil_r.
      - unfold TelegramContext.turn in E. destruct (chain p) as [|[n j] rest]; [done|].
        rewrite Hrej in E. injection E as <-. simpl.
        split_and!; [done..|]. exists []. by rewrite app_nil_r. }
    destruct (IH p1 Hrej1 Hexec) as (Hrej' & Hv' & ups & Ht' & Hu').
    split_and!; [done | congruence |].
    exists (ups1 ++ ups). split; [by rewrite Ht', Ht1, app_assoc | by apply Forall_app].
Qed.

(** X12. Only a failed post, a failed edit or a failed write of the log
    can break the chain.  When the platform accepts every post, rejects
    an edit only because the message is not modified, and every write of
    a reply to the log succeeds, no callback ever rejects, whatever
    happens to the typing indicator and to deletions: the chain is never
    rejected, so no later call is passed over. *)
Theorem chain_survives_typing_and_unmodified_edits b acts p :
  (∀ chat text b0, ∃ id, (sendMessage chat text b0).1 = Js.Fulfilled id) →
  (∀ chat id text b0 err, (editMessageText chat id text b0).1 = Js.Threw err →
                          Js.includes "message is not modified" err = true) →
  (∀ chat text id b0, (logBotResponse chat text id b0).1 = Js.Fulfilled ()) →
  exec acts (createContext b) = Some p →
  rejected p = false.
Proof.
  intros Hsend Hedit Hlog.
  assert (∀ n w, ∃ w', updateDisplay n w = (Js.Fulfilled (), w')) as Hud.
  { intros n w. unfold TelegramContext.updateDisplay.
    set (display := if isWorking (wvars w) then _ else _). clearbody display.
    destruct (Js.truthy (messageId (wvars w))) as [id|].
    - unfold updateMessage. pose proof (Hedit channel id display (bot w)) as He.
      destruct (editMessageText _ _ _ _) as [[[]|err] b0]; simpl in *; [by eexists|].
      rewrite He by done. by eexists.
    - destruct (bool_decide (display = EmptyString)); [by eexists|].
      unfold postMessage. destruct (Hsend channel display (bot w)) as [id Hid].
      destruct (sendMessage _ _ _) as [r0 b0]. simpl in Hid. subst r0. by eexists. }
  assert (∀ n j w, ∃ w', run_job n j w = (Js.Fulfilled (), w')) as Hjob.
  { intros n j w. destruct j as [text shouldLog|text| |working|]; simpl; try apply Hud.
    - destruct (negb shouldLog && String.prefix tool_prefix text); [apply Hud|].
      destruct (negb shouldLog); [apply Hud|].
      match goal with |- context [updateDisplay n ?w0] => destruct (Hud n w0) as [w1 ->] end.
      destruct (Js.truthy _) as [id|]; [|by eexists].
      pose proof (Hlog channel text id (bot w1)) as Hl.
      destruct (logBotResponse _ _ _ _) as [r0 b0]. simpl in Hl. subst r0. by eexists.
    - destruct (Js.truthy _); [by eexists|].
      destruct (sendChatAction _ _) as [r0 b0]. unfold postMessage. simpl.
      match goal with |- context [sendMessage channel ?text ?b1] =>
        destruct (Hsend channel text b1) as [id Hid];
        destruct (sendMessage channel text b1) as [r1 b2] end.
      simpl in Hid. subst r1. by eexists.
    - destruct (Js.truthy _); [|by eexists].
      destruct (deleteMessage _ _ _) as [r0 b0]. by eexists. }
  assert (∀ acts p0 p, rejected p0 = false → exec acts p0 = Some p → rejected p = false) as Hgen.
  { clear b acts p. induction acts as [|a acts IH]; intros p0 p Hrej; simpl.
    - by intros [= <-].
    - destruct (step a p0) as [p1|] eqn:E; [|done]. simpl. apply IH.
      destruct a as [c|]; simpl in E.
      + injection E as <-. destruct c; simpl; try done. by destruct (_ && _).
      + unfold TelegramContext.turn in E. destruct (chain p0) as [|[n j] rest]; [done|].
        rewrite Hrej in E. destruct (Hjob n j (now p0)) as [w Hw]. rewrite Hw in E.
        by injection E as <-. }
  by apply Hgen.
Qed.

End ContextChainFacts.

(** A status message is posted, its deletion is asked for and refused by
    the platform, and a reply is posted anew. *)
Lemma context_posts_only_without_message_witness :
  let numbering : TelegramContext.Bot nat := {|
    TelegramContext.sendMessage := λ _ _ n, (Js.Fulfilled ("9" +:+ pretty n), S n);
    TelegramContext.editMessageText := λ _ _ _ n, (Js.Threw "ETELEGRAM: 400 Bad Request", n);
    TelegramContext.deleteMessage := λ _ _ n, (Js.Threw "ETELEGRAM: 400 message can't be deleted", n);
    TelegramContext.sendChatAction := λ _ n, (Js.Fulfilled (), n);
    TelegramContext.readFileSync := λ _ _, Js.Fulfilled ();
    TelegramContext.logBotResponse := λ _ _ _ n, (Js.Fulfilled (), n) |} in
  let acts := [TelegramContext.Call (TelegramContext.SetTyping true); TelegramContext.Turn;
               TelegramContext.Call TelegramContext.DeleteMessageCall; TelegramContext.Turn;
               TelegramContext.Call (TelegramContext.Respond "again" true); TelegramContext.Turn] in
  ∃ p, TelegramContext.exec (H := numbering) "42" None acts (TelegramContext.createContext 0%nat)
         = Some p ∧
       TelegramContext.rejected p = false ∧
       TelegramContext.messageId (TelegramContext.wvars (TelegramContext.now p)) = Some "91" ∧
       Observe.count Observe.is_send (TelegramContext.trace (TelegramContext.now p)) = 2%nat ∧
       Observe.count Observe.is_delete (TelegramContext.trace (TelegramContext.now p)) = 1%nat ∧
       (Observe.count Observe.is_send (TelegramContext.trace (TelegramContext.now p))
        ≤ S (Observe.count Observe.is_delete (TelegramContext.trace (TelegramContext.now p))))%nat.
Proof.
  intros numbering acts.
  destruct (TelegramContext.exec (H := numbering) "42" None acts (TelegramContext.createContext 0%nat))
    as [p|] eqn:E; [|vm_compute in E; discriminate].
  assert (p = default (TelegramContext.createContext 0%nat)
                (TelegramContext.exec (H := numbering) "42" None acts
                   (TelegramContext.createContext 0%nat))) as Hp by (by rewrite E).
  exists p. split; [reflexivity|].
  split; [rewrite Hp; vm_compute; reflexivity|].
  split; [rewrite Hp; vm_compute; reflexivity|].
  split; [rewrite Hp; vm_compute; reflexivity|].
  split; [rewrite Hp; vm_compute; reflexivity|].
  apply (context_posts_only_without_message (H := numbering) "42" None) with (b := 0%nat) (acts := acts);
    [|exact E].
  intros chat text b id b' [= <- _]. discriminate.
Defined.

(** The first post is refused; a reply, an upload and the end of the
    run follow. *)
Lemma rejected_chain_only_uploads_witness :
  let failing : TelegramContext.Bot nat := {|
    TelegramContext.sendMessage := λ _ _ n, (Js.Threw "ETELEGRAM: 400 Bad Request", n);
    TelegramContext.editMessageText := λ _ _ _ n, (Js.Fulfilled (), n);
    TelegramContext.deleteMessage := λ _ _ n, (Js.Fulfilled (), n);
    TelegramContext.sendChatAction := λ _ n, (Js.Fulfilled (), n);
    TelegramContext.readFileSync := λ _ _, Js.Fulfilled ();
    TelegramContext.logBotResponse := λ _ _ _ n, (Js.Fulfilled (), n) |} in
  let acts := [TelegramContext.Call (TelegramContext.Respond "one" true);
               TelegramContext.Call (TelegramContext.UploadFile "/tmp/report.pdf" None);
               TelegramContext.Turn;
               TelegramContext.Call (TelegramContext.SetWorking false); TelegramContext.Turn] in
  ∃ p p', TelegramContext.exec (H := failing) "42" None
            [TelegramContext.Call (TelegramContext.SetWorking true); TelegramContext.Turn]
            (TelegramContext.createContext 0%nat) = Some p ∧
          TelegramContext.exec (H := failing) "42" None acts p = Some p' ∧
          TelegramContext.rejected p' = true ∧
          TelegramContext.wvars (TelegramContext.now p') = TelegramContext.wvars (TelegramContext.now p) ∧
          ∃ ups, TelegramContext.trace (TelegramContext.now p')
                 = TelegramContext.trace (TelegramContext.now p) ++ ups ∧
                 Forall (λ x, Observe.is_upload x.2 = true) ups.
Proof.
  intros failing acts.
  destruct (TelegramContext.exec (H := failing) "42" None
              [TelegramContext.Call (TelegramContext.SetWorking true); TelegramContext.Turn]
              (TelegramContext.createContext 0%nat)) as [p|] eqn:E; [|vm_compute in E; discriminate].
  assert (p = default (TelegramContext.createContext 0%nat)
                (TelegramContext.exec (H := failing) "42" None
                   [TelegramContext.Call (TelegramContext.SetWorking true); TelegramContext.Turn]
                   (TelegramContext.createContext 0%nat))) as Hp by (by rewrite E).
  destruct (TelegramContext.exec (H := failing) "42" None acts p) as [p'|] eqn:E';
    [|rewrite Hp in E'; vm_compute in E'; discriminate].
  exists p, p'. split; [reflexivity|]. split; [exact E'|].
  apply (rejected_chain_only_uploads (H := failing) "42" None acts p p'); [|exact E'].
  rewrite Hp. vm_compute. reflexivity.
Defined.

(** The sample run on a client that refuses every chat action and
    answers every edit with "message is not modified". *)
Lemma chain_survives_typing_and_unmodified_edits_witness :
  let stubborn : TelegramContext.Bot nat := {|
    TelegramContext.sendMessage := λ _ _ n, (Js.Fulfilled ("9" +:+ pretty n), S n);
    TelegramContext.editMessageText := λ _ _ _ n,
      (Js.Threw "ETELEGRAM: 400 Bad Request: message is not modified", n);
    TelegramContext.deleteMessage := λ _ _ n, (Js.Fulfilled (), n);
    TelegramContext.sendChatAction := λ _ n, (Js.Threw "ETELEGRAM: 429 Too Many Requests", n);
    TelegramContext.readFileSync := λ _ _, Js.Fulfilled ();
    TelegramContext.logBotResponse := λ _ _ _ n, (Js.Fulfilled (), n) |} in
  ∃ p, TelegramContext.exec (H := stubborn) "42" None demo_run (TelegramContext.createContext 0%nat)
         = Some p ∧
       length (TelegramContext.trace (TelegramContext.now p)) = 7%nat ∧
       TelegramContext.rejected p = false.
Proof.
  intros stubborn.
  destruct (TelegramContext.exec (H := stubborn) "42" None demo_run
              (TelegramContext.createContext 0%nat)) as [p|] eqn:E; [|vm_compute in E; discriminate].
  assert (p = default (TelegramContext.createContext 0%nat)
                (TelegramContext.exec (H := stubborn) "42" None demo_run
                   (TelegramContext.createContext 0%nat))) as Hp by (by rewrite E).
  exists p. split; [reflexivity|]. split; [rewrite Hp; vm_compute; reflexivity|].
  apply (chain_survives_typing_and_unmodified_edits (H := stubborn) "42" None 0%nat demo_run p);
    [| | |exact E].
  - intros chat text b0. by eexists.
  - intros chat id text b0 err [= <-]. vm_compute. reflexivity.
  - reflexivity.
Defined.

(** The disk is full and the file to upload is gone: the reply is posted
    as the status of the working run, the write of its log entry throws
    inside the callback, and the chain is rejected, so the callback of
    [setWorking(false)] is passed over and the reply itself is never
    shown; the upload reads no file and sends nothing. *)
Example failed_log_write_rejects_the_chain :
  let full : TelegramContext.Bot nat := {|
    TelegramContext.sendMessage := λ _ _ n, (Js.Fulfilled ("9" +:+ pretty n), S n);
    TelegramContext.editMessageText := λ _ _ _ n, (Js.Fulfilled (), n);
    TelegramContext.deleteMessage := λ _ _ n, (Js.Fulfilled (), n);
    TelegramContext.sendChatAction := λ _ n, (Js.Fulfilled (), n);
    TelegramContext.readFileSync := λ _ _, Js.Threw "ENOENT: no such file or directory";
    TelegramContext.logBotResponse := λ _ _ _ n, (Js.Threw "ENOSPC: no space left on device", n) |} in
  ∃ p, TelegramContext.exec (H := full) "42" None
         [TelegramContext.Call (TelegramContext.Respond "done" true); TelegramContext.Turn;
          TelegramContext.Call (TelegramContext.UploadFile "/tmp/report.pdf" None);
          TelegramContext.Call (TelegramContext.SetWorking false); TelegramContext.Turn]
         (TelegramContext.createContext 0%nat) = Some p ∧
       TelegramContext.rejected p = true ∧
       TelegramContext.trace (TelegramContext.now p) =
         [(0%nat, TelegramContext.SendMessage "42" "<i>Thinking</i> ...");
          (0%nat, TelegramContext.LogBotResponse "42" "done" "90")].
Proof.
  intros full. eexists. split; [vm_compute; reflexivity|].
  split; vm_compute; reflexivity.
Qed.

(** *** What is on display while the run works, and after *)

Section DisplayFacts.
Import TelegramContext.
Context {B : Type} `{Bot B}.
Variable channel : string.
Variable eventFilename : option string.
Implicit Types (w : world (B := B)) (v : vars) (n : nat).

Local Abbreviation updateDisplay := (TelegramContext.updateDisplay channel eventFilename).
Local Abbreviation run_job := (TelegramContext.run_job channel eventFilename).

Lemma spinner_non_empty (s : string) : s +:+ " ..." ≠ EmptyString.
Proof. by destruct s. Qed.

(** [updateDisplay] with a text to show that is not empty performs one
    operation, which shows that text. *)
Lemma updateDisplay_shows n w :
  let display := if isWorking (wvars w) then buildStatusDisplay eventFilename (wvars w) +:+ " ..."
                 else if bool_decide (finalText (wvars w) = EmptyString)
                      then buildStatusDisplay eventFilename (wvars w)
                      else finalText (wvars w) in
  display ≠ EmptyString →
  ∃ o, Display.shows channel display o ∧
       trace (updateDisplay n w).2 = trace w ++ [(n, o)] ∧
       ∃ id, wvars (updateDisplay n w).2 = set_messageId id (wvars w) ∧
             (Js.truthy (messageId (wvars w)) ≠ None → id = messageId (wvars w)).
Proof.
  intros display Hne. unfold TelegramContext.updateDisplay. fold display.
  destruct (Js.truthy (messageId (wvars w))) as [id|] eqn:Eid.
  - unfold updateMessage. destruct (editMessageText _ _ _ _) as [r b]. simpl.
    eexists. split; [right; by eexists|]. split; [done|].
    exists (messageId (wvars w)). split; [by destruct (wvars w) | done].
  - rewrite bool_decide_eq_false_2 by done. unfold postMessage.
    destruct (sendMessage _ _ _) as [[id|err] b]; simpl.
    + eexists. split; [by left|]. split; [done|]. exists (Some id). by split.
    + eexists. split; [by left|]. split; [done|].
      exists (messageId (wvars w)). split; [by destruct (wvars w) | done].
Qed.

(** X13. A reply is on display only when the run is done.  While the
    context is working, [respond] with a reply to be logged adds the reply
    to the final text but shows the status with its trailing dots, not the
    reply: the callback performs one post or edit of that status, followed
    at most by the log entry of the reply.  When [setWorking(false)] runs
    with a final text, the one operation it performs shows exactly that
    text. *)
Theorem reply_is_shown_only_when_done n w text :
  (isWorking (wvars w) = true →
   ∃ o, Display.shows channel (buildStatusDisplay eventFilename (wvars w) +:+ " ...") o ∧
        (trace (run_job n (RespondJob text true) w).2 = trace w ++ [(n, o)] ∨
         ∃ id, trace (run_job n (RespondJob text true) w).2 =
               trace w ++ [(n, o); (n, LogBotResponse channel text id)]) ∧
        finalText (wvars (run_job n (RespondJob text true) w).2) =
          (if bool_decide (finalText (wvars w) = EmptyString) then text
           else finalText (wvars w) +:+ Js.newline +:+ text)) ∧
  (finalText (wvars w) ≠ EmptyString →
   ∃ o, Display.shows channel (finalText (wvars w)) o ∧
        trace (run_job n (SetWorkingJob false) w).2 = trace w ++ [(n, o)]).
Proof.
  split.
  - intros Hw. cbn [TelegramContext.run_job negb andb].
    set (v' := set_finalText _ (wvars w)).
    destruct (updateDisplay_shows n (with_vars v' w)) as (o & Hshow & Htr & id & Hv & _).
    { cbn [wvars with_vars]. subst v'. cbn [isWorking set_finalText]. rewrite Hw.
      apply spinner_non_empty. }
    cbn [wvars with_vars] in Hshow. subst v'. cbn [isWorking set_finalText] in Hshow.
    rewrite Hw in Hshow.
    exists o. split; [exact Hshow|].
    destruct (updateDisplay n _) as [[[]|err] w1]; cbn [snd] in *.
    + destruct (Js.truthy (messageId (wvars w1))) as [id1|]; cbn [snd].
      * destruct (logBotResponse _ _ _ _) as [r0 b0]. cbn [snd].
        split; [right; exists id1; cbn [trace emit]; by rewrite Htr, <- app_assoc|].
        cbn [wvars emit]. by rewrite Hv.
      * split; [by left | by rewrite Hv].
    + split; [by left | by rewrite Hv].
  - intros Hf. cbn [TelegramContext.run_job].
    destruct (updateDisplay_shows n (with_vars (set_working false (wvars w)) w))
      as (o & Hshow & Htr & _).
    { cbn [wvars with_vars isWorking set_working finalText].
      by rewrite bool_decide_eq_false_2. }
    cbn [wvars with_vars isWorking set_working finalText] in Hshow.
    rewrite bool_decide_eq_false_2 in Hshow by done.
    exists o. by split.
Qed.

End DisplayFacts.


(** *** The tally of tool calls *)

Section TallyFacts.
Import TelegramContext.
Context {B : Type} `{Bot B}.
Variable channel : string.
Variable eventFilename : option string.
Implicit Types (w : world (B := B)) (p : TelegramContext.t (B := B)) (v : vars) (n : nat).

Local Abbreviation run_job := (TelegramContext.run_job channel eventFilename).
Local Abbreviation invoke := (TelegramContext.invoke channel).
Local Abbreviation step := (TelegramContext.step channel eventFilename).
Local Abbreviation exec := (TelegramContext.exec channel eventFilename).

Local Abbreviation pending_labels p :=
  (length (filter (λ x, Observe.is_label_job x.2 = true) (chain p))).

Lemma tally_push_tool text v : Observe.tally (push_tool text v) = S (Observe.tally v).
Proof.
  unfold Observe.tally, push_tool. cbn [completedToolCount recentTools].
  destruct (3 <=? length (recentTools v))%nat eqn:E; rewrite length_app; simpl; [|lia].
  apply Nat.leb_le in E. destruct (recentTools v); simpl in *; lia.
Qed.

Lemma tally_set_working working v : Observe.tally (set_working working v) = Observe.tally v.
Proof.
  unfold Observe.tally, set_working. cbn [completedToolCount recentTools].
  destruct working; simpl; lia.
Qed.

Lemma run_job_tally n j w :
  Observe.tally (wvars (run_job n j w).2) =
  (Observe.tally (wvars w) + (if Observe.is_label_job j then 1 else 0))%nat.
Proof.
  destruct (run_job_window channel eventFilename n j w) as [Hr Hc].
  unfold Observe.tally at 1. rewrite Hr, Hc.
  change (Observe.tally
            match j with
            | RespondJob text shouldLog =>
                if negb shouldLog && String.prefix tool_prefix text
                then push_tool text (wvars w) else wvars w
            | SetWorkingJob working => set_working working (wvars w)
            | _ => wvars w
            end = (Observe.tally (wvars w) + (if Observe.is_label_job j then 1 else 0))%nat).
  destruct j as [text shouldLog|text| |working|]; simpl; rewrite ?Nat.add_0_r; try done.
  - destruct (negb shouldLog && String.prefix tool_prefix text);
      [rewrite tally_push_tool; lia | lia].
  - apply tally_set_working.
Qed.

Lemma rejected_step a p p' : rejected p = true → step a p = Some p' → rejected p' = true.
Proof.
  intros Hrej. destruct a as [c|]; simpl.
  - intros [= <-]. destruct c; simpl; try done. by destruct (_ && _).
  - unfold TelegramContext.turn. destruct (chain p) as [|[n j] rest]; [done|].
    rewrite Hrej. by intros [= <-].
Qed.

Lemma rejected_exec acts p p' : rejected p = true → exec acts p = Some p' → rejected p' = true.
Proof.
  revert p. induction acts as [|a acts IH]; intros p Hrej; simpl.
  - by intros [= <-].
  - destruct (step a p) as [p1|] eqn:E; [|done]. simpl. apply IH. by eapply rejected_step.
Qed.

Lemma step_tally a p p' :
  step a p = Some p' → rejected p' = false →
  (Observe.tally (wvars (now p')) + pending_labels p' =
   Observe.tally (wvars (now p)) + pending_labels p + (if Observe.is_label_action a then 1 else 0))%nat.
Proof.
  destruct a as [c|]; simpl.
  - intros [= <-] _.
    destruct c as [text shouldLog|text|text|isTyping|filePath title|working|];
      cbn [TelegramContext.invoke then_ skip now chain];
      rewrite ?filter_app, ?length_app; simpl; try lia.
    + destruct (negb shouldLog && String.prefix tool_prefix text) eqn:E.
      * rewrite filter_cons_True by done. simpl. lia.
      * rewrite filter_cons_False by (simpl; by rewrite E). simpl. lia.
    + destruct (isTyping && _); cbn [then_ skip now chain];
        rewrite ?filter_app, ?length_app; simpl; lia.
    + destruct (readFileSync _ _); simpl; lia.
  - unfold TelegramContext.turn. destruct (chain p) as [|[n j] rest] eqn:Ec; [done|].
    destruct (rejected p) eqn:Erej; [intros [= <-]; done|].
    pose proof (run_job_tally n j (now p)) as Ht.
    destruct (run_job n j (now p)) as [r w]. intros [= <-] _. cbn [now chain snd] in *.
    rewrite Ht. destruct (Observe.is_label_job j) eqn:Ej.
    + rewrite filter_cons_True by done. simpl. lia.
    + rewrite filter_cons_False by (simpl; by rewrite Ej). lia.
Qed.

(** [setWorking(false)] and the turn of its callback, on a context whose
    chain is empty and not rejected. *)
Lemma setWorking_false_turn p :
  rejected p = false → chain p = [] →
  exec [Call (SetWorking false); Turn] p =
    Some {| now := (run_job (calls p) (SetWorkingJob false) (now p)).2;
            chain := [];
            rejected := match (run_job (calls p) (SetWorkingJob false) (now p)).1 with
                        | Js.Threw _ => true
                        | _ => false
                        end;
            calls := S (calls p) |}.
Proof.
  intros Hrej Hchain.
  change (exec [Call (SetWorking false); Turn] p)
    with (TelegramContext.turn channel eventFilename (then_ (SetWorkingJob false) p) ≫= Some).
  unfold TelegramContext.turn, then_. cbn [chain rejected now calls].
  rewrite Hchain, Hrej. cbn [app].
  by destruct (run_job (calls p) (SetWorkingJob false) (now p)) as [r w].
Qed.

(** The status of a finished run that has a tally and no tool in the
    window is the line of the tally. *)
Lemma buildStatusDisplay_tally v :
  recentTools v = [] → (0 < completedToolCount v)%nat →
  buildStatusDisplay eventFilename v =
    "<i>" +:+ pretty (completedToolCount v) +:+ " tool call" +:+
    (if (1 <? completedToolCount v)%nat then "s" else EmptyString) +:+ " completed</i>".
Proof.
  intros Hr Hc. unfold buildStatusDisplay. rewrite Hr.
  by rewrite (proj2 (Nat.ltb_lt _ _) Hc).
Qed.

(** X14. No tool call is lost from the tally, and the tally is what the
    finished run shows when it has no reply.  When every callback has had
    its turn and none has rejected, the number of tool calls the status
    accounts for, those counted as completed plus those still in the
    window, is the number [N] of tool labels the agent has sent, however
    the calls and the turns were interleaved.  [setWorking(false)] then
    empties the window and sets the counter to [N]; its one operation
    shows "N tool call(s) completed" when there is no final text and
    [N] is positive, and shows the final text, without any count, when
    there is one. *)
Theorem tally_counts_every_tool_label b acts p :
  exec acts (createContext b) = Some p →
  rejected p = false →
  chain p = [] →
  let N := length (filter (λ a, Observe.is_label_action a = true) acts) in
  Observe.tally (wvars (now p)) = N ∧
  ∃ p', exec [Call (SetWorking false); Turn] p = Some p' ∧
        chain p' = [] ∧
        recentTools (wvars (now p')) = [] ∧
        completedToolCount (wvars (now p')) = N ∧
        (finalText (wvars (now p)) = EmptyString → (0 < N)%nat →
         ∃ o, Display.shows channel
                ("<i>" +:+ pretty N +:+ " tool call" +:+
                 (if (1 <? N)%nat then "s" else EmptyString) +:+ " completed</i>") o ∧
              trace (now p') = trace (now p) ++ [(calls p, o)]) ∧
        (finalText (wvars (now p)) ≠ EmptyString →
         ∃ o, Display.shows channel (finalText (wvars (now p))) o ∧
              trace (now p') = trace (now p) ++ [(calls p, o)]).
Proof.
  assert (∀ acts p0 p, exec acts p0 = Some p → rejected p = false →
            (Observe.tally (wvars (now p)) + pending_labels p =
             Observe.tally (wvars (now p0)) + pending_labels p0 +
             length (filter (λ a, Observe.is_label_action a = true) acts))%nat) as Hgen.
  { clear. induction acts as [|a acts IH]; intros p0 p; simpl.
    - intros [= <-] _. lia.
    - destruct (step a p0) as [p1|] eqn:E; [|done]. simpl. intros Hexec Hrej.
      assert (rejected p1 = false) as Hrej1.
      { destruct (rejected p1) eqn:E1; [|done].
        by rewrite (rejected_exec acts p1 p E1 Hexec) in Hrej. }
      rewrite (IH p1 p Hexec Hrej), (step_tally a p0 p1 E Hrej1).
      destruct (Observe.is_label_action a) eqn:Ea.
      + rewrite filter_cons_True by done. simpl. lia.
      + rewrite filter_cons_False by (by rewrite Ea). lia. }
  intros Hexec Hrej Hchain N. pose proof (Hgen acts _ p Hexec Hrej) as Ht.
  rewrite Hchain in Ht. simpl in Ht.
  assert (Observe.tally (wvars (now p)) = N) as HN by (subst N; lia).
  clear Ht Hgen. split; [exact HN|].
  eexists. split; [by apply setWorking_false_turn|]. cbn [chain now].
  destruct (run_job_window channel eventFilename (calls p) (SetWorkingJob false) (now p))
    as [Hr Hc].
  cbn [set_working recentTools completedToolCount] in Hr, Hc.
  split_and!; [done | exact Hr | by rewrite Hc | |].
  - intros Hf HN0. cbn [TelegramContext.run_job].
    set (v0 := set_working false (wvars (now p))).
    assert (isWorking v0 = false) as Hw0 by done.
    assert (finalText v0 = EmptyString) as Hf0 by done.
    assert (buildStatusDisplay eventFilename v0 =
            "<i>" +:+ pretty N +:+ " tool call" +:+
            (if (1 <? N)%nat then "s" else EmptyString) +:+ " completed</i>") as Hd.
    { rewrite buildStatusDisplay_tally; subst v0; cbn [set_working recentTools
        completedToolCount]; [by rewrite <- HN | done | unfold Observe.tally in HN; lia]. }
    destruct (updateDisplay_shows channel eventFilename (calls p) (with_vars v0 (now p)))
      as (o & Hshow & Htr & _).
    { cbn [wvars with_vars]. rewrite Hw0, Hf0, bool_decide_eq_true_2, Hd by done. discriminate. }
    cbn [wvars with_vars] in Hshow.
    rewrite Hw0, Hf0, bool_decide_eq_true_2, Hd in Hshow by done.
    exists o. by split.
  - intros Hf. cbn [TelegramContext.run_job].
    destruct (updateDisplay_shows channel eventFilename (calls p)
                (with_vars (set_working false (wvars (now p))) (now p)))
      as (o & Hshow & Htr & _).
    { cbn [wvars with_vars isWorking set_working finalText].
      by rewrite bool_decide_eq_false_2. }
    cbn [wvars with_vars isWorking set_working finalText] in Hshow.
    rewrite bool_decide_eq_false_2 in Hshow by done.
    exists o. by split.
Qed.

End TallyFacts.

(** Five tool labels, sent faster than their callbacks run; the run then
    ends without a reply. *)
Lemma tally_counts_every_tool_label_witness :
  let label n := TelegramContext.Call
                   (TelegramContext.Respond (TelegramContext.tool_prefix +:+ " step " +:+ n +:+ "_") false) in
  let acts := [label "1"; label "2"; TelegramContext.Turn; label "3"; label "4"; label "5";
               TelegramContext.Turn; TelegramContext.Turn; TelegramContext.Turn; TelegramContext.Turn] in
  ∃ p p', TelegramContext.exec "42" None acts (TelegramContext.createContext 100%nat) = Some p ∧
       Observe.tally (TelegramContext.wvars (TelegramContext.now p)) = 5%nat ∧
       TelegramContext.exec "42" None
         [TelegramContext.Call (TelegramContext.SetWorking false); TelegramContext.Turn] p = Some p' ∧
       TelegramContext.recentTools (TelegramContext.wvars (TelegramContext.now p')) = [] ∧
       TelegramContext.completedToolCount (TelegramContext.wvars (TelegramContext.now p')) = 5%nat ∧
       TelegramContext.trace (TelegramContext.now p') =
         TelegramContext.trace (TelegramContext.now p) ++
         [(5%nat, TelegramContext.EditMessageText "42" "100" "<i>5 tool calls completed</i>")].
Proof.
  intros label acts.
  destruct (TelegramContext.exec "42" None acts (TelegramContext.createContext 100%nat))
    as [p|] eqn:E; [|vm_compute in E; discriminate].
  assert (p = default (TelegramContext.createContext 100%nat)
                (TelegramContext.exec "42" None acts (TelegramContext.createContext 100%nat)))
    as Hp by (by rewrite E).
  destruct (tally_counts_every_tool_label "42" None 100%nat acts p E)
    as (Ht & p' & E' & _ & Hr & Hc & _);
    [rewrite Hp; vm_compute; reflexivity | rewrite Hp; vm_compute; reflexivity |].
  exists p, p'. split_and!; [reflexivity | exact Ht | exact E' | exact Hr | exact Hc |].
  assert (p' = default p (TelegramContext.exec "42" None
            [TelegramContext.Call (TelegramContext.SetWorking false); TelegramContext.Turn] p))
    as Hp' by (by rewrite E').
  rewrite Hp', Hp. vm_compute. reflexivity.
Defined.


(** *** Escaping and the texts the Telegram context parses *)

Section TextFacts.
Import TelegramContext.

Lemma sapp_cons (x : ascii) (a b : string) : String x a +:+ b = String x (a +:+ b).
Proof. reflexivity. Qed.

Lemma sapp_nil_l (b : string) : EmptyString +:+ b = b.
Proof. reflexivity. Qed.

Lemma sapp_assoc (a b c : string) : (a +:+ b) +:+ c = a +:+ (b +:+ c).
Proof. induction a as [|x a IH]; [done|]. rewrite !sapp_cons. by f_equal. Qed.

Lemma sapp_nil_r (a : string) : a +:+ EmptyString = a.
Proof. induction a as [|x a IH]; [done|]. rewrite sapp_cons. by f_equal. Qed.

Lemma chars_app (a b : string) : Observe.chars (a +:+ b) = Observe.chars a ++ Observe.chars b.
Proof.
  induction a as [|x a IH]; [done|]. rewrite sapp_cons.
  unfold Observe.chars in *. simpl. by f_equal.
Qed.

Lemma replace_all_app c by_ s1 s2 :
  replace_all c by_ (s1 +:+ s2) = replace_all c by_ s1 +:+ replace_all c by_ s2.
Proof.
  induction s1 as [|x s1 IH]; [done|]. rewrite sapp_cons.
  cbn [replace_all]. destruct (bool_decide (x = c)); rewrite IH; [by rewrite sapp_assoc | done].
Qed.

Lemma escapeHtml_app s1 s2 : escapeHtml (s1 +:+ s2) = escapeHtml s1 +:+ escapeHtml s2.
Proof. unfold escapeHtml. by rewrite !replace_all_app. Qed.

Lemma escapeHtml_char (c : ascii) :
  escapeHtml (String c EmptyString) =
    if bool_decide (c = "&"%char) then "&amp;"
    else if bool_decide (c = "<"%char) then "&lt;"
    else if bool_decide (c = ">"%char) then "&gt;"
    else String c EmptyString.
Proof.
  unfold escapeHtml. cbn [replace_all].
  destruct (bool_decide (c = "&"%char)) eqn:E1; [reflexivity|]. cbn [replace_all].
  destruct (bool_decide (c = "<"%char)) eqn:E2; [reflexivity|]. cbn [replace_all].
  by destruct (bool_decide (c = ">"%char)) eqn:E3.
Qed.

Lemma escapeHtml_cons (c : ascii) s :
  escapeHtml (String c s) = escapeHtml (String c EmptyString) +:+ escapeHtml s.
Proof. by rewrite <- escapeHtml_app, sapp_cons, sapp_nil_l. Qed.

Lemma escapeHtml_no_angle s :
  ("<"%char ∉ Observe.chars (escapeHtml s)) ∧ (">"%char ∉ Observe.chars (escapeHtml s)).
Proof.
  induction s as [|c s [IH1 IH2]]; [split; apply not_elem_of_nil|].
  rewrite escapeHtml_cons, chars_app, escapeHtml_char.
  split; rewrite elem_of_app; (intros [Hin|Hin]; [|done]);
    repeat case_bool_decide; subst; simpl in Hin;
    repeat (apply elem_of_cons in Hin as [Hin|Hin]; [congruence|]);
    by apply elem_of_nil in Hin.
Qed.

Lemma escapeHtml_inj s1 s2 : escapeHtml s1 = escapeHtml s2 → s1 = s2.
Proof.
  revert s2. induction s1 as [|c1 s1 IH]; intros [|c2 s2].
  - done.
  - rewrite escapeHtml_cons, escapeHtml_char. repeat case_bool_decide; discriminate.
  - rewrite escapeHtml_cons, escapeHtml_char. repeat case_bool_decide; discriminate.
  - rewrite (escapeHtml_cons c1), (escapeHtml_cons c2), !escapeHtml_char.
    repeat case_bool_decide; subst; simpl; intros [=]; subst; try done;
      f_equal; by apply IH.
Qed.

(** X15. [escapeHtml] escapes each character on its own and exactly
    once: the text of a concatenation is the concatenation of the texts,
    a single ampersand, less-than or greater-than sign becomes its entity
    and any other character stays (so the ampersands of the entities
    written by the later replacements are not escaped again); the result
    holds no less-than or greater-than sign; and two texts with the same
    escaped form are equal. *)
Theorem escapeHtml_escapes_each_character_once :
  (∀ s1 s2, escapeHtml (s1 +:+ s2) = escapeHtml s1 +:+ escapeHtml s2) ∧
  (∀ c : ascii,
     escapeHtml (String c EmptyString) =
       if bool_decide (c = "&"%char) then "&amp;"
       else if bool_decide (c = "<"%char) then "&lt;"
       else if bool_decide (c = ">"%char) then "&gt;"
       else String c EmptyString) ∧
  (∀ s, ("<"%char ∉ Observe.chars (escapeHtml s)) ∧ (">"%char ∉ Observe.chars (escapeHtml s))) ∧
  (∀ s1 s2, escapeHtml s1 = escapeHtml s2 → s1 = s2).
Proof.
  split; [exact escapeHtml_app|]. split; [exact escapeHtml_char|].
  split; [exact escapeHtml_no_angle | exact escapeHtml_inj].
Qed.

Lemma strip_trailing_underscore_app s :
  strip_trailing_underscore (s +:+ "_") = s.
Proof.
  induction s as [|c s IH]; [done|].
  rewrite sapp_cons. destruct s as [|c' s']; [done|].
  rewrite sapp_cons in *.
  change (strip_trailing_underscore (String c (String c' (s' +:+ "_"))))
    with (String c (strip_trailing_underscore (String c' (s' +:+ "_")))).
  by rewrite IH.
Qed.

(** X16. How a tool label is shown.  A label [_text_] enters the window
    of recent tools as the text between the two underscores, escaped, in
    italics: one underscore is taken off at each end and no more, and
    whatever the text holds, the entry has no tag but the enclosing
    [<i>]. *)
Theorem tool_label_is_shown_escaped label :
  tool_entry ("_" +:+ label +:+ "_") = "<i>" +:+ escapeHtml label +:+ "</i>" ∧
  ("<"%char ∉ Observe.chars (escapeHtml label)) ∧ (">"%char ∉ Observe.chars (escapeHtml label)) ∧
  ∀ v, recentTools (push_tool ("_" +:+ label +:+ "_") v) =
       (if (3 <=? length (recentTools v))%nat then tail (recentTools v) else recentTools v)
       ++ ["<i>" +:+ escapeHtml label +:+ "</i>"].
Proof.
  assert (tool_entry ("_" +:+ label +:+ "_") = "<i>" +:+ escapeHtml label +:+ "</i>") as He.
  { unfold tool_entry.
    change ("_" +:+ label +:+ "_") with (String "_" (label +:+ "_")).
    cbn [strip_leading_underscore]. by rewrite strip_trailing_underscore_app. }
  split; [done|].
  destruct (escapeHtml_no_angle label) as [Hlt Hgt].
  split; [done|]. split; [done|].
  intros v. unfold push_tool. cbn [recentTools]. by rewrite He.
Qed.

End TextFacts.


Section EventTextFacts.
Import TelegramContext.

Lemma substring_all (s : string) : String.substring 0 (String.length s) s = s.
Proof. induction s as [|c s IH]; simpl; [done | by f_equal]. Qed.

Lemma take_until_colon_spec s :
  s = (take_until_colon s).1 +:+ (take_until_colon s).2 ∧
  (":"%char ∉ Observe.chars (take_until_colon s).1) ∧
  ((take_until_colon s).2 = EmptyString ∨ ∃ t, (take_until_colon s).2 = String ":" t).
Proof.
  induction s as [|c s (IH1 & IH2 & IH3)]; simpl.
  - split_and!; [done | apply not_elem_of_nil | by left].
  - case_bool_decide as Hc.
    + subst c. simpl. split_and!; [done | apply not_elem_of_nil | right; by eexists].
    + destruct (take_until_colon s) as [name tail]. simpl in *.
      split_and!; [by rewrite sapp_cons, <- IH1 | | done].
      unfold Observe.chars. simpl. intros Hin. apply elem_of_cons in Hin as [Hin|Hin]; [done|].
      by apply IH2.
Qed.

Lemma take_until_colon_app name rest :
  (":"%char ∉ Observe.chars name) →
  take_until_colon (name +:+ String ":" rest) = (name, String ":" rest).
Proof.
  induction name as [|c name IH]; intros Hno.
  - by rewrite sapp_nil_l.
  - rewrite sapp_cons. simpl. unfold Observe.chars in Hno. simpl in Hno.
    apply not_elem_of_cons in Hno as [Hc Hno].
    rewrite bool_decide_eq_false_2 by done. by rewrite IH.
Qed.

Lemma event_tail (r : string) :
  String.substring 7 (String.length ("[EVENT:" +:+ r) - 7) ("[EVENT:" +:+ r) = r.
Proof.
  change ("[EVENT:" +:+ r)
    with (String "[" (String "E" (String "V" (String "E" (String "N" (String "T" (String ":" r))))))).
  simpl. rewrite Nat.sub_0_r. apply substring_all.
Qed.

Lemma match_event_filename_spec text name :
  match_event_filename text = Some name ↔
  name ≠ EmptyString ∧ (":"%char ∉ Observe.chars name) ∧
  ∃ rest, text = "[EVENT:" +:+ name +:+ ":" +:+ rest.
Proof.
  unfold match_event_filename. split.
  - destruct (String.prefix "[EVENT:" text) eqn:Ep; [|done].
    apply prefix_spec in Ep as [r ->]. rewrite event_tail.
    destruct (take_until_colon_spec r) as (Hr & Hno & Htail).
    destruct (take_until_colon r) as [nm tail]. simpl in *.
    destruct nm as [|c nm]; [done|]. destruct tail as [|c' tail]; [done|].
    intros [= <-]. destruct Htail as [?|[t [= -> ->]]]; [done|].
    split_and!; [done..|]. exists t. by rewrite Hr.
  - intros (Hne & Hno & rest & ->).
    rewrite (proj2 (prefix_spec "[EVENT:" _)) by by eexists.
    rewrite event_tail.
    change (":" +:+ rest) with (String ":" rest). rewrite take_until_colon_app by done.
    by destruct name.
Qed.

(** X17. The event file shown while a scheduled event starts is the
    second field of its text.  [createContext] finds a file name exactly
    when it is called for a scheduled event ([isEvent]) whose text has the
    form [[EVENT:name:...] with a non-empty [name] that holds no colon,
    and the name it finds is that [name].  Before any tool label the
    status is then "Starting event: " with that name, escaped; for a
    message of a user, whatever its text, and for any other text, it is
    "Thinking". *)
Theorem event_filename_is_the_second_field isEvent text :
  (∀ name,
     eventFilename_of isEvent text = Some name ↔
     isEvent = true ∧ name ≠ EmptyString ∧ (":"%char ∉ Observe.chars name) ∧
     ∃ rest, text = "[EVENT:" +:+ name +:+ ":" +:+ rest) ∧
  buildStatusDisplay (eventFilename_of isEvent text) initial =
    match eventFilename_of isEvent text with
    | Some name => "<i>Starting event: " +:+ escapeHtml name +:+ "</i>"
    | None => "<i>Thinking</i>"
    end.
Proof.
  assert (∀ name,
     eventFilename_of isEvent text = Some name ↔
     isEvent = true ∧ name ≠ EmptyString ∧ (":"%char ∉ Observe.chars name) ∧
     ∃ rest, text = "[EVENT:" +:+ name +:+ ":" +:+ rest) as Hspec.
  { intros name. unfold eventFilename_of. destruct isEvent.
    - rewrite match_event_filename_spec. tauto.
    - split; [done | by intros [? _]]. }
  split; [exact Hspec|].
  unfold buildStatusDisplay. cbn [initial completedToolCount recentTools Nat.ltb Nat.leb app].
  destruct (eventFilename_of isEvent text) as [name|]; [|done].
  destruct (proj1 (Hspec name) eq_refl) as (_ & Hne & _).
  by rewrite bool_decide_eq_false_2.
Qed.

End EventTextFacts.


(** *** The heartbeat adapter *)

Section HeartbeatFacts.
Import Heartbeat.

(** X18. The platform the heartbeat's activity summary shows next to a
    channel is the one [send_message] routes that channel to: a channel
    labelled telegram, slack or email resolves to the adapter of that
    name, and a channel labelled web or unknown resolves to no adapter. *)
Theorem heartbeat_label_agrees_with_routing channelId adapters :
  SendMessage.resolveAdapter channelId adapters =
    (if bool_decide (adapter_label channelId ∈ ["telegram"; "slack"; "email"])
     then SendMessage.find_by_name (adapter_label channelId) adapters
     else None) ∧
  (adapter_label channelId = "web" ∨ adapter_label channelId = "unknown" →
   SendMessage.resolveAdapter channelId adapters = None).
Proof.
  unfold SendMessage.resolveAdapter, adapter_label, SendMessage.is_email_id.
  destruct (SendMessage.is_telegram_id channelId); [split; [done|intros [|]; discriminate]|].
  destruct (SendMessage.is_slack_id channelId); [split; [done|intros [|]; discriminate]|].
  destruct (String.prefix "email-" channelId); [split; [done|intros [|]; discriminate]|].
  destruct (String.prefix "web-" channelId); done.
Qed.

Lemma heartbeat_enqueueEvents_spec evs h :
  Forall (λ ev, TelegramQueue.channel ev = HEARTBEAT_CHANNEL) evs →
  (enqueueEvents evs h).1 = replicate (length evs) true ∧
  Main.runs_of HEARTBEAT_CHANNEL (enqueueEvents evs h).2 =
    Main.runs_of HEARTBEAT_CHANNEL h ++ replicate (length evs) Main.AwaitAgent ∧
  (evs ≠ [] ∨ Main.isRunning HEARTBEAT_CHANNEL h = true →
   Main.isRunning HEARTBEAT_CHANNEL (enqueueEvents evs h).2 = true).
Proof.
  revert h. induction evs as [|ev evs IH]; intros h Hall; simpl.
  - rewrite app_nil_r. split_and!; [done..|]. by intros [|].
  - apply Forall_cons in Hall as [Hev Hall].
    unfold enqueueEvent. rewrite Hev, bool_decide_eq_true_2 by done.
    destruct (IH (Main.handleEvent HEARTBEAT_CHANNEL h) Hall) as (Hoks & Hruns & Hrun).
    destruct (enqueueEvents evs _) as [oks h2]. simpl in *.
    split_and!; [by rewrite Hoks | by rewrite Hruns, handleEvent_runs, <- app_assoc |].
    intros _. apply Hrun. right. apply handleEvent_isRunning.
Qed.

(** X19. The heartbeat adapter neither queues nor refuses: every event
    for [_heartbeat] is accepted and its run is started at once, whatever
    is already running, so [n] events in a row leave [n] more runs in
    flight on the channel; an event for any other channel is refused and
    changes nothing. *)
Theorem heartbeat_events_start_at_once evs h :
  Forall (λ ev, TelegramQueue.channel ev = HEARTBEAT_CHANNEL) evs →
  (enqueueEvents evs h).1 = replicate (length evs) true ∧
  Main.runs_of HEARTBEAT_CHANNEL (enqueueEvents evs h).2 =
    Main.runs_of HEARTBEAT_CHANNEL h ++ replicate (length evs) Main.AwaitAgent ∧
  (evs ≠ [] → Main.isRunning HEARTBEAT_CHANNEL (enqueueEvents evs h).2 = true) ∧
  (∀ ev, TelegramQueue.channel ev ≠ HEARTBEAT_CHANNEL → enqueueEvent ev h = (false, h)).
Proof.
  intros Hall. destruct (heartbeat_enqueueEvents_spec evs h Hall) as (H1 & H2 & H3).
  split_and!; [done | done | intros Hne; apply H3; by left |].
  intros ev Hne. unfold enqueueEvent. by rewrite bool_decide_eq_false_2.
Qed.

Section Aggregation.
Context {A : Type} (id : A → string).
Implicit Types (l out : list A) (seen : gset string) (k : string).

Local Abbreviation by_id k := (λ x : A, bool_decide (id x = k)).

Lemma find_app_by_id k l1 l2 :
  List.find (by_id k) (l1 ++ l2) =
    match List.find (by_id k) l1 with Some x => Some x | None => List.find (by_id k) l2 end.
Proof.
  induction l1 as [|x l1 IH]; simpl; [done|]. by destruct (bool_decide (id x = k)).
Qed.

Lemma find_by_id_Some k l x : List.find (by_id k) l = Some x → x ∈ l ∧ id x = k.
Proof.
  intros Hf. apply find_some in Hf as [Hin Hx].
  split; [by apply list_elem_of_In | by apply bool_decide_eq_true in Hx].
Qed.

Lemma find_by_id_None k l : List.find (by_id k) l = None → k ∉ id <$> l.
Proof.
  intros Hf Hin. apply list_elem_of_fmap in Hin as (x & -> & Hin).
  apply list_elem_of_In in Hin.
  pose proof (find_none _ _ Hf x Hin) as Hx. simpl in Hx.
  by rewrite bool_decide_eq_true_2 in Hx.
Qed.

Lemma visit_collected l seen out x :
  collected id l seen out →
  collected id (l ++ [x]) (visit id (seen, out) x).1 (visit id (seen, out) x).2.
Proof.
  intros (Hseen & Hnd & Hfind & Hsub). unfold collected, visit. simpl.
  destruct (bool_decide (id x ∈ seen)) eqn:Ein; simpl.
  - apply bool_decide_eq_true in Ein. split_and!; [done..| |].
    + intros k. rewrite find_app_by_id, <- Hfind.
      destruct (List.find (by_id k) out) eqn:Ef; [done|]. simpl.
      case_bool_decide as Hk; [|done]. subst k.
      apply find_by_id_None in Ef. by apply Hseen in Ein.
    + intros y Hy. apply elem_of_app. left. by apply Hsub.
  - apply bool_decide_eq_false in Ein. split_and!.
    + intros k. rewrite fmap_app, elem_of_app, elem_of_union, elem_of_singleton, Hseen.
      simpl. rewrite list_elem_of_singleton. tauto.
    + rewrite fmap_app. apply NoDup_app. split_and!; [done | | by apply NoDup_singleton].
      intros k Hk Hk'. simpl in Hk'. apply list_elem_of_singleton in Hk' as ->.
      by apply Hseen in Hk.
    + intros k. by rewrite !find_app_by_id, Hfind.
    + intros y Hy. apply elem_of_app in Hy as [Hy|Hy]; apply elem_of_app; [left; by apply Hsub|by right].
Qed.

Lemma visits_collected xs l seen out :
  collected id l seen out →
  collected id (l ++ xs) (fold_left (visit id) xs (seen, out)).1 (fold_left (visit id) xs (seen, out)).2.
Proof.
  revert l seen out. induction xs as [|x xs IH]; intros l seen out Hc; simpl.
  - by rewrite app_nil_r.
  - pose proof (visit_collected l seen out x Hc) as Hc'.
    destruct (visit id (seen, out) x) as [seen' out']. simpl in Hc'.
    replace (l ++ x :: xs) with ((l ++ [x]) ++ xs) by (by rewrite <- app_assoc).
    by apply IH.
Qed.

Lemma collect_collected listings l seen out :
  collected id l seen out →
  collected id (l ++ concat listings)
    (fold_left (λ acc listing, fold_left (visit id) listing acc) listings (seen, out)).1
    (fold_left (λ acc listing, fold_left (visit id) listing acc) listings (seen, out)).2.
Proof.
  revert l seen out. induction listings as [|xs listings IH]; intros l seen out Hc; simpl.
  - by rewrite app_nil_r.
  - pose proof (visits_collected xs l seen out Hc) as Hc'.
    destruct (fold_left (visit id) xs (seen, out)) as [seen' out']. simpl in Hc'.
    rewrite app_assoc. by apply IH.
Qed.

Lemma collect_spec listings :
  NoDup (id <$> collect id listings) ∧
  (∀ k, List.find (by_id k) (collect id listings) = List.find (by_id k) (concat listings)) ∧
  (∀ x, x ∈ collect id listings → x ∈ concat listings).
Proof.
  unfold collect.
  destruct (collect_collected listings [] ∅ []) as (_ & Hnd & Hfind & Hsub).
  - split_and!; [set_solver | apply NoDup_nil_2 | done | done].
  - done.
Qed.

Lemma first_known_find (listings : list (list A)) k :
  first_known ((λ l key, List.find (by_id key) l) <$> listings) k =
  List.find (by_id k) (concat listings).
Proof.
  induction listings as [|l listings IH]; simpl; [done|].
  rewrite find_app_by_id. by destruct (List.find (by_id k) l).
Qed.

End Aggregation.

(** X20. The heartbeat's view of users and channels is that of the first
    adapter that knows them.  Over adapters that keep their users and
    channels by id, [getAllUsers] lists no id twice and only users some
    adapter lists, and [getUser(id)] answers with the entry [getAllUsers]
    lists under that id (none when it lists none), which is the entry of
    the first adapter, in the order of [setOtherAdapters], that knows the
    id; the same holds of [getAllChannels] and [getChannel]. *)
Theorem heartbeat_metadata_first_adapter_wins (data : list (list UserInfo.t * list ChannelInfo.t)) :
  let otherAdapters := (λ d, keyed d.1 d.2) <$> data in
  (NoDup (UserInfo.id <$> heartbeat_getAllUsers otherAdapters) ∧
   (∀ u, u ∈ heartbeat_getAllUsers otherAdapters → ∃ d, d ∈ data ∧ u ∈ d.1) ∧
   (∀ userId, heartbeat_getUser otherAdapters userId =
              List.find (λ u, bool_decide (UserInfo.id u = userId))
                        (heartbeat_getAllUsers otherAdapters)) ∧
   (∀ userId, heartbeat_getUser otherAdapters userId =
              List.find (λ u, bool_decide (UserInfo.id u = userId)) (concat (fst <$> data)))) ∧
  (NoDup (ChannelInfo.id <$> heartbeat_getAllChannels otherAdapters) ∧
   (∀ c, c ∈ heartbeat_getAllChannels otherAdapters → ∃ d, d ∈ data ∧ c ∈ d.2) ∧
   (∀ channelId, heartbeat_getChannel otherAdapters channelId =
                 List.find (λ c, bool_decide (ChannelInfo.id c = channelId))
                           (heartbeat_getAllChannels otherAdapters)) ∧
   (∀ channelId, heartbeat_getChannel otherAdapters channelId =
                 List.find (λ c, bool_decide (ChannelInfo.id c = channelId)) (concat (snd <$> data)))).
Proof.
  intros otherAdapters.
  unfold heartbeat_getAllUsers, heartbeat_getAllChannels, heartbeat_getUser, heartbeat_getChannel.
  subst otherAdapters. rewrite <- !list_fmap_compose.
  change (getAllUsers ∘ (λ d, keyed d.1 d.2))
    with (fst : list UserInfo.t * list ChannelInfo.t → list UserInfo.t).
  change (getAllChannels ∘ (λ d, keyed d.1 d.2))
    with (snd : list UserInfo.t * list ChannelInfo.t → list ChannelInfo.t).
  destruct (collect_spec UserInfo.id (fst <$> data)) as (Hnd & Hfind & Hsub).
  destruct (collect_spec ChannelInfo.id (snd <$> data)) as (Hnd' & Hfind' & Hsub').
  assert (∀ k, first_known (getUser ∘ (λ d, keyed d.1 d.2) <$> data) k =
               List.find (λ u, bool_decide (UserInfo.id u = k)) (concat (fst <$> data))) as Hu.
  { intros k. rewrite <- (first_known_find UserInfo.id), <- list_fmap_compose. done. }
  assert (∀ k, first_known (getChannel ∘ (λ d, keyed d.1 d.2) <$> data) k =
               List.find (λ c, bool_decide (ChannelInfo.id c = k)) (concat (snd <$> data))) as Hc.
  { intros k. rewrite <- (first_known_find ChannelInfo.id), <- list_fmap_compose. done. }
  split; split_and!; try done.
  - intros u Hin. apply Hsub, list_elem_of_In, in_concat in Hin as (l & Hl & Hu').
    apply list_elem_of_In, list_elem_of_fmap in Hl as (d & -> & Hd).
    exists d. split; [done | by apply list_elem_of_In].
  - intros k. by rewrite Hu, Hfind.
  - intros c Hin. apply Hsub', list_elem_of_In, in_concat in Hin as (l & Hl & Hc').
    apply list_elem_of_In, list_elem_of_fmap in Hl as (d & -> & Hd).
    exists d. split; [done | by apply list_elem_of_In].
  - intros k. by rewrite Hc, Hfind'.
Qed.

End HeartbeatFacts.

(** Two heartbeat events in a row while an earlier heartbeat run is
    still in flight. *)
Lemma heartbeat_events_start_at_once_witness :
  let tick n := TelegramQueue.mkEvent "_heartbeat" n "EVENT" "[EVENT:heartbeat.json:periodic:0 * * * *] wake" in
  let h := Main.handleEvent "_heartbeat" Main.init in
  (Heartbeat.enqueueEvents [tick "1"; tick "2"] h).1 = [true; true] ∧
  Main.runs_of "_heartbeat" (Heartbeat.enqueueEvents [tick "1"; tick "2"] h).2 =
    [Main.AwaitAgent; Main.AwaitAgent; Main.AwaitAgent] ∧
  Heartbeat.enqueueEvent (demo_event "1") h = (false, h).
Proof.
  intros tick h.
  destruct (heartbeat_events_start_at_once [tick "1"; tick "2"] h) as (Hoks & Hruns & _ & Hother).
  - by repeat constructor.
  - split_and!; [exact Hoks | etrans; [exact Hruns | vm_compute; reflexivity] | by apply Hother].
Defined.


(** *** The email adapter's channel ids *)

Section EmailFacts.
Variable toLowerCase : EmailWebhook.utf16 → EmailWebhook.utf16.

Lemma sanitize_unit_class (u : N) :
  let n := N_of_ascii (EmailWebhook.sanitize_unit u) in
  (97 ≤ n ≤ 122 ∨ 48 ≤ n ≤ 57 ∨ n = 95)%N.
Proof.
  unfold EmailWebhook.sanitize_unit.
  destruct ((97 <=? u) && (u <=? 122) || (48 <=? u) && (u <=? 57))%N eqn:E; [|by right; right].
  assert (u < 256)%N as Hlt.
  { apply orb_true_iff in E as [E|E]; apply andb_true_iff in E as [_ E];
      apply N.leb_le in E; lia. }
  simpl. rewrite N_ascii_embedding by done.
  apply orb_true_iff in E as [E|E]; apply andb_true_iff in E as [E1 E2];
    apply N.leb_le in E1, E2; lia.
Qed.

Lemma sanitize_spec (s : EmailWebhook.utf16) :
  String.length (EmailWebhook.sanitize s) = length s ∧
  Forall (λ ch, let n := N_of_ascii ch in (97 ≤ n ≤ 122 ∨ 48 ≤ n ≤ 57 ∨ n = 95)%N)
         (Observe.chars (EmailWebhook.sanitize s)).
Proof.
  unfold EmailWebhook.sanitize, Observe.chars.
  rewrite list_ascii_of_string_of_list_ascii. split.
  - induction s as [|u s IH]; simpl; [done | by f_equal].
  - apply Forall_fmap, Forall_forall. intros u _. apply sanitize_unit_class.
Qed.

(** X21. Every email conversation can be answered through
    [send_message]: whatever the sender's address, the channel id
    [processEmail] derives from it is [email-] followed by one character
    for each UTF-16 unit of the lower-cased address, each a lower-case
    letter, a digit or an underscore; the router resolves it to the
    adapter named email, never to Telegram or Slack, and the heartbeat
    summary labels it email. *)
Theorem email_channel_is_routed_to_email from adapters :
  let c := EmailWebhook.channelId toLowerCase from in
  SendMessage.resolveAdapter c adapters = SendMessage.find_by_name "email" adapters ∧
  Heartbeat.adapter_label c = "email" ∧
  ∃ rest, c = "email-" +:+ rest ∧
          String.length rest = length (toLowerCase from) ∧
          Forall (λ ch, let n := N_of_ascii ch in (97 ≤ n ≤ 122 ∨ 48 ≤ n ≤ 57 ∨ n = 95)%N)
                 (Observe.chars rest).
Proof.
  intros c. subst c. unfold EmailWebhook.channelId.
  set (rest := EmailWebhook.sanitize (toLowerCase from)).
  assert (SendMessage.is_telegram_id ("email-" +:+ rest) = false) as Ht by reflexivity.
  assert (SendMessage.is_slack_id ("email-" +:+ rest) = false) as Hs by reflexivity.
  assert (String.prefix "email-" ("email-" +:+ rest) = true) as He
    by (apply prefix_spec; by eexists).
  split_and!.
  - unfold SendMessage.resolveAdapter, SendMessage.is_email_id. by rewrite Ht, Hs, He.
  - unfold Heartbeat.adapter_label. by rewrite Ht, Hs, He.
  - exists rest. split; [done|]. apply sanitize_spec.
Qed.

End EmailFacts.

Section EmailReplyFacts.
Import EmailWebhook.

(** X22. The subject and the threading headers of the reply to an
    email.  The subject of a reply always starts with [Re:], a subject
    that already does is kept as it is, so replying to a reply does not
    stack prefixes; without a message id no threading header is sent, and
    with one the reply is [in_reply_to] that id and its [references] are
    the references of the inbound message, if any, followed by that
    id. *)
Theorem email_reply_headers subject messageId references :
  String.prefix "Re:" (replySubject subject) = true ∧
  replySubject (replySubject subject) = replySubject subject ∧
  (Js.truthy messageId = None → threading messageId references = None) ∧
  (∀ mid, Js.truthy messageId = Some mid →
     threading messageId references =
       Some (mid, match Js.truthy references with
                  | Some refs => refs +:+ " " +:+ mid
                  | None => mid
                  end) ∧
     ∃ before, (threading messageId references ≫= λ h, Some h.2) = Some (before +:+ mid)).
Proof.
  assert (String.prefix "Re:" (replySubject subject) = true) as Hre.
  { unfold replySubject. destruct (String.prefix "Re:" subject) eqn:E; [done|].
    apply prefix_spec. by exists (" " +:+ subject). }
  split; [done|]. split.
  { unfold replySubject at 1. by rewrite Hre. }
  unfold threading. split; [by intros ->|].
  intros mid ->. split; [done|]. simpl.
  destruct (Js.truthy references) as [refs|].
  - exists (refs +:+ " "). by rewrite sapp_assoc.
  - by exists EmptyString.
Qed.

End EmailReplyFacts.

(** *** The writer of server-sent events *)

Section SSEWriterFacts.
Import SSEWriter.

Lemma sse_closed_is_final cs w : closed w = true → run cs w = w.
Proof.
  intros Hc. induction cs as [|c cs IH]; [done|]. unfold run in *. simpl.
  assert (step w c = w) as ->; [|done].
  destruct c as [json ok|write_ok end_ok]; simpl; unfold send, done; by rewrite Hc.
Qed.

(** X23. A stream that has been closed stays as it is.  Once the writer
    is closed, by [done()] or by a failed write, no call of [send] or
    [done] writes anything more or ends the response again; and whenever
    the response has been ended, the end marker is the last chunk
    written. *)
Theorem sse_stream_is_final_once_closed :
  (∀ cs w, closed w = true → run cs w = w) ∧
  (∀ cs, ended (run cs create) = true →
         closed (run cs create) = true ∧ ∃ pre, written (run cs create) = pre ++ [DONE]).
Proof.
  split; [exact sse_closed_is_final|].
  assert (∀ cs w, (ended w = true → closed w = true ∧ ∃ pre, written w = pre ++ [DONE]) →
                  ended (run cs w) = true →
                  closed (run cs w) = true ∧ ∃ pre, written (run cs w) = pre ++ [DONE]) as Hgen.
  { induction cs as [|c cs IH]; intros w Hw; [exact Hw|]. unfold run in *. simpl. apply IH.
    destruct c as [json ok|write_ok end_ok]; simpl; unfold send, done;
      destruct (closed w) eqn:Ec;
      [intros He; split; [done | by apply Hw] | | intros He; split; [done | by apply Hw] |].
    - destruct ok; simpl; intros He; destruct (Hw He) as [? _]; congruence.
    - destruct write_ok; simpl; [intros _; split; [done|by eexists]|].
      intros He; destruct (Hw He) as [? _]; congruence. }
  intros cs. by apply Hgen.
Qed.

End SSEWriterFacts.

(** *** What gets through the webhook boundaries *)

Section TelegramAcceptanceFacts.
Context {Update : Type}.
Variable JSON_parse : string → option Update.
Variable webhookSecret : string.

(** X24. A Telegram update reaches the bot exactly when the request
    carries the configured secret, that secret is not empty, and the body
    parses; the request is then acknowledged with 200 before the update
    is processed.  In particular an adapter configured with an empty
    secret accepts nothing. *)
Theorem telegram_update_forwarded_iff req :
  (existsb Http.forwards (TelegramWebhook.dispatch JSON_parse webhookSecret req) = true ↔
   Http.headers req !! "x-telegram-bot-api-secret-token" = Some webhookSecret ∧
   webhookSecret ≠ EmptyString ∧ is_Some (JSON_parse (Http.body req))) ∧
  (∀ update,
     Http.headers req !! "x-telegram-bot-api-secret-token" = Some webhookSecret →
     webhookSecret ≠ EmptyString → JSON_parse (Http.body req) = Some update →
     TelegramWebhook.dispatch JSON_parse webhookSecret req =
       [Http.WriteHead 200; Http.End_ EmptyString; Http.Forward update]).
Proof.
  unfold TelegramWebhook.dispatch.
  destruct (decide (Http.headers req !! "x-telegram-bot-api-secret-token" = Some webhookSecret))
    as [Heq|Hne].
  - rewrite Heq, (bool_decide_eq_true_2 _ eq_refl). simpl.
    destruct (decide (webhookSecret = EmptyString)) as [He|He].
    + rewrite (bool_decide_eq_true_2 _ He). simpl. split; [|done].
      split; [done | by intros (_ & ? & _)].
    + rewrite (bool_decide_eq_false_2 _ He). simpl.
      destruct (JSON_parse (Http.body req)) as [update|]; simpl.
      * split; [|by intros ? _ _ [= <-]]. split; [by eauto | done].
      * split; [|done]. split; [done | by intros (_ & _ & [? ?])].
  - rewrite (bool_decide_eq_false_2 _ Hne), orb_true_r. simpl. split; [|done].
    split; [done | by intros (? & _)].
Qed.

End TelegramAcceptanceFacts.

Section SlackAcceptanceFacts.
Context {Payload : Type}.
Variable JSON_parse : string → option Payload.
Variable parseInt : string → option Z.
Variable hmac_sha256_hex : string → string → string.
Variable signingSecret : string.

(** X25. A Slack request reaches event handling exactly when it carries
    a non-empty timestamp and a non-empty signature, the timestamp, if it
    is a number, is at most 300 seconds away from now, the signature is
    the HMAC of the timestamp and the body under the signing secret, and
    the body parses.  A timestamp that is not a number passes the age
    test, and is then held to the signature like any other. *)
Theorem slack_event_forwarded_iff now req :
  existsb Http.forwards
    (SlackWebhook.dispatch JSON_parse parseInt hmac_sha256_hex signingSecret now req) = true ↔
  ∃ timestamp signature,
    Http.headers req !! "x-slack-request-timestamp" = Some timestamp ∧
    Http.headers req !! "x-slack-signature" = Some signature ∧
    timestamp ≠ EmptyString ∧ signature ≠ EmptyString ∧
    (∀ t, parseInt timestamp = Some t → Z.abs (now - t) ≤ 300) ∧
    signature = "v0=" +:+ hmac_sha256_hex signingSecret
                            ("v0:" +:+ timestamp +:+ ":" +:+ Http.body req) ∧
    is_Some (JSON_parse (Http.body req)).
Proof.
  unfold SlackWebhook.dispatch, SlackWebhook.too_old, SlackWebhook.verifySignature.
  destruct (Http.headers req !! "x-slack-request-timestamp") as [timestamp|];
    [|split; [done | by intros (? & ? & ? & _)]].
  destruct (Http.headers req !! "x-slack-signature") as [signature|];
    [|simpl; rewrite orb_true_r; split; [done | by intros (? & ? & _ & ? & _)]].
  simpl.
  destruct (decide (timestamp = EmptyString)) as [Ht|Ht].
  { rewrite (bool_decide_eq_true_2 _ Ht). simpl.
    split; [done | intros (? & ? & [= <-] & _ & ? & _); done]. }
  destruct (decide (signature = EmptyString)) as [Hs|Hs].
  { rewrite (bool_decide_eq_true_2 _ Hs), orb_true_r. simpl.
    split; [done | intros (? & ? & _ & [= <-] & _ & ? & _); done]. }
  rewrite (bool_decide_eq_false_2 _ Ht), (bool_decide_eq_false_2 _ Hs). simpl.
  assert ((match parseInt timestamp with Some t => 300 <? Z.abs (now - t) | None => false end)
          = false ↔ ∀ t, parseInt timestamp = Some t → Z.abs (now - t) ≤ 300) as Hold.
  { destruct (parseInt timestamp) as [t|]; [|split; [by intros _ ?|done]].
    rewrite Z.ltb_ge. split; [by intros ? ? [= <-] | by intros Hall; apply Hall]. }
  destruct (match parseInt timestamp with Some t => _ | None => false end).
  { simpl. split; [done|]. intros (? & ? & [= <-] & _ & _ & _ & Hage & _).
    by apply Hold in Hage. }
  case_bool_decide as Hsig; simpl.
  - destruct (JSON_parse (Http.body req)) as [payload|]; simpl.
    + split; [|done]. intros _. exists timestamp, signature.
      split_and!; [done..|by apply Hold|done|by eexists].
    + split; [done|]. by intros (? & ? & _ & _ & _ & _ & _ & _ & [? ?]).
  - split; [done|]. intros (? & ? & [= <-] & [= <-] & _ & _ & _ & -> & _). done.
Qed.

End SlackAcceptanceFacts.

(** *** What [send_message] reports once the message is delivered *)

Section SendReportFacts.
Import SendMessage.
Variable basename : string → string.

Lemma find_by_name_name n adapters a : find_by_name n adapters = Some a → name a = n.
Proof.
  unfold find_by_name. intros Hf. apply find_some in Hf as [_ Hn].
  by apply bool_decide_eq_true in Hn.
Qed.

(** X26. When [send_message] has delivered a message, its report names
    the platform the channel id stands for, telegram, slack or email, the
    channel and the handle of the new message, and tells the number of
    attachments when there is at least one; but when writing the log
    entry throws after the delivery, the report says "Failed to send"
    although the message was sent. *)
Theorem send_message_report_after_delivery adapters channel text attachments adapter ts :
  resolveAdapter channel adapters = Some adapter →
  postMessage adapter channel text
    (fmap (M := option) (List.map (λ filePath, (filePath, basename filePath))) attachments)
    = inl ts →
  name adapter = Heartbeat.adapter_label channel ∧
  name adapter ∈ ["telegram"; "slack"; "email"] ∧
  execute basename adapters false channel text attachments =
    match logBotResponse adapter channel text ts with
    | Some err => Returned ("Failed to send: " +:+ err)
    | None =>
        Returned ("Message sent to " +:+ name adapter +:+ " channel " +:+ channel +:+
                  match attachments with
                  | Some ((_ :: _) as files) =>
                      " with " +:+ pretty (N.of_nat (length files)) +:+ " attachment(s)"
                  | _ => EmptyString
                  end +:+ " (ts=" +:+ ts +:+ ")")
    end.
Proof.
  intros Hr Hp.
  assert (name adapter = Heartbeat.adapter_label channel ∧
          name adapter ∈ ["telegram"; "slack"; "email"]) as [Hn Hin].
  { revert Hr. unfold resolveAdapter, Heartbeat.adapter_label, is_email_id.
    destruct (is_telegram_id channel);
      [intros ->%find_by_name_name; split; [done | set_solver]|].
    destruct (is_slack_id channel);
      [intros ->%find_by_name_name; split; [done | set_solver]|].
    destruct (String.prefix "email-" channel); [|done].
    intros ->%find_by_name_name; split; [done | set_solver]. }
  split_and!; [done..|].
  unfold execute. rewrite Hr, Hp.
  destruct (logBotResponse adapter channel text ts); [done|].
  do 2 f_equal. destruct attachments as [[|f files]|]; simpl; try done.
  unfold show_nat. by rewrite length_map.
Qed.

End SendReportFacts.

(** The Slack adapter of the sample delivers; a second Slack adapter
    whose log file cannot be written reports a failure. *)
Lemma send_message_report_after_delivery_witness :
  let unwritable :=
    [ {| SendMessage.name := "slack";
         SendMessage.postMessage := λ _ _ _, inl "1700000000.000100";
         SendMessage.logBotResponse := λ _ _ _, Some "EACCES: permission denied, open 'log.jsonl'" |} ] in
  SendMessage.execute (λ p, p) demo_adapters false "C024BE91L" "build is green"
    (Some ["/tmp/report.pdf"])
  = SendMessage.Returned
      "Message sent to slack channel C024BE91L with 1 attachment(s) (ts=1700000000.000100)" ∧
  SendMessage.execute (λ p, p) unwritable false "C024BE91L" "build is green" None
  = SendMessage.Returned "Failed to send: EACCES: permission denied, open 'log.jsonl'".
Proof.
  intros unwritable. split.
  - destruct (send_message_report_after_delivery (λ p, p) demo_adapters "C024BE91L" "build is green"
                (Some ["/tmp/report.pdf"])
                {| SendMessage.name := "slack";
                   SendMessage.postMessage := λ _ _ _, inl "1700000000.000100";
                   SendMessage.logBotResponse := λ _ _ _, None |} "1700000000.000100"
                eq_refl eq_refl) as (_ & _ & ->).
    vm_compute. reflexivity.
  - destruct (send_message_report_after_delivery (λ p, p) unwritable "C024BE91L" "build is green"
                None
                {| SendMessage.name := "slack";
                   SendMessage.postMessage := λ _ _ _, inl "1700000000.000100";
                   SendMessage.logBotResponse := λ _ _ _,
                     Some "EACCES: permission denied, open 'log.jsonl'" |} "1700000000.000100"
                eq_refl eq_refl) as (_ & _ & ->).
    reflexivity.
Defined.
